(** * mms_msg: overlap-constrained offset sampling and reverberant synthesis

    A shallow embedding of
      - [mms_msg/sampling/pattern/meeting/overlap_sampler.py]
      - [mms_msg/simulation/reverberant.py]
    together with the properties of these two files that the specification
    states.

    Conventions of the embedding.
      - Python [int] values are [Z]; list positions are [nat].
      - An [np.int64] is the [Z] it holds; the results of NumPy's integer
        additions and subtractions wrap around ([int64]).
      - A Python call that may raise returns a [Py.result]: [Ok v] or
        [Raise e] for the exception class [e].
      - Python's index and slice rules (negative positions count from the end,
        slice bounds are clamped, an index out of range raises) are written
        out once in module [Py] and reused everywhere.
      - [np.argsort] is a library routine outside the repository.  The code
        calls it with the default [kind], for which NumPy promises a sorting
        permutation and nothing about ties; it is a parameter of the
        embedding, constrained by exactly that promise ([is_argsort]).
      - A [np.random.Generator] is a tape of raw draws with a cursor.
      - Audio samples are exact rationals ([Qc]): every finite float is a
        rational, and the statements about signals are statements of exact
        arithmetic.  The one product that decides a comparison, the
        threshold of [get_rir_start_sample], is rounded to a double
        ([float_mul]). *)

From Stdlib Require Import String Ascii.
From Stdlib Require Import List ZArith Bool Arith Lia.
From Stdlib Require Import Permutation Sorted.
From Stdlib Require Import QArith Qcanon Qcabs Qround.
Import ListNotations.

Close Scope Qc_scope.
Close Scope Q_scope.

Set Implicit Arguments.

(* ===================================================================== *)
(** * Python values and errors *)
(* ===================================================================== *)

Module Py.

Inductive exception : Type :=
| AssertionError
| ValueError
| IndexError
| TypeError.

Inductive result (A : Type) : Type :=
| Ok (a : A)
| Raise (e : exception).

Arguments Ok {A} a.
Arguments Raise {A} e.

Definition bind {A B : Type} (r : result A) (k : A -> result B) : result B :=
  match r with
  | Ok a => k a
  | Raise e => Raise e
  end.

(** [assert cond] *)
Definition assert_ (cond : bool) : result unit :=
  if cond then Ok tt else Raise AssertionError.

(** [[f(x) for x in xs]]: the first exception aborts the comprehension. *)
Fixpoint for_each {A B : Type} (f : A -> result B) (xs : list A) : result (list B) :=
  match xs with
  | [] => Ok []
  | x :: xs' =>
      bind (f x) (fun y => bind (for_each f xs') (fun ys => Ok (y :: ys)))
  end.

Section Sequences.
Context {A : Type}.

(** The position a slice bound [i] denotes in a sequence of length [len]:
    a negative bound counts from the end, and the result is clamped to
    [0 .. len]. *)
Definition slice_bound (len : nat) (i : Z) : nat :=
  if (i <? 0)%Z then Z.to_nat (Z.of_nat len + i)
  else Nat.min (Z.to_nat i) len.

(** [l[start:]] *)
Definition slice_from (l : list A) (start : Z) : list A :=
  skipn (slice_bound (length l) start) l.

(** [l[:stop]] *)
Definition slice_to (l : list A) (stop : Z) : list A :=
  firstn (slice_bound (length l) stop) l.

(** [l[i]]: negative [i] counts from the end; out of range raises. *)
Definition getitem (l : list A) (i : Z) : result A :=
  let len := Z.of_nat (length l) in
  let pos := if (i <? 0)%Z then (len + i)%Z else i in
  if ((0 <=? pos) && (pos <? len))%bool%Z then
    match nth_error l (Z.to_nat pos) with
    | Some x => Ok x
    | None => Raise IndexError
    end
  else Raise IndexError.

(** [l[::-1].index(x)], for a decidable equality test [eqb]. *)
Fixpoint index_of (eqb : A -> A -> bool) (x : A) (l : list A) : result nat :=
  match l with
  | [] => Raise ValueError
  | y :: l' =>
      if eqb y x then Ok 0%nat
      else bind (index_of eqb x l') (fun k => Ok (S k))
  end.

(** [x in l] *)
Definition contains (eqb : A -> A -> bool) (x : A) (l : list A) : bool :=
  existsb (fun y => eqb y x) l.

(** NumPy's index-array selection [a[idx]]: one element per index, an index
    outside the array raises. *)
Definition take (l : list A) (idx : list nat) : result (list A) :=
  for_each (fun i => match nth_error l i with
                     | Some x => Ok x
                     | None => Raise IndexError
                     end) idx.
End Sequences.

End Py.

Import Py.

Declare Scope py_scope.
Delimit Scope py_scope with py.
Notation "x <- r ;; k" := (Py.bind r (fun x => k))
  (at level 61, r at next level, right associativity) : py_scope.
Notation "r ;;; k" := (Py.bind r (fun _ => k))
  (at level 61, right associativity) : py_scope.

(* ===================================================================== *)
(** * The random generator *)
(* ===================================================================== *)

(** A [np.random.Generator] is a tape of raw draws and a cursor; every call
    consumes one raw draw.  Quantifying over generators quantifies over every
    stream of outcomes: [integers lo hi] can return any value of [[lo, hi)],
    [uniform01] any 53-bit fraction of [[0, 1)]. *)
Module Rng.

Record Generator : Type := mkGenerator {
  raw : nat -> Z;
  cursor : nat
}.

Definition next (g : Generator) : Z * Generator :=
  (raw g (cursor g), {| raw := raw g; cursor := S (cursor g) |}).

(** [rng.integers(low, high)]: an integer of [[low, high)]; NumPy raises
    [ValueError] ("low >= high") on an empty range. *)
Definition integers (low high : Z) (g : Generator) : result (Z * Generator) :=
  if (low <? high)%Z then
    let (r, g') := next g in
    Ok ((low + r mod (high - low))%Z, g')
  else Raise ValueError.

(** [rng.uniform(0, 1)]: a double of [[0, 1)], that is [k / 2^53]. *)
Definition uniform01 (g : Generator) : Qc * Generator :=
  let (r, g') := next g in
  (Q2Qc (Qmake (r mod 2 ^ 53) (2 ^ 53)), g').

End Rng.

(** Code that draws from a generator and may raise. *)
Definition Sampler (A : Type) : Type := Rng.Generator -> result (A * Rng.Generator).

Definition sret {A : Type} (a : A) : Sampler A := fun g => Ok (a, g).

Definition sbind {A B : Type} (m : Sampler A) (k : A -> Sampler B) : Sampler B :=
  fun g => match m g with
           | Ok (a, g') => k a g'
           | Raise e => Raise e
           end.

Definition slift {A : Type} (r : result A) : Sampler A :=
  fun g => match r with
           | Ok a => Ok (a, g)
           | Raise e => Raise e
           end.

Declare Scope sampler_scope.
Delimit Scope sampler_scope with sampler.
Notation "x <~ m ;; k" := (sbind m (fun x => k))
  (at level 61, m at next level, right associativity) : sampler_scope.

(** [x <= y] on floats, read on the rationals they denote. *)
Definition Qc_leb (x y : Qc) : bool := Qle_bool x y.

(** [x > y] on floats. *)
Definition Qc_gtb (x y : Qc) : bool := negb (Qle_bool x y).

(* ===================================================================== *)
(** * overlap_sampler.py *)
(* ===================================================================== *)

Module OverlapSampler.

Local Open Scope Z_scope.

(** Entries of the padded [speaker_ids]: a speaker's id, or Python's [None]
    for a padding slot. *)
Definition id_eqb (x y : option string) : bool :=
  match x, y with
  | Some a, Some b => String.eqb a b
  | None, None => true
  | _, _ => false
  end.

(** The [np.int64] that an addition or subtraction of [np.int64] values
    yields when its exact result is [z]: NumPy's fixed-width integers wrap
    around in two's complement. *)
Definition int64 (z : Z) : Z := (z + 2 ^ 63) mod 2 ^ 64 - 2 ^ 63.

Section GetAllowedMaxOverlap.
Local Open Scope py_scope.

(** [np.argsort], called with its default [kind]. *)
Variable np_argsort : list Z -> list nat.

(** [speaker_ids + [None] * (max_concurrent_spk - len(speaker_end))] *)
Definition pad_speaker_ids (speaker_ids : list string)
    (max_concurrent_spk : Z) (len_speaker_end : nat) : list (option string) :=
  map Some speaker_ids
    ++ repeat None (Z.to_nat (max_concurrent_spk - Z.of_nat len_speaker_end)).

(** [np.concatenate([speaker_end, np.zeros(max(max_concurrent_spk - n, 0))])] *)
Definition pad_speaker_end (speaker_end : list Z) (max_concurrent_spk : Z) : list Z :=
  speaker_end
    ++ repeat 0
         (Z.to_nat (Z.max (max_concurrent_spk - Z.of_nat (length speaker_end)) 0)).

(** Lines 39-49: the end times and ids kept for the current sampling. *)
Definition active_tail (speaker_end : list Z) (speaker_ids : list string)
    (max_concurrent_spk : Z) : result (list Z * list (option string)) :=
  let ids := pad_speaker_ids speaker_ids max_concurrent_spk (length speaker_end) in
  let ends := pad_speaker_end speaker_end max_concurrent_spk in
  let speaker_idx := slice_from (np_argsort ends) (- max_concurrent_spk) in
  tail_end <- take ends speaker_idx ;;
  tail_ids <- take ids speaker_idx ;;
  Ok (tail_end, tail_ids).

(** Lines 51-54: the bound after the current speaker's own turns are
    discounted. *)
Definition effective_max_concurrent_spk (tail_ids : list (option string))
    (max_concurrent_spk : Z) (current_speaker_id : string) : result Z :=
  if contains id_eqb (Some current_speaker_id) tail_ids then
    spk_pos <- index_of id_eqb (Some current_speaker_id) (rev tail_ids) ;;
    Ok (Z.of_nat spk_pos + 1)
  else Ok max_concurrent_spk.

Definition get_allowed_max_overlap (speaker_end : list Z) (speaker_ids : list string)
    (max_concurrent_spk : Z) (current_speaker_id : string) : result Z :=
  tail <- active_tail speaker_end speaker_ids max_concurrent_spk ;;
  let (tail_end, tail_ids) := tail in
  k <- effective_max_concurrent_spk tail_ids max_concurrent_spk current_speaker_id ;;
  last_end <- getitem tail_end (-1) ;;
  kth_end <- getitem tail_end (- k) ;;
  Ok (int64 (last_end - kth_end)).
End GetAllowedMaxOverlap.

(** What NumPy promises of [np.argsort(a)]: the indices of [a], each once,
    in an order that sorts [a]. *)
Definition is_argsort (a : list Z) (idx : list nat) : Prop :=
  Permutation idx (seq 0 (length a))
  /\ Sorted Z.le (map (fun i => nth i a 0) idx).


(** Two sorts by insertion that meet the promise and differ on ties:
    [before x y] decides whether a new element [x] goes in front of [y]. *)
Fixpoint insert_index (before : Z -> Z -> bool) (a : list Z) (i : nat)
    (sorted : list nat) : list nat :=
  match sorted with
  | [] => [i]
  | j :: rest =>
      if before (nth i a 0) (nth j a 0) then i :: sorted
      else j :: insert_index before a i rest
  end.

Definition argsort_by (before : Z -> Z -> bool) (a : list Z) : list nat :=
  fold_right (insert_index before a) [] (seq 0 (length a)).

(** Equal values keep their input order. *)
Definition argsort_stable : list Z -> list nat := argsort_by Z.leb.

(** Equal values come out in reverse input order. *)
Definition argsort_reversing : list Z -> list nat := argsort_by Z.ltb.

(** The dataclass [UniformOverlapSampler] (with the inherited
    [max_concurrent_spk]). *)
Record UniformOverlapSampler : Type := {
  max_concurrent_spk : Z;
  p_silence : Qc;
  maximum_silence : Z;
  maximum_overlap : Z;
  minimum_silence : Z;
  soft_minimum_overlap : Z;
  hard_minimum_overlap : Z;
  margin : Z
}.

(** The fields of [examples] that the sampler reads. *)
Record Examples : Type := {
  offset_original_source : list Z;
  num_samples_observation : list Z;
  speaker_id : list string
}.

(** [np.asarray(a) + np.asarray(b)] on 1-D [int64] inputs: element-wise and
    wrapping, a length-1 operand is broadcast, other length mismatches
    raise. *)
Definition np_add (a b : list Z) : result (list Z) :=
  if (length a =? length b)%nat
  then Ok (map (fun p => int64 (fst p + snd p)) (combine a b))
  else match a, b with
       | x :: nil, _ => Ok (map (fun y => int64 (x + y)) b)
       | _, y :: nil => Ok (map (fun x => int64 (x + y)) a)
       | _, _ => Raise ValueError
       end.

(** [np.max]: raises on an empty array. *)
Definition np_max (a : list Z) : result Z :=
  match a with
  | [] => Raise ValueError
  | x :: rest => Ok (fold_left Z.max rest x)
  end.

Section Sampling.
Local Open Scope sampler_scope.

Variable self : UniformOverlapSampler.

Definition __post_init__ : result unit :=
  (assert_ (minimum_silence self >=? margin self) ;;;
   assert_ (minimum_silence self <? maximum_silence self) ;;;
   assert_ (soft_minimum_overlap self <=? maximum_overlap self) ;;;
   assert_ (hard_minimum_overlap self <=? maximum_overlap self))%py.

Definition _sample_silence : Sampler Z :=
  Rng.integers (minimum_silence self) (maximum_silence self).

Definition _sample_overlap : Sampler Z :=
  Rng.integers (hard_minimum_overlap self) (maximum_overlap self).

Definition _sample_shift : Sampler Z :=
  u <~ (fun g => Ok (Rng.uniform01 g)) ;;
  if Qc_leb u (p_silence self) then _sample_silence
  else (overlap <~ _sample_overlap ;; sret (- overlap)).

(** The [for _ in range(attempts)] loop of [sample_offset]: [Some shift]
    when an attempt is accepted ([break]), [None] when the range is
    exhausted and the loop's [else] clause runs. *)
Fixpoint rejection_loop (maximum_overlap : Z) (attempts : nat) : Sampler (option Z) :=
  match attempts with
  | O => sret None
  | S attempts' =>
      shift <~ _sample_shift ;;
      if shift >? - maximum_overlap + margin self then sret (Some shift)
      else rejection_loop maximum_overlap attempts'
  end.

(** Line 115, the branch for [maximum_overlap <= hard_minimum_overlap]. *)
Definition shift_no_overlap : Sampler Z :=
  silence <~ _sample_silence ;; sret (Z.max silence (margin self)).

(** Line 133, the fallback after 100 rejections. *)
Definition shift_fallback : Sampler Z := _sample_silence.

(** Lines 113-133: the shift relative to the latest end, and whether the
    warning was issued. *)
Definition sample_shift (maximum_overlap : Z) : Sampler (Z * bool) :=
  if maximum_overlap <=? hard_minimum_overlap self then
    shift <~ shift_no_overlap ;; sret (shift, false)
  else if maximum_overlap <=? soft_minimum_overlap self then
    sret (- maximum_overlap + margin self, false)
  else
    accepted <~ rejection_loop maximum_overlap 100 ;;
    match accepted with
    | Some shift => sret (shift, false)
    | None => shift <~ shift_fallback ;; sret (shift, true)
    end.

(** The latest end among the placed utterances (lines 137-140). *)
Definition latest_speaker_end (examples : Examples) : result Z :=
  (ends <- np_add (offset_original_source examples)
                  (num_samples_observation examples) ;;
   np_max ends)%py.

(** [sample_offset]: the offset, and whether the warning was issued.  The
    latest end is an [np.int64], so the final sum wraps. *)
Definition sample_offset (examples : Examples) (maximum_overlap : Z)
    : Sampler (Z * bool) :=
  sw <~ sample_shift maximum_overlap ;;
  latest <~ slift (latest_speaker_end examples) ;;
  sret (int64 (latest + fst sw), snd sw).
End Sampling.

(** ** Quantities used to state the properties *)

(** The ends of the current speaker among the placed utterances. *)
Definition current_speaker_ends (speaker_end : list Z) (speaker_ids : list string)
    (cur : string) : list Z :=
  map fst (filter (fun p => String.eqb (snd p) cur) (combine speaker_end speaker_ids)).

(** The end times, and the 0 of the padding, lie close enough together for
    the difference of any two of them to be an [np.int64]: so it is for end
    times that are all non-negative [np.int64] values. *)
Definition int64_span (speaker_end : list Z) : Prop :=
  forall e e', In e (0 :: speaker_end) -> In e' (0 :: speaker_end) -> e - e' < 2 ^ 63.

(** The padded end times in the order in which [np_argsort] lists them. *)
Definition sorted_ends (np_argsort : list Z -> list nat) (speaker_end : list Z)
    (m : Z) : list Z :=
  map (fun i => nth i (pad_speaker_end speaker_end m) 0)
      (np_argsort (pad_speaker_end speaker_end m)).

(** ** Concrete samplers *)

(** A sampler as used for meetings, two placed utterances ending at 10 and
    30, and a generator. *)
Definition meeting_sampler : UniformOverlapSampler :=
  {| max_concurrent_spk := 2;
     p_silence := Q2Qc (1 # 10);
     maximum_silence := 10;
     maximum_overlap := 100;
     minimum_silence := 2;
     soft_minimum_overlap := 0;
     hard_minimum_overlap := 5;
     margin := 1 |}.

Definition two_turns : Examples :=
  {| offset_original_source := [0; 10];
     num_samples_observation := [10; 20];
     speaker_id := ["a"%string; "b"%string] |}.

Definition counting_generator : Rng.Generator :=
  Rng.mkGenerator (fun n => Z.of_nat n) 0.

(** A generator whose draws make every attempt choose an overlap of 99. *)
Definition stubborn_generator : Rng.Generator :=
  Rng.mkGenerator (fun n => if Nat.even n then 2 ^ 52 else 94) 0.

(** A sampler that passes [__post_init__] with a negative
    [soft_minimum_overlap], so that [maximum_overlap = 0] is above it. *)
Definition tight_sampler : UniformOverlapSampler :=
  {| max_concurrent_spk := 2;
     p_silence := Q2Qc (1 # 2);
     maximum_silence := 1;
     maximum_overlap := 0;
     minimum_silence := 0;
     soft_minimum_overlap := -1;
     hard_minimum_overlap := 0;
     margin := 0 |}.

(** The ways in which [sample_shift self allowed_overlap g] returns
    [(shift, warned)] and the generator [g']: the three branches, the last one
    with an accepted candidate or with the fallback. *)
Inductive shift_outcome (self : UniformOverlapSampler) (allowed_overlap : Z)
    (g : Rng.Generator) (shift : Z) (warned : bool) (g' : Rng.Generator) : Prop :=
| silence_only :
    allowed_overlap <= hard_minimum_overlap self ->
    warned = false ->
    (exists silence,
        minimum_silence self <= silence < maximum_silence self
        /\ shift = Z.max silence (margin self)) ->
    Rng.cursor g' = S (Rng.cursor g) ->
    shift_outcome self allowed_overlap g shift warned g'
| largest_overlap :
    hard_minimum_overlap self < allowed_overlap ->
    allowed_overlap <= soft_minimum_overlap self ->
    warned = false ->
    shift = - allowed_overlap + margin self ->
    g' = g ->
    shift_outcome self allowed_overlap g shift warned g'
| accepted_candidate :
    hard_minimum_overlap self < allowed_overlap ->
    soft_minimum_overlap self < allowed_overlap ->
    warned = false ->
    shift > - allowed_overlap + margin self ->
    (minimum_silence self <= shift < maximum_silence self
     \/ - maximum_overlap self < shift <= - hard_minimum_overlap self) ->
    (Rng.cursor g < Rng.cursor g' <= Rng.cursor g + 200)%nat ->
    shift_outcome self allowed_overlap g shift warned g'
| silence_after_100 :
    hard_minimum_overlap self < allowed_overlap ->
    soft_minimum_overlap self < allowed_overlap ->
    warned = true ->
    minimum_silence self <= shift < maximum_silence self ->
    Rng.cursor g' = (Rng.cursor g + 201)%nat ->
    shift_outcome self allowed_overlap g shift warned g'.

(** A sampler that passes [__post_init__] although its overlap range
    [[hard_minimum_overlap, maximum_overlap)] is empty. *)
Definition empty_range_sampler : UniformOverlapSampler :=
  {| max_concurrent_spk := 2;
     p_silence := Q2Qc (1 # 10);
     maximum_silence := 10;
     maximum_overlap := 5;
     minimum_silence := 2;
     soft_minimum_overlap := 0;
     hard_minimum_overlap := 5;
     margin := 1 |}.

(** ** _get_valid_overlap_region and OverlapSampler.__call__ *)

(** [_get_valid_overlap_region(examples, max_concurrent_spk, current_source,
    use_vad)].  [aligned] holds [examples['offset']['aligned_source']] and
    [examples['num_samples']['aligned_source']], which are read only with
    [use_vad]; [current_speaker_id] is [current_source['speaker_id']]. *)
Definition _get_valid_overlap_region (np_argsort : list Z -> list nat)
    (examples : Examples) (aligned : list Z * list Z) (max_concurrent_spk : Z)
    (current_speaker_id : string) (use_vad : bool) : result Z :=
  (speaker_end <- (if use_vad then np_add (fst aligned) (snd aligned)
                   else np_add (offset_original_source examples)
                               (num_samples_observation examples)) ;;
   get_allowed_max_overlap np_argsort speaker_end (speaker_id examples)
     max_concurrent_spk current_speaker_id)%py.

(** [OverlapSampler.__call__] of a [UniformOverlapSampler].  [collate_fn] is
    defined in [mms_msg/sampling/utils]: it is a parameter here, a function
    from the list of examples it is given to the dictionary of lists that the
    rest of the call reads, or to an exception. *)
Definition __call__ (np_argsort : list Z -> list nat) (uncollated : Type)
    (collate_fn : uncollated -> result Examples) (self : UniformOverlapSampler)
    (examples : uncollated) (current_speaker_id : string) : Sampler (Z * bool) :=
  (examples <~ slift (collate_fn examples) ;;
   maximum_overlap <~ slift (_get_valid_overlap_region np_argsort examples ([], [])
                               (max_concurrent_spk self) current_speaker_id false) ;;
   sample_offset self examples maximum_overlap)%sampler.

(** No utterance placed yet. *)
Definition empty_history : Examples :=
  {| offset_original_source := [];
     num_samples_observation := [];
     speaker_id := [] |}.

(** Three placed utterances of speakers a, b, a that end at 10, 30 and 25. *)
Definition three_turns : Examples :=
  {| offset_original_source := [0; 10; 20];
     num_samples_observation := [10; 20; 5];
     speaker_id := ["a"%string; "b"%string; "a"%string] |}.

End OverlapSampler.

(* ===================================================================== *)
(** * reverberant.py *)
(* ===================================================================== *)

Module Reverberant.

Local Open Scope py_scope.

(** A NumPy array of samples with one or two dimensions. *)
Inductive ndarray : Type :=
| Arr1 (x : list Qc)
| Arr2 (x : list (list Qc)).

(** [x > y] on floats ([Qc_gtb]) and [x < y]. *)
Definition Qc_ltb (x y : Qc) : bool := Qc_gtb y x.

(** The float literal [1e-1]: the double nearest to one tenth. *)
Definition float_1e_1 : Qc := Q2Qc (3602879701896397 # 36028797018963968).

(** ** Products of doubles

    The product of two doubles is the exact product rounded to the nearest
    double, ties to the even significand (IEEE 754 binary64, the default
    rounding). *)

(** [2^k] *)
Definition pow2 (k : Z) : Q :=
  if (0 <=? k)%Z then inject_Z (2 ^ k) else Qmake 1 (Z.to_pos (2 ^ (- k))).

(** The integer nearest to [x >= 0], ties to the even one. *)
Definition round_half_even (x : Q) : Z :=
  let f := Qfloor x in
  match Qcompare (x - inject_Z f) (Qmake 1 2) with
  | Lt => f
  | Gt => (f + 1)%Z
  | Eq => if Z.even f then f else (f + 1)%Z
  end.

(** [floor(log2 x)] for [x > 0]. *)
Definition ilog2 (x : Q) : Z :=
  let k := (Z.log2 (Qnum x) - Z.log2 (Zpos (Qden x)))%Z in
  if Qle_bool (pow2 k) x then k else (k - 1)%Z.

(** The double nearest to [x > 0]: 53 significant bits, the unit in the last
    place never below [2^-1074] (subnormal numbers). *)
Definition round_double_pos (x : Q) : Q :=
  let e := Z.max (ilog2 x - 52) (-1074) in
  (inject_Z (round_half_even (x / pow2 e)) * pow2 e)%Q.

(** The double nearest to [x].  A magnitude beyond the largest double, which
    IEEE arithmetic rounds to an infinity, is kept as the finite number
    rounded to 53 bits: against the finite samples of an array it compares
    as the infinity does. *)
Definition round_double (x : Qc) : Qc :=
  match Qcompare x 0 with
  | Eq => 0%Qc
  | Gt => Q2Qc (round_double_pos x)
  | Lt => (- Q2Qc (round_double_pos (- x)))%Qc
  end.

(** [x * y] on doubles. *)
Definition float_mul (x y : Qc) : Qc := round_double (x * y)%Qc.

(** ** get_rir_start_sample *)

(** [np.argmax] scans for the first position of the largest value. *)
Fixpoint argmax_from (best : Qc) (best_index next_index : nat) (l : list Qc) : nat :=
  match l with
  | [] => best_index
  | y :: l' =>
      if Qc_gtb y best then argmax_from y next_index (S next_index) l'
      else argmax_from best best_index (S next_index) l'
  end.

Definition np_argmax (l : list Qc) : result nat :=
  match l with
  | [] => Raise ValueError
  | x :: l' => Ok (argmax_from x 0 1 l')
  end.

(** The first [True] of a boolean array, if any. *)
Fixpoint first_true (l : list bool) : option nat :=
  match l with
  | [] => None
  | b :: l' => if b then Some 0%nat else option_map S (first_true l')
  end.

(** [np.argmax] of a boolean array: the first [True], position 0 when there
    is none; an empty array raises. *)
Definition np_argmax_bool (l : list bool) : result nat :=
  match l with
  | [] => Raise ValueError
  | _ => Ok (match first_true l with Some i => i | None => 0%nat end)
  end.

(** [np.min] of a list of indices. *)
Definition np_min (l : list nat) : result nat :=
  match l with
  | [] => Raise ValueError
  | x :: l' => Ok (fold_left Nat.min l' x)
  end.

(** Lines 245-253, the body for a 1-D impulse response. *)
Definition rir_start_sample_1d (level_ratio : Qc) (h : list Qc) : result nat :=
  let abs_h := map Qcabs h in
  max_index <- np_argmax abs_h ;;
  max_abs_value <- getitem abs_h (Z.of_nat max_index) ;;
  let larger_than_threshold :=
    map (fun a => Qc_gtb a (float_mul level_ratio max_abs_value))
        (slice_to abs_h (Z.of_nat max_index + 1)) in
  np_argmax_bool larger_than_threshold.

(** [get_rir_start_sample(h, level_ratio)].  On an array with a channel
    dimension the function calls itself on every row; each of these calls
    repeats the assertion on [level_ratio] and runs the 1-D body. *)
Definition get_rir_start_sample (level_ratio : Qc) (h : ndarray) : result nat :=
  assert_ (Qc_ltb level_ratio 1%Qc) ;;;
  match h with
  | Arr1 x => rir_start_sample_1d level_ratio x
  | Arr2 rows =>
      assert_ (length rows <? 20)%nat ;;;
      starts <- for_each (fun h_ => assert_ (Qc_ltb level_ratio 1%Qc) ;;;
                                    rir_start_sample_1d level_ratio h_) rows ;;
      np_min starts
  end.

(** ** get_channel_slice *)

(** A Python [slice(start, stop)]. *)
Record pyslice : Type := {
  start : option Z;
  stop : option Z
}.

(** The values the argument [channel_slice] takes. *)
Inductive channel_slice_arg : Type :=
| CsSlice (s : pyslice)
| CsInt (n : Z)
| CsNone
| CsStr (s : string).

(** What [get_channel_slice] returns: a slice, or one channel's index. *)
Inductive selection : Type :=
| SelSlice (s : pyslice)
| SelIndex (i : Z).

(** [default_rng] stands for the generator that [np.random.default_rng()]
    creates at the call: it is seeded by the operating system, so it is not
    a function of the arguments. *)
Definition get_channel_slice (default_rng : Rng.Generator)
    (channel_slice : channel_slice_arg) (total_num_channels : option Z)
    (rng : option Rng.Generator) (squeeze : bool) : result selection :=
  match channel_slice with
  | CsSlice s =>
      if squeeze then
        match stop s, start s with
        | Some b, Some a => if (b - a =? 1)%Z then Ok (SelIndex a) else Ok (SelSlice s)
        | _, _ => Raise TypeError
        end
      else Ok (SelSlice s)
  | CsInt n =>
      if (squeeze && (n =? 1)%Z)%bool then Ok (SelIndex 0)
      else Ok (SelSlice {| start := None; stop := Some n |})
  | CsNone => Ok (SelSlice {| start := None; stop := None |})
  | CsStr name =>
      if String.eqb name "all" then Ok (SelSlice {| start := None; stop := None |})
      else if String.eqb name "one_random" then
        match total_num_channels with
        | None => Raise ValueError
        | Some total =>
            let rng := match rng with
                       | None => default_rng
                       | Some g => g
                       end in
            drawn <- Rng.integers 0 total rng ;;
            let channel := fst drawn in
            if squeeze then Ok (SelIndex channel)
            else Ok (SelSlice {| start := Some channel; stop := Some (channel + 1)%Z |})
        end
      else Raise ValueError
  end.

(** ** reverberant_scenario_map_fn *)

(** The RIRs of an example, [h] of shape [(K, T)] or [(K, D, T)]. *)
Inductive rirs : Type :=
| Rirs2 (h : list (list Qc))
| Rirs3 (h : list (list (list Qc))).

(** [for h_k in h] *)
Definition rirs_rows (h : rirs) : list ndarray :=
  match h with
  | Rirs2 rows => map Arr1 rows
  | Rirs3 hs => map Arr2 hs
  end.

(** [l[s]] for a slice [s] with step 1. *)
Definition apply_slice {A : Type} (l : list A) (s : pyslice) : list A :=
  let len := length l in
  let lo := match start s with None => 0%nat | Some a => slice_bound len a end in
  let hi := match stop s with None => len | Some b => slice_bound len b end in
  firstn (hi - lo) (skipn lo l).

(** [h.shape[-2]] *)
Definition shape_m2 (h : rirs) : Z :=
  match h with
  | Rirs2 rows => Z.of_nat (length rows)
  | Rirs3 hs => Z.of_nat (length (hd [] hs))
  end.

(** [h.shape[-1]], read off the first row; when slicing leaves no row, the
    function does not use the value. *)
Definition shape_m1 (h : rirs) : Z :=
  match h with
  | Rirs2 rows => Z.of_nat (length (hd [] rows))
  | Rirs3 hs => Z.of_nat (length (hd [] (hd [] hs)))
  end.

(** [h[..., channel_slice, :]]: the slice applies to the last axis but one,
    which is the speaker axis when [h] has no channel axis. *)
Definition slice_channels (h : rirs) (s : pyslice) : rirs :=
  match h with
  | Rirs2 rows => Rirs2 (apply_slice rows s)
  | Rirs3 hs => Rirs3 (map (fun h_k => apply_slice h_k s) hs)
  end.

(** Sum of two signals, the shorter one continued by zeros. *)
Fixpoint padd (a b : list Qc) : list Qc :=
  match a, b with
  | [], _ => b
  | _, [] => a
  | x :: a', y :: b' => (x + y)%Qc :: padd a' b'
  end.

Fixpoint convolve_rec (s h : list Qc) : list Qc :=
  match s with
  | [] => []
  | x :: s' => padd (map (Qcmult x) h) (0%Qc :: convolve_rec s' h)
  end.

(** [fftconvolve(s, h, axes=-1)] on 1-D inputs, in exact arithmetic: the
    full linear convolution, empty when an input is empty. *)
Definition fftconvolve (s h : list Qc) : list Qc :=
  match s, h with
  | [], _ => []
  | _, [] => []
  | _, _ => convolve_rec s h
  end.

(** [_convolve(s, h_k)], lines 114-125.  With a channel axis the source is
    convolved with every channel; when an operand has no element SciPy
    returns an empty 1-D array and reading [c.shape[-2]] raises. *)
Definition _convolve (s : list Qc) (h_k : ndarray) : result ndarray :=
  match h_k with
  | Arr1 h => Ok (Arr1 (fftconvolve s h))
  | Arr2 rows =>
      match s, rows with
      | [], _ => Raise IndexError
      | _, [] => Raise IndexError
      | _, [] :: _ => Raise IndexError
      | _, _ => Ok (Arr2 (map (fftconvolve s) rows))
      end
  end.

(** [x.shape[-1]] *)
Definition last_dim (x : ndarray) : Z :=
  match x with
  | Arr1 v => Z.of_nat (length v)
  | Arr2 rows => Z.of_nat (length (hd [] rows))
  end.

(** [x * c] *)
Definition scale_array (x : ndarray) (c : Qc) : ndarray :=
  match x with
  | Arr1 v => Arr1 (map (fun a => a * c)%Qc v)
  | Arr2 rows => Arr2 (map (map (fun a => a * c)%Qc) rows)
  end.

(** [s_ - np.mean(s_)] *)
Definition mean_normalize (s_ : list Qc) : list Qc :=
  let mean := (fold_right Qcplus 0%Qc s_ / Q2Qc (inject_Z (Z.of_nat (length s_))))%Qc in
  map (fun a => a - mean)%Qc s_.

(** [row[stop:] = 0] and [row[:stop] = 0] *)
Definition zero_from (row : list Qc) (stop : Z) : list Qc :=
  let c := slice_bound (length row) stop in
  firstn c row ++ repeat 0%Qc (length row - c).

Definition zero_until (row : list Qc) (stop : Z) : list Qc :=
  let c := slice_bound (length row) stop in
  repeat 0%Qc (Nat.min c (length row)) ++ skipn c row.

(** Lines 180-182 and 197-199: [mask] is applied to every speaker of [h]
    for which there is a stop sample, on every channel. *)
Fixpoint mask_rows {A : Type} (mask : A -> Z -> A) (h : list A) (stops : list Z)
    : result (list A) :=
  match h, stops with
  | [], _ => Ok []
  | _ :: _, [] => Raise IndexError
  | h_i :: h', stop_i :: stops' =>
      rest <- mask_rows mask h' stops' ;; Ok (mask h_i stop_i :: rest)
  end.

Definition mask_rirs (mask : list Qc -> Z -> list Qc) (h : rirs) (stops : list Z)
    : result rirs :=
  match h with
  | Rirs2 rows => rows' <- mask_rows mask rows stops ;; Ok (Rirs2 rows')
  | Rirs3 hs =>
      hs' <- mask_rows (fun h_i stop_i => map (fun row => mask row stop_i) h_i) hs stops ;;
      Ok (Rirs3 hs')
  end.

(** The fields of [example] that the function reads. *)
Record Example : Type := {
  rir : rirs;
  original_source : list (list Qc);
  offset_original_source : list Z;
  num_samples_original_source : list Z;
  num_samples_observation : Z;
  speaker_id : list string;
  log_weights : list Qc
}.

Section ScenarioMapFn.
(** [pad_sparse] and [get_scale] are defined in
    [mms_msg/simulation/anechoic.py]; they, the padded signals and their
    sample-wise sum are parameters here. *)
Variables sparse dense : Type.
Variable pad_sparse : list ndarray -> list Z -> list Z -> result (list sparse).
Variable get_scale : list Qc -> list ndarray -> result (list Qc).
Variable sum_padded : list sparse -> list Z -> result dense.
Variable default_rng : Rng.Generator.

(** What the function stores in the example. *)
Record Output : Type := {
  out_rir : rirs;
  speech_source : list sparse;
  original_reverberated : list ndarray;
  speech_image : list sparse;
  num_samples_original_reverberated : list Z;
  offset_original_reverberated : list Z;
  original_reverberation_early : option (list ndarray);
  speech_reverberation_early : option (list sparse);
  rir_early : option rirs;
  original_reverberation_tail : option (list ndarray);
  speech_reverberation_tail : option (list sparse);
  rir_tail : option rirs;
  observation : dense
}.

(** [apply_scale], lines 163-164. *)
Definition apply_scale (scale : list Qc) (x : list ndarray) : list ndarray :=
  map (fun p => scale_array (fst p) (snd p)) (combine x scale).

(** [get_convolved_signals], lines 133-145. *)
Definition get_convolved_signals (example : Example) (s : list (list Qc))
    (rir_offset : list Z) (rir_length : Z) (h : rirs) : result (list ndarray) :=
  let K := length (speaker_id example) in
  assert_ (length s =? length (rirs_rows h))%nat ;;;
  x <- for_each (fun p => _convolve (fst p) (snd p)) (combine s (rirs_rows h)) ;;
  assert_ (length x =? length (num_samples_original_source example))%nat ;;;
  for_each (fun p => assert_ (last_dim (fst p) =? snd p + rir_length - 1)%Z)
           (combine x (num_samples_original_source example)) ;;;
  assert_ ((length x =? length rir_offset)%nat && (length rir_offset =? K)%nat) ;;;
  Ok x.

Definition reverberant_scenario_map_fn (example : Example)
    (normalize_sources add_speech_reverberation_early
     add_speech_reverberation_tail compensate_time_of_flight : bool)
    (early_rir_samples : Z) (details : bool) (channel_slice : channel_slice_arg)
    : result Output :=
  let h := rir example in
  rir_start_sample <- for_each (get_rir_start_sample float_1e_1) (rirs_rows h) ;;
  (* np.asarray of an empty list has one dimension *)
  assert_ (negb (length (rirs_rows h) =? 0)%nat) ;;;
  h <- match channel_slice with
       | CsNone => Ok h
       | _ =>
           sel <- get_channel_slice default_rng channel_slice (Some (shape_m2 h))
                    None false ;;
           match sel with
           | SelSlice sl => Ok (slice_channels h sl)
           | SelIndex _ => Raise TypeError (* not returned without squeeze *)
           end
       end ;;
  let rir_stop_sample := map (fun st => Z.of_nat st + early_rir_samples)%Z rir_start_sample in
  let rir_offset :=
    if compensate_time_of_flight then
      map (fun p => fst p - Z.of_nat (snd p))%Z
          (combine (offset_original_source example) rir_start_sample)
    else offset_original_source example in
  let T := num_samples_observation example in
  let s := original_source example in
  let rir_length := shape_m1 h in
  let pad_shape := match h with
                   | Rirs2 _ => [T]
                   | Rirs3 hs => [Z.of_nat (length (hd [] hs)); T]
                   end in
  let s := if normalize_sources then map mean_normalize s else s in
  speech_source_ <- pad_sparse (map Arr1 (original_source example))
                      (offset_original_source example) [T] ;;
  reverberated <- get_convolved_signals example s rir_offset rir_length h ;;
  scale <- get_scale (log_weights example) reverberated ;;
  let reverberated := apply_scale scale reverberated in
  speech_image_ <- pad_sparse reverberated rir_offset pad_shape ;;
  let num_samples_ := map last_dim reverberated in
  early <- (if add_speech_reverberation_early then
              h_early <- mask_rirs zero_from h rir_stop_sample ;;
              x <- get_convolved_signals example s rir_offset rir_length h_early ;;
              let x := apply_scale scale x in
              padded <- pad_sparse x rir_offset pad_shape ;;
              Ok (Some x, Some padded, if details then Some h_early else None)
            else Ok (None, None, None)) ;;
  tail <- (if add_speech_reverberation_tail then
             h_tail <- mask_rirs zero_until h rir_stop_sample ;;
             x <- get_convolved_signals example s rir_offset rir_length h_tail ;;
             let x := apply_scale scale x in
             padded <- pad_sparse x rir_offset pad_shape ;;
             Ok (Some x, Some padded, if details then Some h_tail else None)
           else Ok (None, None, None)) ;;
  (* s[0].dtype *)
  getitem s 0 ;;;
  clean_mix <- sum_padded speech_image_ pad_shape ;;
  Ok {| out_rir := h;
        speech_source := speech_source_;
        original_reverberated := reverberated;
        speech_image := speech_image_;
        num_samples_original_reverberated := num_samples_;
        offset_original_reverberated := rir_offset;
        original_reverberation_early := fst (fst early);
        speech_reverberation_early := snd (fst early);
        rir_early := snd early;
        original_reverberation_tail := fst (fst tail);
        speech_reverberation_tail := snd (fst tail);
        rir_tail := snd tail;
        observation := clean_mix |}.
End ScenarioMapFn.

(** ** slice_channel *)

(** [example['audio_data']['rir'][0].shape[0]]: the first axis of the first
    speaker's RIR, its number of channels when there is a channel axis. *)
Definition first_shape_0 (h : rirs) : result Z :=
  match h with
  | Rirs2 rows => r <- getitem rows 0 ;; Ok (Z.of_nat (length r))
  | Rirs3 hs => r <- getitem hs 0 ;; Ok (Z.of_nat (length r))
  end.

(** [r[channel_slice, :]] for every speaker, lines 318-322.  An RIR without
    channel axis has no second index: NumPy raises [IndexError]. *)
Definition index_channel (h : rirs) (sel : selection) : result rirs :=
  match h with
  | Rirs2 _ => Raise IndexError
  | Rirs3 hs =>
      match sel with
      | SelSlice sl => Ok (Rirs3 (map (fun r => apply_slice r sl) hs))
      | SelIndex i => rows <- for_each (fun r => getitem r i) hs ;; Ok (Rirs2 rows)
      end
  end.

(** [slice_channel], lines 298-324.  [get_rng_example] is defined in
    [mms_msg/sampling/utils/rng.py]: it is a parameter here, called with the
    example and the string ['slice_channel']. *)
Definition slice_channel (get_rng_example : Example -> string -> Rng.Generator)
    (default_rng : Rng.Generator) (example : Example)
    (channel_slice : channel_slice_arg) (squeeze : bool) : result Example :=
  let rng := match channel_slice with
             | CsStr name =>
                 if String.eqb name "one_random"
                 then Some (get_rng_example example "slice_channel"%string)
                 else None
             | _ => None
             end in
  total <- first_shape_0 (rir example) ;;
  sel <- get_channel_slice default_rng channel_slice (Some total) rng squeeze ;;
  rir_ <- index_channel (rir example) sel ;;
  Ok {| rir := rir_;
        original_source := original_source example;
        offset_original_source := offset_original_source example;
        num_samples_original_source := num_samples_original_source example;
        num_samples_observation := num_samples_observation example;
        speaker_id := speaker_id example;
        log_weights := log_weights example |}.

(** Sample-wise sum of two arrays of one shape; NumPy raises when the shapes
    differ. *)
Fixpoint add_signals (a b : list Qc) : result (list Qc) :=
  match a, b with
  | [], [] => Ok []
  | x :: a', y :: b' => rest <- add_signals a' b' ;; Ok ((x + y)%Qc :: rest)
  | _, _ => Raise ValueError
  end.

Fixpoint add_rows (a b : list (list Qc)) : result (list (list Qc)) :=
  match a, b with
  | [], [] => Ok []
  | x :: a', y :: b' =>
      row <- add_signals x y ;; rest <- add_rows a' b' ;; Ok (row :: rest)
  | _, _ => Raise ValueError
  end.

Definition add_arrays (a b : ndarray) : result ndarray :=
  match a, b with
  | Arr1 x, Arr1 y => v <- add_signals x y ;; Ok (Arr1 v)
  | Arr2 x, Arr2 y => v <- add_rows x y ;; Ok (Arr2 v)
  | _, _ => Raise ValueError
  end.

(** Three lists related position by position. *)
Inductive Forall3 {A B C : Type} (R : A -> B -> C -> Prop)
    : list A -> list B -> list C -> Prop :=
| Forall3_nil : Forall3 R [] [] []
| Forall3_cons : forall x y z l1 l2 l3,
    R x y z -> Forall3 R l1 l2 l3 -> Forall3 R (x :: l1) (y :: l2) (z :: l3).

(** [z] is the sum of the samples [x] and [y]. *)
Definition sample_sum (x y z : Qc) : Prop := (x + y)%Qc = z.

(** [f] is the sample-wise sum of the arrays [e] and [t]. *)
Definition array_sum (e t f : ndarray) : Prop := add_arrays e t = Ok f.

(** ** Concrete impulse responses *)

(** The docstring's [[0, 0, 1, 0.5, 0.1]]. *)
Definition docstring_rir : list Qc :=
  [0%Qc; 0%Qc; 1%Qc; Q2Qc (1 # 2); float_1e_1].



(** ** A two-speaker, two-channel example *)

Definition q (n : Z) (d : positive) : Qc := Q2Qc (n # d).

Definition two_speaker_example : Example :=
  {| rir := Rirs3 [ [ [q 0 1; q 1 1; q 1 2]; [q 0 1; q 0 1; q 1 1] ];
                    [ [q 1 1; q 0 1; q 1 2]; [q 1 2; q 1 1; q 0 1] ] ];
     original_source := [ [q 1 1; q 2 1; q 3 1]; [q 1 1; q (-1) 1] ];
     offset_original_source := [0%Z; 2%Z];
     num_samples_original_source := [3%Z; 2%Z];
     num_samples_observation := 10%Z;
     speaker_id := ["a"%string; "b"%string];
     log_weights := [q 0 1; q 0 1] |}.

(** Stand-ins for the helpers of [anechoic.py]: signals are kept unpadded,
    every speaker is scaled by two, the mixture is the list of images. *)
Definition keep_unpadded (x : list ndarray) (offset target_shape : list Z)
    : result (list ndarray) := Ok x.

Definition scale_by_two (log_weights : list Qc) (x : list ndarray)
    : result (list Qc) := Ok (map (fun _ => q 2 1) x).

Definition keep_images (images : list ndarray) (pad_shape : list Z)
    : result (list ndarray) := Ok images.

End Reverberant.

(* ===================================================================== *)
(** * Properties of the offset sampler *)
(* ===================================================================== *)

Unset Implicit Arguments.

Module SamplerProperties.

Import OverlapSampler.
Local Open Scope Z_scope.

Lemma integers_range (low high v : Z) (g g' : Rng.Generator) :
  Rng.integers low high g = Ok (v, g') -> low <= v < high.
Proof.
  unfold Rng.integers. destruct (low <? high) eqn:E; [|discriminate].
  apply Z.ltb_lt in E. cbn. intros H. injection H as <- _.
  pose proof (Z.mod_pos_bound (Rng.raw g (Rng.cursor g)) (high - low)). lia.
Qed.

Lemma integers_returns (low high : Z) (g : Rng.Generator) :
  low < high -> exists v g', Rng.integers low high g = Ok (v, g').
Proof.
  intros H. unfold Rng.integers. apply Z.ltb_lt in H. rewrite H. cbn. eauto.
Qed.

(** What a sampler that passed [__post_init__] satisfies. *)
Lemma post_init_inv (self : UniformOverlapSampler) :
  __post_init__ self = Ok tt ->
  margin self <= minimum_silence self
  /\ minimum_silence self < maximum_silence self
  /\ soft_minimum_overlap self <= maximum_overlap self
  /\ hard_minimum_overlap self <= maximum_overlap self.
Proof.
  unfold __post_init__, assert_, Py.bind.
  destruct (minimum_silence self >=? margin self) eqn:E1; [|discriminate].
  destruct (minimum_silence self <? maximum_silence self) eqn:E2; [|discriminate].
  destruct (soft_minimum_overlap self <=? maximum_overlap self) eqn:E3; [|discriminate].
  destruct (hard_minimum_overlap self <=? maximum_overlap self) eqn:E4; [|discriminate].
  intros _. lia.
Qed.

Lemma sample_silence_range (self : UniformOverlapSampler) (v : Z) (g g' : Rng.Generator) :
  _sample_silence self g = Ok (v, g') ->
  minimum_silence self <= v < maximum_silence self.
Proof. apply integers_range. Qed.

Lemma sample_silence_returns (self : UniformOverlapSampler) (g : Rng.Generator) :
  __post_init__ self = Ok tt -> exists v g', _sample_silence self g = Ok (v, g').
Proof.
  intros H. apply post_init_inv in H. apply integers_returns. lia.
Qed.

(** With a non-empty overlap range no draw raises, so a candidate shift is
    always produced. *)
Lemma sample_shift_candidate_returns (self : UniformOverlapSampler) (g : Rng.Generator) :
  __post_init__ self = Ok tt ->
  hard_minimum_overlap self < maximum_overlap self ->
  exists v g', _sample_shift self g = Ok (v, g').
Proof.
  intros Hinit Hov. unfold _sample_shift, sbind.
  destruct (Rng.uniform01 g) as [u g1].
  destruct (Qc_leb u (p_silence self)).
  - apply sample_silence_returns; assumption.
  - destruct (integers_returns _ _ g1 Hov) as (o & g2 & Ho).
    unfold _sample_overlap. rewrite Ho. unfold sret. eauto.
Qed.

(** A shift that leaves the loop through [break] passed the test. *)
Lemma rejection_loop_accepts (self : UniformOverlapSampler) (maximum_overlap : Z)
    (attempts : nat) :
  forall (g g' : Rng.Generator) (shift : Z),
    rejection_loop self maximum_overlap attempts g = Ok (Some shift, g') ->
    shift > - maximum_overlap + margin self.
Proof.
  induction attempts as [|n IH]; intros g g' shift; cbn [rejection_loop].
  - unfold sret. discriminate.
  - unfold sbind at 1. destruct (_sample_shift self g) as [[c g1]|]; [|discriminate].
    destruct (c >? - maximum_overlap + margin self) eqn:E.
    + unfold sret. intros H. injection H as -> _. apply Z.gtb_lt in E. lia.
    + apply IH.
Qed.

Lemma rejection_loop_returns (self : UniformOverlapSampler) (maximum_overlap : Z)
    (attempts : nat) :
  __post_init__ self = Ok tt ->
  hard_minimum_overlap self < OverlapSampler.maximum_overlap self ->
  forall g, exists r g', rejection_loop self maximum_overlap attempts g = Ok (r, g').
Proof.
  intros Hinit Hov.
  induction attempts as [|n IH]; intros g; cbn [rejection_loop].
  - unfold sret. eauto.
  - unfold sbind at 1.
    destruct (sample_shift_candidate_returns self g Hinit Hov) as (c & g1 & ->).
    destruct (c >? - maximum_overlap + margin self).
    + unfold sret. eauto.
    + apply IH.
Qed.

(** [sample_offset] is [sample_shift] moved by the latest end. *)
Lemma sample_offset_unfold (self : UniformOverlapSampler) (examples : Examples)
    (latest maximum_overlap : Z) (g : Rng.Generator) :
  latest_speaker_end examples = Ok latest ->
  sample_offset self examples maximum_overlap g =
  match sample_shift self maximum_overlap g with
  | Ok ((shift, warned), g') => Ok ((int64 (latest + shift), warned), g')
  | Raise e => Raise e
  end.
Proof.
  intros H. unfold sample_offset, sbind, slift, sret. rewrite H.
  destruct (sample_shift self maximum_overlap g) as [[[shift warned] g']|]; reflexivity.
Qed.

(** The shift of the branch without overlap: the silence drawn, unchanged by
    the clamp. *)
Lemma shift_no_overlap_spec (self : UniformOverlapSampler) (g : Rng.Generator) :
  __post_init__ self = Ok tt ->
  exists shift g',
    shift_no_overlap self g = Ok (shift, g')
    /\ _sample_silence self g = Ok (shift, g')
    /\ minimum_silence self <= shift < maximum_silence self
    /\ margin self <= shift.
Proof.
  intros Hinit. destruct (sample_silence_returns self g Hinit) as (v & g' & Hv).
  pose proof (sample_silence_range _ _ _ _ Hv) as Hr.
  pose proof (post_init_inv _ Hinit) as Hi.
  exists v, g'. unfold shift_no_overlap, sbind, sret. rewrite Hv.
  repeat split; try lia. f_equal. f_equal. lia.
Qed.

(** C6.  For a sampler that passed [__post_init__], any generator and any
    [maximum_overlap <= hard_minimum_overlap], [sample_offset] returns, without
    a warning, the latest end plus a shift (their [np.int64] sum) where the
    shift lies in [[minimum_silence, maximum_silence)] and is at least
    [margin]. *)
Theorem sample_offset_degenerate_window (self : UniformOverlapSampler)
    (examples : Examples) (latest maximum_overlap : Z) (g : Rng.Generator) :
  __post_init__ self = Ok tt ->
  latest_speaker_end examples = Ok latest ->
  maximum_overlap <= hard_minimum_overlap self ->
  exists shift g',
    sample_offset self examples maximum_overlap g
    = Ok ((int64 (latest + shift), false), g')
    /\ minimum_silence self <= shift < maximum_silence self
    /\ margin self <= shift.
Proof.
  intros Hinit Hlatest Hhard.
  destruct (shift_no_overlap_spec self g Hinit) as (shift & g' & Hs & _ & Hr & Hm).
  exists shift, g'. split; [|split; assumption].
  rewrite (sample_offset_unfold self _ _ maximum_overlap g Hlatest). unfold sample_shift.
  apply Z.leb_le in Hhard. rewrite Hhard. unfold sbind, sret. rewrite Hs. reflexivity.
Qed.

(** C7.  For a sampler that passed [__post_init__], the branch taken when
    [maximum_overlap <= hard_minimum_overlap] and the fallback taken after 100
    rejections are the same function of the generator: same shift, same
    generator state afterwards.  Hence a call of [sample_shift] whose 100
    attempts are all rejected returns what the branch without overlap returns
    on the generator the attempts leave behind; only the warning differs. *)
Theorem shift_fallback_is_shift_no_overlap (self : UniformOverlapSampler)
    (g : Rng.Generator) :
  __post_init__ self = Ok tt ->
  shift_fallback self g = shift_no_overlap self g
  /\ forall maximum_overlap maximum_overlap' g1,
       hard_minimum_overlap self < maximum_overlap ->
       soft_minimum_overlap self < maximum_overlap ->
       maximum_overlap' <= hard_minimum_overlap self ->
       rejection_loop self maximum_overlap 100 g = Ok (None, g1) ->
       sample_shift self maximum_overlap g
       = match sample_shift self maximum_overlap' g1 with
         | Ok ((shift, _), g2) => Ok ((shift, true), g2)
         | Raise e => Raise e
         end.
Proof.
  intros Hinit.
  assert (Hsame : forall g0, shift_fallback self g0 = shift_no_overlap self g0).
  { intros g0.
    destruct (shift_no_overlap_spec self g0 Hinit) as (shift & g' & Hs & Hf & _).
    unfold shift_fallback. rewrite Hs, Hf. reflexivity. }
  split; [apply Hsame|].
  intros maximum_overlap maximum_overlap' g1 Hhard Hsoft Hhard' Hloop.
  unfold sample_shift.
  replace (maximum_overlap <=? hard_minimum_overlap self) with false
    by (symmetry; apply Z.leb_gt; exact Hhard).
  replace (maximum_overlap <=? soft_minimum_overlap self) with false
    by (symmetry; apply Z.leb_gt; exact Hsoft).
  replace (maximum_overlap' <=? hard_minimum_overlap self) with true
    by (symmetry; apply Z.leb_le; exact Hhard').
  unfold sbind, sret. rewrite Hloop, Hsame.
  destruct (shift_no_overlap self g1) as [[shift g2]|]; reflexivity.
Qed.

(** C2, as amended.  For a sampler that passed [__post_init__], any generator,
    and any [maximum_overlap] greater than [soft_minimum_overlap] with
    [margin < minimum_silence + maximum_overlap] (every positive
    [maximum_overlap] qualifies): each offset that [sample_offset] returns
    is the latest end plus the shift sampled (their [np.int64] sum), with
    [shift > -maximum_overlap + margin], the fallback after 100 rejections
    included; and [sample_offset] does return when no overlap is drawn or the
    overlap range is not empty. *)
Theorem sample_offset_respects_overlap_bound (self : UniformOverlapSampler)
    (examples : Examples) (latest maximum_overlap : Z) (g : Rng.Generator) :
  __post_init__ self = Ok tt ->
  latest_speaker_end examples = Ok latest ->
  soft_minimum_overlap self < maximum_overlap ->
  margin self < minimum_silence self + maximum_overlap ->
  (forall offset warned g',
      sample_offset self examples maximum_overlap g = Ok ((offset, warned), g') ->
      exists shift,
        sample_shift self maximum_overlap g = Ok ((shift, warned), g')
        /\ offset = int64 (latest + shift)
        /\ shift > - maximum_overlap + margin self)
  /\ (maximum_overlap <= hard_minimum_overlap self
      \/ hard_minimum_overlap self < OverlapSampler.maximum_overlap self ->
      exists offset warned g',
        sample_offset self examples maximum_overlap g = Ok ((offset, warned), g')).
Proof.
  intros Hinit Hlatest Hsoft Hroom.
  rewrite (sample_offset_unfold self _ _ maximum_overlap g Hlatest). unfold sample_shift.
  destruct (maximum_overlap <=? hard_minimum_overlap self) eqn:Ehard.
  - (* no overlap possible: silence *)
    destruct (shift_no_overlap_spec self g Hinit) as (shift & g1 & Hs & _ & Hr & _).
    unfold sbind, sret. rewrite Hs. split.
    + intros offset warned g' H. injection H as <- <- <-.
      exists shift. split; [reflexivity|]. split; [reflexivity|lia].
    + intros _. eauto.
  - apply Z.leb_gt in Ehard.
    assert (Esoft : (maximum_overlap <=? soft_minimum_overlap self) = false)
      by (apply Z.leb_gt; lia).
    rewrite Esoft. unfold sbind, sret. split.
    + intros offset warned g'.
      destruct (rejection_loop self maximum_overlap 100 g) as [[[shift|] g1]|] eqn:Eloop;
        [| |discriminate].
      * intros H. injection H as <- <- <-.
        apply rejection_loop_accepts in Eloop.
        exists shift. split; [reflexivity|]. split; [reflexivity|lia].
      * unfold shift_fallback.
        destruct (_sample_silence self g1) as [[shift g2]|] eqn:Es; [|discriminate].
        intros H. injection H as <- <- <-.
        apply sample_silence_range in Es.
        exists shift. split; [reflexivity|]. split; [reflexivity|lia].
    + intros [H|Hov]; [lia|].
      destruct (rejection_loop_returns self maximum_overlap 100 Hinit Hov g) as (r & g1 & ->).
      destruct r as [shift|].
      * eauto.
      * unfold shift_fallback.
        destruct (sample_silence_returns self g1 Hinit) as (v & g2 & ->).
        eauto.
Qed.

Lemma sample_offset_degenerate_window_witness :
  exists shift g',
    sample_offset meeting_sampler two_turns 3 counting_generator
      = Ok ((int64 (30 + shift), false), g')
    /\ minimum_silence meeting_sampler <= shift < maximum_silence meeting_sampler
    /\ margin meeting_sampler <= shift.
Proof.
  apply (sample_offset_degenerate_window meeting_sampler two_turns 30 3 counting_generator).
  - reflexivity.
  - reflexivity.
  - simpl. lia.
Defined.

Lemma shift_fallback_is_shift_no_overlap_witness :
  shift_fallback meeting_sampler stubborn_generator
  = shift_no_overlap meeting_sampler stubborn_generator
  /\ forall maximum_overlap maximum_overlap' g1,
       hard_minimum_overlap meeting_sampler < maximum_overlap ->
       soft_minimum_overlap meeting_sampler < maximum_overlap ->
       maximum_overlap' <= hard_minimum_overlap meeting_sampler ->
       rejection_loop meeting_sampler maximum_overlap 100 stubborn_generator
         = Ok (None, g1) ->
       sample_shift meeting_sampler maximum_overlap stubborn_generator
       = match sample_shift meeting_sampler maximum_overlap' g1 with
         | Ok ((shift, _), g2) => Ok ((shift, true), g2)
         | Raise e => Raise e
         end.
Proof.
  apply (shift_fallback_is_shift_no_overlap meeting_sampler stubborn_generator).
  reflexivity.
Defined.

Lemma sample_offset_respects_overlap_bound_witness :
  (forall offset warned g',
      sample_offset meeting_sampler two_turns 50 counting_generator
        = Ok ((offset, warned), g') ->
      exists shift,
        sample_shift meeting_sampler 50 counting_generator = Ok ((shift, warned), g')
        /\ offset = int64 (30 + shift)
        /\ shift > - 50 + margin meeting_sampler)
  /\ (50 <= hard_minimum_overlap meeting_sampler
      \/ hard_minimum_overlap meeting_sampler < maximum_overlap meeting_sampler ->
      exists offset warned g',
        sample_offset meeting_sampler two_turns 50 counting_generator
          = Ok ((offset, warned), g')).
Proof.
  apply (sample_offset_respects_overlap_bound meeting_sampler two_turns 30 50
           counting_generator).
  - reflexivity.
  - reflexivity.
  - simpl. lia.
  - simpl. lia.
Defined.

(** A run in which all 100 attempts are rejected: the fallback draws the
    silence 2, the warning is issued, and the bound holds. *)
Example sample_offset_fallback_run :
  exists g',
    rejection_loop meeting_sampler 50 100 stubborn_generator = Ok (None, g')
    /\ Rng.cursor g' = 200%nat
    /\ exists g'',
         sample_offset meeting_sampler two_turns 50 stubborn_generator
           = Ok ((30 + 2, true), g'')
         /\ 2 > - 50 + margin meeting_sampler.
Proof.
  eexists. split; [vm_compute; reflexivity|]. split; [reflexivity|].
  eexists. split; [vm_compute; reflexivity|]. simpl. lia.
Qed.

(** C2 as stated fails.  [tight_sampler] passes [__post_init__], and
    [maximum_overlap = 0] is strictly greater than its
    [soft_minimum_overlap = -1]; on every generator [sample_offset] returns
    the latest end 30 itself, that is shift 0, which is not greater than
    [-maximum_overlap + margin = 0]. *)
Lemma sample_offset_zero_overlap_violates_bound :
  __post_init__ tight_sampler = Ok tt
  /\ soft_minimum_overlap tight_sampler < 0
  /\ latest_speaker_end two_turns = Ok 30
  /\ (forall g, exists g',
        sample_offset tight_sampler two_turns 0 g = Ok ((30 + 0, false), g'))
  /\ ~ (30 + 0 - 30 > - 0 + margin tight_sampler).
Proof.
  split; [reflexivity|]. split; [simpl; lia|]. split; [reflexivity|]. split.
  - intros g. eexists.
    rewrite (sample_offset_unfold tight_sampler two_turns 30 0 g eq_refl).
    unfold sample_shift, shift_no_overlap, _sample_silence, sbind, sret, Rng.integers.
    cbn. rewrite Z.mod_1_r. reflexivity.
  - simpl. lia.
Qed.

End SamplerProperties.

(* ===================================================================== *)
(** * Properties of the channel selection and of the onset detection *)
(* ===================================================================== *)

Module OnsetProperties.

Import Reverberant.

Lemma Qc_gtb_true (x y : Qc) : Qc_gtb x y = true <-> (y < x)%Qc.
Proof.
  unfold Qc_gtb. rewrite negb_true_iff. split.
  - intros H. apply Qcnot_le_lt. intros Hle.
    apply Qle_bool_iff in Hle. congruence.
  - intros H. destruct (Qle_bool x y) eqn:E; [|reflexivity].
    apply Qle_bool_iff in E. exfalso. exact (Qclt_not_le _ _ H E).
Qed.

Lemma Qc_gtb_false (x y : Qc) : Qc_gtb x y = false <-> (x <= y)%Qc.
Proof.
  unfold Qc_gtb. rewrite negb_false_iff. apply Qle_bool_iff.
Qed.

Lemma Qc_ltb_true (x y : Qc) : Qc_ltb x y = true <-> (x < y)%Qc.
Proof. apply Qc_gtb_true. Qed.

(** [argmax_from] returns a position of the largest element: [pre] is the
    part of the array already scanned, [best] its largest element. *)
Lemma argmax_from_max (l : list Qc) :
  forall (pre : list Qc) (best : Qc) (best_index : nat),
    (best_index < length pre)%nat ->
    nth best_index pre 0%Qc = best ->
    (forall x, In x pre -> (x <= best)%Qc) ->
    let p := argmax_from best best_index (length pre) l in
    (p < length (pre ++ l))%nat
    /\ forall x, In x (pre ++ l) -> (x <= nth p (pre ++ l) 0%Qc)%Qc.
Proof.
  induction l as [|y l IH]; intros pre best bi Hbi Hbest Hmax; cbn [argmax_from].
  - rewrite app_nil_r. split; [assumption|]. rewrite Hbest. assumption.
  - replace (pre ++ y :: l) with ((pre ++ [y]) ++ l) by (rewrite <- app_assoc; reflexivity).
    replace (S (length pre)) with (length (pre ++ [y])) by (rewrite length_app; simpl; lia).
    destruct (Qc_gtb y best) eqn:E.
    + apply Qc_gtb_true in E. apply IH.
      * rewrite length_app. simpl. lia.
      * rewrite app_nth2 by lia. rewrite Nat.sub_diag. reflexivity.
      * intros x Hx. apply in_app_or in Hx. destruct Hx as [Hx|[<-|[]]].
        -- apply Qclt_le_weak. eapply Qcle_lt_trans; [apply Hmax, Hx|exact E].
        -- apply Qcle_refl.
    + apply Qc_gtb_false in E. apply IH.
      * rewrite length_app. simpl. lia.
      * rewrite app_nth1 by lia. assumption.
      * intros x Hx. apply in_app_or in Hx. destruct Hx as [Hx|[<-|[]]].
        -- apply Hmax, Hx.
        -- exact E.
Qed.

Lemma np_argmax_max (l : list Qc) :
  l <> [] ->
  exists p, np_argmax l = Ok p
            /\ (p < length l)%nat
            /\ forall x, In x l -> (x <= nth p l 0%Qc)%Qc.
Proof.
  destruct l as [|x l]; [congruence|]. intros _.
  exists (argmax_from x 0 1 l). split; [reflexivity|].
  apply (argmax_from_max l [x] x 0).
  - simpl. lia.
  - reflexivity.
  - intros z [<-|[]]. apply Qcle_refl.
Qed.

Lemma first_true_some (l : list bool) (i : nat) :
  first_true l = Some i ->
  nth i l false = true /\ forall j, (j < i)%nat -> nth j l false = false.
Proof.
  revert i. induction l as [|b l IH]; intros i; cbn [first_true].
  - discriminate.
  - destruct b.
    + intros H. injection H as <-. split; [reflexivity|]. intros j Hj. lia.
    + destruct (first_true l) as [k|]; [|discriminate].
      cbn. intros H. injection H as <-. destruct (IH k eq_refl) as [Hk Hlt].
      split; [exact Hk|]. intros [|j] Hj; [reflexivity|]. apply Hlt. lia.
Qed.

Lemma first_true_none (l : list bool) (i : nat) :
  first_true l = None -> nth i l false = false.
Proof.
  revert i. induction l as [|b l IH]; intros i; cbn [first_true].
  - destruct i; reflexivity.
  - destruct b; [discriminate|]. destruct (first_true l); [discriminate|].
    intros _. destruct i; [reflexivity|]. apply IH. reflexivity.
Qed.

Lemma getitem_nth {A : Type} (l : list A) (i : nat) (d : A) :
  (i < length l)%nat -> getitem l (Z.of_nat i) = Ok (nth i l d).
Proof.
  intros H. unfold getitem.
  replace (Z.of_nat i <? 0)%Z with false by (symmetry; apply Z.ltb_ge; lia).
  replace (0 <=? Z.of_nat i)%Z with true by (symmetry; apply Z.leb_le; lia).
  replace (Z.of_nat i <? Z.of_nat (length l))%Z with true
    by (symmetry; apply Z.ltb_lt; lia).
  cbn. rewrite Nat2Z.id. rewrite (nth_error_nth' l d H). reflexivity.
Qed.

Lemma nth_firstn_lt {A : Type} (l : list A) (n i : nat) (d : A) :
  (i < n)%nat -> nth i (firstn n l) d = nth i l d.
Proof.
  revert n i. induction l as [|x l IH]; intros n i H.
  - rewrite firstn_nil. reflexivity.
  - destruct n; [lia|]. destruct i; [reflexivity|]. cbn. apply IH. lia.
Qed.

Lemma slice_to_succ {A : Type} (l : list A) (i : nat) :
  (i < length l)%nat -> slice_to l (Z.of_nat i + 1) = firstn (S i) l.
Proof.
  intros H. unfold slice_to, slice_bound.
  replace (Z.of_nat i + 1 <? 0)%Z with false by (symmetry; apply Z.ltb_ge; lia).
  f_equal. lia.
Qed.

Lemma Qcabs_pos_of_nonzero (x : Qc) : x <> 0%Qc -> (0 < Qcabs x)%Qc.
Proof.
  intros Hx. destruct (Qcle_lt_or_eq _ _ (Qcabs_nonneg x)) as [H|H]; [exact H|].
  exfalso. apply Hx. apply Qcabs_null. symmetry. exact H.
Qed.

(** ** Rounding keeps the sign *)






Lemma float_mul_0_r (x : Qc) : float_mul x 0%Qc = 0%Qc.
Proof. unfold float_mul. rewrite Qcmult_0_r. reflexivity. Qed.

Lemma nth_true_lt (l : list bool) (i : nat) : nth i l false = true -> (i < length l)%nat.
Proof.
  intros H. destruct (Nat.lt_ge_cases i (length l)) as [Hlt|Hge]; [exact Hlt|].
  rewrite nth_overflow in H by exact Hge. discriminate.
Qed.

(** The 1-D body on a non-empty impulse response.  [threshold] is the
    rounded product that line 249 compares with. *)
Lemma rir_start_sample_1d_spec (level_ratio : Qc) (h : list Qc) :
  h <> [] ->
  exists peak onset,
    np_argmax (map Qcabs h) = Ok peak
    /\ rir_start_sample_1d level_ratio h = Ok onset
    /\ (forall x, In x h -> (Qcabs x <= Qcabs (nth peak h 0%Qc))%Qc)
    /\ (onset <= peak < length h)%nat
    /\ let threshold := float_mul level_ratio (Qcabs (nth peak h 0%Qc)) in
       (forall j, (j < onset)%nat -> ~ (threshold < Qcabs (nth j h 0%Qc))%Qc)
       /\ ((threshold < Qcabs (nth peak h 0%Qc))%Qc ->
           (threshold < Qcabs (nth onset h 0%Qc))%Qc)
       /\ (~ (threshold < Qcabs (nth peak h 0%Qc))%Qc -> onset = 0%nat).
Proof.
  intros Hh.
  assert (Hne : map Qcabs h <> []) by (destruct h; [congruence|discriminate]).
  destruct (np_argmax_max (map Qcabs h) Hne) as (peak & Hpeak & Hlen & Hmax).
  rewrite length_map in Hlen.
  assert (Habs : forall i, nth i (map Qcabs h) 0%Qc = Qcabs (nth i h 0%Qc)).
  { intros i. rewrite <- (Qcabs_pos 0%Qc (Qcle_refl _)) at 1. apply map_nth. }
  rewrite Habs in Hmax.
  assert (Hmax' : forall x, In x h -> (Qcabs x <= Qcabs (nth peak h 0%Qc))%Qc).
  { intros x Hx. apply Hmax. apply in_map. exact Hx. }
  set (m := Qcabs (nth peak h 0%Qc)) in *.
  set (above := fun a : Qc => Qc_gtb a (float_mul level_ratio m)).
  set (larger := map above (firstn (S peak) (map Qcabs h))).
  assert (Hrun : rir_start_sample_1d level_ratio h = np_argmax_bool larger).
  { unfold rir_start_sample_1d. rewrite Hpeak. cbn [Py.bind].
    rewrite (getitem_nth (map Qcabs h) peak 0%Qc) by (rewrite length_map; exact Hlen).
    cbn [Py.bind]. rewrite Habs. fold m.
    rewrite slice_to_succ by (rewrite length_map; exact Hlen). reflexivity. }
  assert (Hlarger_len : length larger = S peak).
  { unfold larger. rewrite length_map, length_firstn, length_map. lia. }
  assert (Hnth : forall j, (j <= peak)%nat ->
                           nth j larger false = above (Qcabs (nth j h 0%Qc))).
  { intros j Hj. unfold larger.
    rewrite (nth_indep _ false (above 0%Qc))
      by (rewrite length_map, length_firstn, length_map; lia).
    rewrite map_nth. f_equal.
    rewrite nth_firstn_lt by lia. apply Habs. }
  assert (Hlarger_ne : larger <> []).
  { intros E. rewrite E in Hlarger_len. discriminate. }
  destruct (first_true larger) as [onset|] eqn:Efirst.
  - destruct (first_true_some larger onset Efirst) as [Hon Hbefore].
    assert (Hle : (onset <= peak)%nat).
    { apply nth_true_lt in Hon. lia. }
    assert (Habove : (float_mul level_ratio m < Qcabs (nth onset h 0%Qc))%Qc).
    { rewrite Hnth in Hon by exact Hle. apply Qc_gtb_true. exact Hon. }
    exists peak, onset. split; [exact Hpeak|]. split.
    { rewrite Hrun. unfold np_argmax_bool. rewrite Efirst.
      destruct larger; [congruence|reflexivity]. }
    split; [exact Hmax'|]. split; [lia|]. cbv zeta. split; [|split].
    + intros j Hj Hj_above. pose proof (Hbefore j Hj) as Hf.
      rewrite Hnth in Hf by lia. apply Qc_gtb_false in Hf.
      exact (Qclt_not_le _ _ Hj_above Hf).
    + intros _. exact Habove.
    + intros Hnot. exfalso. apply Hnot.
      eapply Qclt_le_trans; [exact Habove|].
      apply Hmax'. apply nth_In. lia.
  - exists peak, 0%nat. split; [exact Hpeak|]. split.
    { rewrite Hrun. unfold np_argmax_bool. rewrite Efirst.
      destruct larger; [congruence|reflexivity]. }
    split; [exact Hmax'|]. split; [lia|]. cbv zeta. split; [|split].
    + intros j Hj. lia.
    + intros Hpeak_above. exfalso.
      pose proof (first_true_none larger peak Efirst) as Hf.
      rewrite Hnth in Hf by lia. apply Qc_gtb_false in Hf.
      exact (Qclt_not_le _ _ Hpeak_above Hf).
    + intros _. reflexivity.
Qed.




(** C10.  On an array with a channel dimension and 20 or more rows,
    [get_rir_start_sample] fails an assertion, whatever the samples and
    [level_ratio] are. *)
Theorem get_rir_start_sample_channel_limit (level_ratio : Qc)
    (rows : list (list Qc)) :
  (20 <= length rows)%nat ->
  get_rir_start_sample level_ratio (Arr2 rows) = Raise AssertionError.
Proof.
  intros H. unfold get_rir_start_sample, assert_.
  destruct (Qc_ltb level_ratio 1%Qc); [|reflexivity]. cbn [Py.bind].
  replace (length rows <? 20)%nat with false
    by (symmetry; apply Nat.ltb_ge; exact H).
  reflexivity.
Qed.

Lemma get_rir_start_sample_channel_limit_witness :
  get_rir_start_sample float_1e_1 (Arr2 (repeat docstring_rir 20))
  = Raise AssertionError.
Proof.
  apply (get_rir_start_sample_channel_limit float_1e_1 (repeat docstring_rir 20)).
  simpl. lia.
Defined.

(** ** get_channel_slice with ['one_random'] *)

(** C1, as amended.  With [channel_slice='one_random']: without
    [total_num_channels] the call raises [ValueError], whether or not a
    generator is passed; with [total_num_channels] and without [rng] it does
    what it does when the generator of [np.random.default_rng()] is passed,
    and for a positive channel count that is to return a channel of
    [[0, total_num_channels)], not to raise. *)
Theorem get_channel_slice_one_random :
  (forall default_rng rng squeeze,
      get_channel_slice default_rng (CsStr "one_random") None rng squeeze
      = Raise ValueError)
  /\ (forall default_rng total squeeze,
        get_channel_slice default_rng (CsStr "one_random") (Some total) None squeeze
        = get_channel_slice default_rng (CsStr "one_random") (Some total)
            (Some default_rng) squeeze)
  /\ (forall default_rng total squeeze,
        (0 < total)%Z ->
        exists channel,
          (0 <= channel < total)%Z
          /\ get_channel_slice default_rng (CsStr "one_random") (Some total) None squeeze
             = Ok (if squeeze then SelIndex channel
                   else SelSlice {| start := Some channel;
                                    stop := Some (channel + 1)%Z |})).
Proof.
  split; [reflexivity|]. split; [reflexivity|].
  intros default_rng total squeeze Htotal.
  destruct (SamplerProperties.integers_returns 0 total default_rng Htotal)
    as (channel & g' & Hdraw).
  exists channel. split.
  - exact (SamplerProperties.integers_range 0 total channel default_rng g' Hdraw).
  - cbn. rewrite Hdraw. cbn. destruct squeeze; reflexivity.
Qed.

Lemma get_channel_slice_one_random_witness :
  exists channel,
    (0 <= channel < 4)%Z
    /\ get_channel_slice OverlapSampler.counting_generator (CsStr "one_random")
         (Some 4%Z) None false
       = Ok (SelSlice {| start := Some channel; stop := Some (channel + 1)%Z |}).
Proof.
  apply (proj2 (proj2 get_channel_slice_one_random)
           OverlapSampler.counting_generator 4%Z false).
  reflexivity.
Defined.

(** C1 as stated fails: with a channel count and no [rng] the call does not
    raise; it returns a channel drawn from the default generator, so two
    default generators give two answers to the same call. *)
Lemma get_channel_slice_uses_default_rng :
  get_channel_slice (Rng.mkGenerator (fun _ => 3%Z) 0) (CsStr "one_random")
    (Some 4%Z) None false
  = Ok (SelSlice {| start := Some 3%Z; stop := Some 4%Z |})
  /\ get_channel_slice (Rng.mkGenerator (fun _ => 1%Z) 0) (CsStr "one_random")
       (Some 4%Z) None false
     = Ok (SelSlice {| start := Some 1%Z; stop := Some 2%Z |}).
Proof. split; reflexivity. Qed.

End OnsetProperties.

(* ===================================================================== *)
(** * Properties of the synthesis: early and tail parts add up *)
(* ===================================================================== *)

Module SynthesisProperties.

Import Reverberant.

Lemma bind_ok {A B : Type} (r : result A) (k : A -> result B) (v : B) :
  Py.bind r k = Ok v -> exists a, r = Ok a /\ k a = Ok v.
Proof.
  destruct r as [a|e]; cbn; [eauto|discriminate].
Qed.

(** Splits a hypothesis [H : bind r k = Ok v] into the result of [r] and the
    continuation. *)
Tactic Notation "bind_inv" hyp(H) ident(a) ident(Ha) :=
  apply bind_ok in H; destruct H as (a & Ha & H).

Lemma Forall3_length {A B C : Type} (R : A -> B -> C -> Prop) l1 l2 l3 :
  Forall3 R l1 l2 l3 -> length l1 = length l3 /\ length l2 = length l3.
Proof.
  induction 1 as [|x y z l1 l2 l3 _ _ [IH1 IH2]]; cbn; [split; reflexivity|lia].
Qed.


Lemma Forall3_impl {A B C : Type} (R R' : A -> B -> C -> Prop) l1 l2 l3 :
  (forall x y z, R x y z -> R' x y z) -> Forall3 R l1 l2 l3 -> Forall3 R' l1 l2 l3.
Proof.
  intros HR. induction 1; constructor; auto.
Qed.

(** ** Sums of signals *)

Lemma add_signals_iff (a b c : list Qc) :
  add_signals a b = Ok c <-> Forall3 sample_sum a b c.
Proof.
  split.
  - revert b c. induction a as [|x a IH]; intros [|y b] c; cbn; try discriminate.
    + intros [= <-]. constructor.
    + intros H. bind_inv H rest Hrest. injection H as <-.
      constructor; [reflexivity|apply IH; exact Hrest].
  - induction 1 as [|x y z a b c Hxyz _ IH]; cbn; [reflexivity|].
    rewrite IH. cbn. unfold sample_sum in Hxyz. rewrite Hxyz. reflexivity.
Qed.

Lemma add_rows_iff (a b c : list (list Qc)) :
  add_rows a b = Ok c <-> Forall3 (Forall3 sample_sum) a b c.
Proof.
  split.
  - revert b c. induction a as [|x a IH]; intros [|y b] c; cbn; try discriminate.
    + intros [= <-]. constructor.
    + intros H. bind_inv H row Hrow. bind_inv H rest Hrest. injection H as <-.
      constructor; [apply add_signals_iff; exact Hrow|apply IH; exact Hrest].
  - induction 1 as [|x y z a b c Hxyz _ IH]; cbn; [reflexivity|].
    apply add_signals_iff in Hxyz. rewrite Hxyz. cbn. rewrite IH. reflexivity.
Qed.

Lemma sum_zeros_l (row : list Qc) :
  Forall3 sample_sum (repeat 0%Qc (length row)) row row.
Proof.
  induction row as [|x row IH]; cbn; constructor; [|exact IH].
  unfold sample_sum. ring.
Qed.

Lemma sum_zeros_r (row : list Qc) :
  Forall3 sample_sum row (repeat 0%Qc (length row)) row.
Proof.
  induction row as [|x row IH]; cbn; constructor; [|exact IH].
  unfold sample_sum. ring.
Qed.

Lemma slice_bound_le (len : nat) (i : Z) : (slice_bound len i <= len)%nat.
Proof.
  unfold slice_bound. destruct (i <? 0)%Z eqn:E; [|lia].
  apply Z.ltb_lt in E. lia.
Qed.

(** The two masks of a row split it: what one zeroes the other keeps. *)
Lemma sum_split_at (row : list Qc) :
  forall c, (c <= length row)%nat ->
    Forall3 sample_sum
      (firstn c row ++ repeat 0%Qc (length row - c))
      (repeat 0%Qc (Nat.min c (length row)) ++ skipn c row)
      row.
Proof.
  induction row as [|x row IH]; intros c Hc.
  - destruct c; cbn; constructor.
  - destruct c as [|c].
    + cbn [firstn skipn Nat.min repeat app Nat.sub length].
      apply (sum_zeros_l (x :: row)).
    + cbn [firstn skipn Nat.min repeat app Nat.sub length]. cbn in Hc.
      constructor; [unfold sample_sum; ring|]. apply IH. lia.
Qed.

Lemma zero_from_zero_until (row : list Qc) (stop_sample : Z) :
  Forall3 sample_sum (zero_from row stop_sample) (zero_until row stop_sample) row.
Proof.
  unfold zero_from, zero_until. apply sum_split_at. apply slice_bound_le.
Qed.

(** ** Convolution is additive in the impulse response *)






(** ** Sums of arrays *)

Lemma array_sum_arr1 (a b c : list Qc) :
  Forall3 sample_sum a b c -> array_sum (Arr1 a) (Arr1 b) (Arr1 c).
Proof.
  intros H. unfold array_sum. cbn. apply add_signals_iff in H. rewrite H. reflexivity.
Qed.

Lemma array_sum_arr2 (a b c : list (list Qc)) :
  Forall3 (Forall3 sample_sum) a b c -> array_sum (Arr2 a) (Arr2 b) (Arr2 c).
Proof.
  intros H. unfold array_sum. cbn. apply add_rows_iff in H. rewrite H. reflexivity.
Qed.


Lemma Forall3_map {A B C A' B' C' : Type} (R : A -> B -> C -> Prop)
    (R' : A' -> B' -> C' -> Prop) (f1 : A -> A') (f2 : B -> B') (f3 : C -> C')
    l1 l2 l3 :
  (forall x y z, R x y z -> R' (f1 x) (f2 y) (f3 z)) ->
  Forall3 R l1 l2 l3 -> Forall3 R' (map f1 l1) (map f2 l2) (map f3 l3).
Proof.
  intros HR. induction 1; cbn; constructor; auto.
Qed.

(** ** The masked impulse responses add up to the impulse response *)

Lemma mask_rows_sum {A : Type} (R : A -> A -> A -> Prop) (m1 m2 : A -> Z -> A) :
  (forall x stop_sample, R (m1 x stop_sample) (m2 x stop_sample) x) ->
  forall h stops h1 h2,
    mask_rows m1 h stops = Ok h1 -> mask_rows m2 h stops = Ok h2 ->
    Forall3 R h1 h2 h.
Proof.
  intros HR. induction h as [|x h IH]; intros stops h1 h2; cbn.
  - intros [= <-] [= <-]. constructor.
  - destruct stops as [|st stops]; [discriminate|].
    intros H1 H2. bind_inv H1 r1 Hr1. bind_inv H2 r2 Hr2.
    injection H1 as <-. injection H2 as <-.
    constructor; [apply HR|]. exact (IH stops r1 r2 Hr1 Hr2).
Qed.

Lemma mask_rirs_sum (h h_early h_tail : rirs) (stops : list Z) :
  mask_rirs zero_from h stops = Ok h_early ->
  mask_rirs zero_until h stops = Ok h_tail ->
  Forall3 array_sum (rirs_rows h_early) (rirs_rows h_tail) (rirs_rows h).
Proof.
  destruct h as [rows|hs]; cbn; intros H1 H2.
  - bind_inv H1 r1 Hr1. bind_inv H2 r2 Hr2. injection H1 as <-. injection H2 as <-.
    cbn. apply (Forall3_map (Forall3 sample_sum)); [apply array_sum_arr1|].
    apply (mask_rows_sum _ zero_from zero_until zero_from_zero_until rows stops);
      assumption.
  - bind_inv H1 r1 Hr1. bind_inv H2 r2 Hr2. injection H1 as <-. injection H2 as <-.
    cbn. apply (Forall3_map (Forall3 (Forall3 sample_sum))); [apply array_sum_arr2|].
    refine (mask_rows_sum _ _ _ _ hs stops r1 r2 Hr1 Hr2).
    intros h_i stop_sample. induction h_i as [|row h_i IH]; cbn; constructor.
    + apply zero_from_zero_until.
    + exact IH.
Qed.

(** ** Convolving the parts and adding gives the convolution of the whole *)





(** ** Scaling *)



Lemma assert_ok (b : bool) (u : unit) : assert_ b = Ok u -> b = true.
Proof. destruct b; [reflexivity|discriminate]. Qed.

Lemma for_each_Forall2 {A B : Type} (f : A -> result B) (l : list A) :
  forall ys, for_each f l = Ok ys -> Forall2 (fun x y => f x = Ok y) l ys.
Proof.
  induction l as [|x l IH]; intros ys H; cbn in H.
  - injection H as <-. constructor.
  - bind_inv H y Hy. bind_inv H ys' Hys. injection H as <-.
    constructor; [exact Hy|exact (IH ys' Hys)].
Qed.

Lemma for_each_assert_combine {A B : Type} (P : A -> B -> bool) (a : list A) :
  forall (b : list B) us,
    length a = length b ->
    for_each (fun p => assert_ (P (fst p) (snd p))) (combine a b) = Ok us ->
    Forall2 (fun x y => P x y = true) a b.
Proof.
  induction a as [|x a IH]; intros [|y b] us Hlen H; try discriminate; [constructor|].
  cbn in H. bind_inv H u Hu. bind_inv H us' Hus. constructor.
  - exact (assert_ok _ _ Hu).
  - apply (IH b us'); [cbn in Hlen; lia|exact Hus].
Qed.

(** What the assertions of [get_convolved_signals] establish. *)
Lemma get_convolved_signals_inv (example : Example) (s : list (list Qc))
    (rir_offset : list Z) (rir_length : Z) (h : rirs) (x : list ndarray) :
  get_convolved_signals example s rir_offset rir_length h = Ok x ->
  length s = length (rirs_rows h)
  /\ length x = length s
  /\ length x = length (num_samples_original_source example)
  /\ Forall2 (fun x_ T_ => last_dim x_ = (T_ + rir_length - 1)%Z)
       x (num_samples_original_source example)
  /\ length rir_offset = length x
  /\ length rir_offset = length (speaker_id example).
Proof.
  unfold get_convolved_signals. intros H.
  bind_inv H u1 H1. bind_inv H x' Hx. bind_inv H u2 H2. bind_inv H u3 H3.
  bind_inv H u4 H4. injection H as <-.
  apply assert_ok in H1, H2, H4.
  apply Nat.eqb_eq in H1, H2. apply andb_prop in H4 as [H4 H5].
  apply Nat.eqb_eq in H4, H5.
  pose proof (Forall2_length (for_each_Forall2 _ _ _ Hx)) as Hlen.
  rewrite length_combine in Hlen.
  split; [exact H1|]. split; [lia|]. split; [exact H2|]. split; [|lia].
  pose proof (for_each_assert_combine
                (fun x_ T_ => (last_dim x_ =? T_ + rir_length - 1)%Z)
                x' (num_samples_original_source example) u3 H2 H3) as Hall.
  eapply Forall2_impl; [|exact Hall]. cbn. intros a b Hab. apply Z.eqb_eq, Hab.
Qed.

(** ** Entry by entry *)






End SynthesisProperties.

(* ===================================================================== *)
(** * Properties of get_allowed_max_overlap *)
(* ===================================================================== *)

Module OverlapProperties.

Import OverlapSampler.
Local Open Scope Z_scope.

(** ** Lists: positions, sorted lists, largest elements *)

Lemma nth_skipn_add {A : Type} (l : list A) (k j : nat) (d : A) :
  nth j (skipn k l) d = nth (k + j) l d.
Proof.
  revert l. induction k as [|k IH]; intros l; [reflexivity|].
  destruct l as [|x l]; [destruct j; reflexivity|]. cbn. apply IH.
Qed.

Lemma map_nth_seq {A : Type} (l : list A) (d : A) :
  map (fun i => nth i l d) (seq 0 (length l)) = l.
Proof.
  apply (nth_ext _ _ d d).
  - rewrite length_map, length_seq. reflexivity.
  - intros i Hi. rewrite length_map, length_seq in Hi.
    rewrite (nth_indep _ d (nth 0%nat l d)) by (rewrite length_map, length_seq; exact Hi).
    rewrite (map_nth (fun i => nth i l d) (seq 0 (length l)) 0%nat i).
    rewrite seq_nth by exact Hi. reflexivity.
Qed.

Lemma sorted_nth_mono (l : list Z) :
  Sorted Z.le l ->
  forall i j, (i <= j < length l)%nat -> nth i l 0 <= nth j l 0.
Proof.
  intros Hs. apply Sorted_StronglySorted in Hs; [|intros x y z; apply Z.le_trans].
  induction Hs as [|x l Hs IH Hall]; intros i j Hij; [cbn in Hij; lia|].
  destruct j as [|j]; [replace i with 0%nat by lia; lia|].
  destruct i as [|i]; cbn.
  - rewrite Forall_forall in Hall. apply Hall. apply nth_In. cbn in Hij. lia.
  - apply IH. cbn in Hij. lia.
Qed.

(** A sorted list is determined by its elements. *)
Lemma sorted_permutation_unique (l1 l2 : list Z) :
  Sorted Z.le l1 -> Sorted Z.le l2 -> Permutation l1 l2 -> l1 = l2.
Proof.
  intros H1 H2.
  apply Sorted_StronglySorted in H1; [|intros x y z; apply Z.le_trans].
  apply Sorted_StronglySorted in H2; [|intros x y z; apply Z.le_trans].
  revert l2 H2. induction H1 as [|x l1 Hs1 IH Hall1]; intros l2 H2 Hp.
  - apply Permutation_nil in Hp. subst. reflexivity.
  - destruct H2 as [|y l2 Hs2 Hall2].
    + apply Permutation_sym, Permutation_nil in Hp. discriminate.
    + rewrite Forall_forall in Hall1, Hall2.
      assert (Hxy : x = y).
      { assert (Hx : In x (y :: l2)) by (eapply Permutation_in; [exact Hp|left; reflexivity]).
        assert (Hy : In y (x :: l1))
          by (eapply Permutation_in; [apply Permutation_sym; exact Hp|left; reflexivity]).
        destruct Hx as [Hx|Hx]; [congruence|].
        destruct Hy as [Hy|Hy]; [congruence|].
        apply Z.le_antisymm; [apply Hall1, Hy|apply Hall2, Hx]. }
      subst y. f_equal. apply IH; [exact Hs2|].
      eapply Permutation_cons_inv. exact Hp.
Qed.

Lemma fold_max_ge_base (base : Z) (l : list Z) : base <= fold_right Z.max base l.
Proof. induction l as [|x l IH]; cbn; lia. Qed.

Lemma fold_max_ge_elem (base : Z) (l : list Z) (x : Z) :
  In x l -> x <= fold_right Z.max base l.
Proof.
  induction l as [|y l IH]; cbn; [tauto|]. intros [->|H]; [lia|]. specialize (IH H). lia.
Qed.

Lemma fold_max_le (base : Z) (l : list Z) (bound : Z) :
  base <= bound -> (forall x, In x l -> x <= bound) -> fold_right Z.max base l <= bound.
Proof.
  intros Hb. induction l as [|y l IH]; cbn; intros Hl; [exact Hb|].
  apply Z.max_lub; [apply Hl; left; reflexivity|]. apply IH. intros x Hx. apply Hl. right. exact Hx.
Qed.

Lemma fold_max_mono (base base' : Z) (l : list Z) :
  base <= base' -> fold_right Z.max base l <= fold_right Z.max base' l.
Proof. intros H. induction l as [|x l IH]; cbn; lia. Qed.

(** ** Python positions *)

Lemma getitem_from_end {A : Type} (l : list A) (k : nat) (d : A) :
  (1 <= k <= length l)%nat ->
  getitem l (- Z.of_nat k) = Ok (nth (length l - k) l d).
Proof.
  intros H. unfold getitem.
  replace (- Z.of_nat k <? 0) with true by (symmetry; apply Z.ltb_lt; lia).
  replace (0 <=? Z.of_nat (length l) + - Z.of_nat k) with true
    by (symmetry; apply Z.leb_le; lia).
  replace (Z.of_nat (length l) + - Z.of_nat k <? Z.of_nat (length l)) with true
    by (symmetry; apply Z.ltb_lt; lia).
  cbn [andb].
  replace (Z.to_nat (Z.of_nat (length l) + - Z.of_nat k)) with (length l - k)%nat by lia.
  rewrite (nth_error_nth' l d) by lia. reflexivity.
Qed.

Lemma slice_from_end {A : Type} (l : list A) (k : nat) :
  (1 <= k <= length l)%nat ->
  slice_from l (- Z.of_nat k) = skipn (length l - k) l.
Proof.
  intros H. unfold slice_from, slice_bound.
  replace (- Z.of_nat k <? 0) with true by (symmetry; apply Z.ltb_lt; lia).
  f_equal. lia.
Qed.

Lemma take_in_range {A : Type} (l : list A) (idx : list nat) (d : A) :
  (forall i, In i idx -> (i < length l)%nat) ->
  take l idx = Ok (map (fun i => nth i l d) idx).
Proof.
  unfold take. induction idx as [|i idx IH]; intros H; cbn; [reflexivity|].
  rewrite (nth_error_nth' l d) by (apply H; left; reflexivity). cbn.
  rewrite IH by (intros j Hj; apply H; right; exact Hj). reflexivity.
Qed.

(** The position [index_of] finds holds the element, and no earlier position
    does. *)
Lemma index_of_spec {A : Type} (eqb : A -> A -> bool) (x : A) (l : list A) (d : A) :
  contains eqb x l = true ->
  exists pos,
    index_of eqb x l = Ok pos
    /\ (pos < length l)%nat
    /\ eqb (nth pos l d) x = true
    /\ forall j, (j < pos)%nat -> eqb (nth j l d) x = false.
Proof.
  unfold contains. induction l as [|y l IH]; cbn; [discriminate|].
  destruct (eqb y x) eqn:E; cbn.
  - intros _. exists 0%nat. repeat split; [lia|exact E|]. intros j Hj. lia.
  - intros H. destruct (IH H) as (pos & Hpos & Hlen & Hat & Hbefore).
    exists (S pos). rewrite Hpos. cbn. repeat split; [lia|exact Hat|].
    intros [|j] Hj; [exact E|]. apply Hbefore. lia.
Qed.

Lemma contains_false {A : Type} (eqb : A -> A -> bool) (x : A) (l : list A) (d : A) :
  contains eqb x l = false ->
  forall j, (j < length l)%nat -> eqb (nth j l d) x = false.
Proof.
  unfold contains. induction l as [|y l IH]; cbn; intros H j Hj; [lia|].
  apply orb_false_iff in H. destruct H as [Hy Hl].
  destruct j as [|j]; [exact Hy|]. apply IH; [exact Hl|lia].
Qed.

Lemma contains_rev {A : Type} (eqb : A -> A -> bool) (x : A) (l : list A) :
  contains eqb x (rev l) = contains eqb x l.
Proof.
  unfold contains. induction l as [|y l IH]; [reflexivity|].
  cbn. rewrite existsb_app, IH. cbn. rewrite orb_false_r. apply orb_comm.
Qed.

(** ** The end time at the effective bound *)

Lemma id_eqb_eq (x : option string) (cur : string) :
  id_eqb x (Some cur) = true <-> x = Some cur.
Proof.
  destruct x as [a|]; cbn; [|split; discriminate].
  rewrite String.eqb_eq. split; congruence.
Qed.

(** Lines 51-56 on an active tail [(tail_end, tail_ids)] of [m] entries,
    sorted by end time: the result is the largest end minus an end [kth]
    that is the largest end of the current speaker in the tail, or the
    smallest end of the tail when the speaker is not in it. *)
Lemma overlap_of_tail (tail_end : list Z) (tail_ids : list (option string))
    (m : nat) (cur : string) :
  (1 <= m)%nat -> length tail_end = m -> length tail_ids = m ->
  Sorted Z.le tail_end ->
  exists kth,
    Py.bind (effective_max_concurrent_spk tail_ids (Z.of_nat m) cur)
      (fun k => Py.bind (getitem tail_end (-1))
         (fun last_end => Py.bind (getitem tail_end (- k))
            (fun kth_end => Ok (int64 (last_end - kth_end)))))
    = Ok (int64 (nth (m - 1) tail_end 0 - kth))
    /\ (forall j, (j < m)%nat -> nth j tail_ids None = Some cur ->
                  nth j tail_end 0 <= kth)
    /\ nth 0 tail_end 0 <= kth
    /\ (kth = nth 0 tail_end 0
        \/ exists j, (j < m)%nat /\ nth j tail_ids None = Some cur
                     /\ nth j tail_end 0 = kth).
Proof.
  intros Hm Hle Hli Hsorted.
  assert (Hlast : getitem tail_end (-1) = Ok (nth (m - 1) tail_end 0)).
  { change (-1) with (- Z.of_nat 1). rewrite (getitem_from_end tail_end 1 0) by lia.
    rewrite Hle. reflexivity. }
  unfold effective_max_concurrent_spk.
  destruct (contains id_eqb (Some cur) tail_ids) eqn:Hin.
  - rewrite <- contains_rev in Hin.
    destruct (index_of_spec id_eqb (Some cur) (rev tail_ids) None Hin)
      as (pos & Hpos & Hlen & Hat & Hbefore).
    rewrite length_rev, Hli in Hlen.
    rewrite rev_nth in Hat by lia. rewrite Hli in Hat. apply id_eqb_eq in Hat.
    exists (nth (m - S pos) tail_end 0).
    rewrite Hpos. cbn [Py.bind]. rewrite Hlast. cbn [Py.bind].
    replace (Z.of_nat pos + 1) with (Z.of_nat (S pos)) by lia.
    rewrite (getitem_from_end tail_end (S pos) 0) by lia. rewrite Hle. cbn [Py.bind].
    split; [reflexivity|]. split; [|split].
    + intros j Hj Hjcur. apply sorted_nth_mono; [exact Hsorted|].
      destruct (Nat.le_gt_cases j (m - S pos)) as [H|H]; [lia|].
      exfalso. specialize (Hbefore (m - S j)%nat ltac:(lia)).
      rewrite rev_nth in Hbefore by lia. rewrite Hli in Hbefore.
      replace (m - S (m - S j))%nat with j in Hbefore by lia.
      apply id_eqb_eq in Hjcur. congruence.
    + apply sorted_nth_mono; [exact Hsorted|lia].
    + right. exists (m - S pos)%nat. repeat split; [lia|exact Hat].
  - exists (nth 0 tail_end 0). cbn [Py.bind]. rewrite Hlast. cbn [Py.bind].
    rewrite (getitem_from_end tail_end m 0) by lia. rewrite Hle, Nat.sub_diag.
    cbn [Py.bind]. split; [reflexivity|]. split; [|split; [lia|left; reflexivity]].
    intros j Hj Hjcur. exfalso.
    pose proof (contains_false id_eqb (Some cur) tail_ids None Hin j ltac:(lia)) as Hf.
    apply id_eqb_eq in Hjcur. congruence.
Qed.

(** ** The padded arrays *)

Lemma pad_speaker_end_length (speaker_end : list Z) (m : Z) :
  length (pad_speaker_end speaker_end m)
  = Nat.max (length speaker_end) (Z.to_nat m).
Proof. unfold pad_speaker_end. rewrite length_app, repeat_length. lia. Qed.

Lemma pad_speaker_ids_length (speaker_ids : list string) (m : Z) (n : nat) :
  length speaker_ids = n ->
  length (pad_speaker_ids speaker_ids m n) = Nat.max n (Z.to_nat m).
Proof.
  intros H. unfold pad_speaker_ids. rewrite length_app, length_map, repeat_length. lia.
Qed.

Lemma pad_speaker_end_nth (speaker_end : list Z) (m : Z) (i : nat) :
  (i < length speaker_end)%nat ->
  nth i (pad_speaker_end speaker_end m) 0 = nth i speaker_end 0.
Proof. intros H. unfold pad_speaker_end. apply app_nth1. exact H. Qed.

(** A padded id is a speaker's id exactly at the positions of the input. *)
Lemma pad_speaker_ids_nth (speaker_ids : list string) (m : Z) (i : nat) (cur : string) :
  nth i (pad_speaker_ids speaker_ids m (length speaker_ids)) None = Some cur
  <-> (i < length speaker_ids)%nat /\ nth i speaker_ids EmptyString = cur.
Proof.
  unfold pad_speaker_ids.
  destruct (Nat.lt_ge_cases i (length speaker_ids)) as [H|H].
  - rewrite app_nth1 by (rewrite length_map; exact H).
    rewrite (nth_indep _ None (Some EmptyString)) by (rewrite length_map; exact H).
    rewrite map_nth. split; [intros [= E]; split; assumption|intros [_ ->]; reflexivity].
  - rewrite app_nth2 by (rewrite length_map; exact H). rewrite length_map.
    split; [|lia].
    set (pad := repeat None _).
    destruct (Nat.lt_ge_cases (i - length speaker_ids) (length pad)) as [Hp|Hp].
    + assert (Hn : In (nth (i - length speaker_ids) pad None) pad) by (apply nth_In; exact Hp).
      apply repeat_spec in Hn. rewrite Hn. discriminate.
    + rewrite nth_overflow by exact Hp. discriminate.
Qed.

Lemma current_speaker_ends_In (speaker_end : list Z) (speaker_ids : list string)
    (cur : string) (x : Z) :
  length speaker_end = length speaker_ids ->
  (In x (current_speaker_ends speaker_end speaker_ids cur)
   <-> exists i, (i < length speaker_end)%nat
                 /\ nth i speaker_end 0 = x
                 /\ nth i speaker_ids EmptyString = cur).
Proof.
  intros Hlen. unfold current_speaker_ends. rewrite in_map_iff. split.
  - intros ([e a] & <- & Hf). apply filter_In in Hf. destruct Hf as [Hin Heq].
    cbn in Heq. apply String.eqb_eq in Heq. subst a.
    destruct (In_nth _ _ (0, EmptyString) Hin) as (i & Hi & Hnth).
    rewrite length_combine in Hi. rewrite combine_nth in Hnth by exact Hlen.
    injection Hnth as He Ha. exists i. cbn. repeat split; [lia|exact He|exact Ha].
  - intros (i & Hi & He & Ha). exists (x, cur). split; [reflexivity|].
    apply filter_In. split; [|cbn; apply String.eqb_refl].
    rewrite <- He, <- Ha. rewrite <- combine_nth by exact Hlen.
    apply nth_In. rewrite length_combine. lia.
Qed.

Lemma In_skipn {A : Type} (l : list A) (k : nat) (x : A) :
  In x (skipn k l) -> In x l.
Proof.
  intros H. rewrite <- (firstn_skipn k l). apply in_or_app. right. exact H.
Qed.

Lemma sorted_skipn (l : list Z) (k : nat) : Sorted Z.le l -> Sorted Z.le (skipn k l).
Proof.
  revert l. induction k as [|k IH]; intros l H; [exact H|].
  destruct l as [|x l]; [exact H|]. cbn. apply IH. apply Sorted_inv in H. tauto.
Qed.

(** ** A closed form of the result *)

Lemma sorted_ends_spec (np_argsort : list Z -> list nat) (speaker_end : list Z) (m : Z) :
  is_argsort (pad_speaker_end speaker_end m) (np_argsort (pad_speaker_end speaker_end m)) ->
  Sorted Z.le (sorted_ends np_argsort speaker_end m)
  /\ Permutation (sorted_ends np_argsort speaker_end m) (pad_speaker_end speaker_end m).
Proof.
  intros [Hperm Hsorted]. split; [exact Hsorted|].
  unfold sorted_ends.
  eapply Permutation_trans; [apply Permutation_map; exact Hperm|].
  rewrite map_nth_seq. apply Permutation_refl.
Qed.

(** With [N] padded entries, [get_allowed_max_overlap] returns the largest
    padded end minus the larger of: the [m]-th largest padded end, and the
    ends of the current speaker; the difference is an [np.int64]. *)
Lemma get_allowed_max_overlap_closed_form (np_argsort : list Z -> list nat)
    (speaker_end : list Z) (speaker_ids : list string) (m : Z) (cur : string) :
  is_argsort (pad_speaker_end speaker_end m) (np_argsort (pad_speaker_end speaker_end m)) ->
  length speaker_end = length speaker_ids ->
  1 <= m ->
  get_allowed_max_overlap np_argsort speaker_end speaker_ids m cur
  = Ok (int64
          (nth (length (sorted_ends np_argsort speaker_end m) - 1)
               (sorted_ends np_argsort speaker_end m) 0
           - fold_right Z.max
               (nth (length (sorted_ends np_argsort speaker_end m) - Z.to_nat m)
                    (sorted_ends np_argsort speaker_end m) 0)
               (current_speaker_ends speaker_end speaker_ids cur))).
Proof.
  intros Hargsort Hlen Hm.
  pose proof (sorted_ends_spec np_argsort speaker_end m Hargsort) as [Hsorted _].
  destruct Hargsort as [Hperm _].
  unfold get_allowed_max_overlap, active_tail, sorted_ends in *.
  pose proof (pad_speaker_end_length speaker_end m) as HlenP.
  pose proof (pad_speaker_ids_length speaker_ids m (length speaker_end) (eq_sym Hlen))
    as HlenI.
  set (P := pad_speaker_end speaker_end m) in *.
  set (I := pad_speaker_ids speaker_ids m (length speaker_end)) in *.
  set (idx := np_argsort P) in *.
  set (N := length P) in *.
  set (mn := Z.to_nat m).
  assert (Hidx_len : length idx = N)
    by (rewrite (Permutation_length Hperm); apply length_seq).
  assert (Hidx_in : forall i, In i idx -> (i < N)%nat).
  { intros i Hi. apply (Permutation_in _ Hperm) in Hi. apply in_seq in Hi. lia. }
  assert (Hmn : (1 <= mn <= N)%nat) by (unfold mn; lia).
  set (k := (N - mn)%nat).
  replace (- m) with (- Z.of_nat mn) by (unfold mn; lia).
  rewrite slice_from_end by lia. rewrite Hidx_len. fold k.
  rewrite (take_in_range P (skipn k idx) 0)
    by (intros i Hi; apply Hidx_in; eapply In_skipn; exact Hi).
  rewrite (take_in_range I (skipn k idx) None)
    by (intros i Hi; rewrite HlenI; fold mn; replace (Nat.max (length speaker_end) mn) with N
          by (unfold N; lia); apply Hidx_in; eapply In_skipn; exact Hi).
  cbn [Py.bind].
  set (S := map (fun i => nth i P 0) idx) in *.
  set (SI := map (fun i => nth i I None) idx).
  rewrite <- !skipn_map. fold S SI.
  assert (HlenS : length S = N) by (unfold S; rewrite length_map; exact Hidx_len).
  assert (HlenSI : length SI = N) by (unfold SI; rewrite length_map; exact Hidx_len).
  rewrite HlenS. fold k.
  replace m with (Z.of_nat mn) by (unfold mn; lia).
  destruct (overlap_of_tail (skipn k S) (skipn k SI) mn cur)
    as (kth & Hrun & Hcur & Hlow & Hwhich).
  { lia. }
  { rewrite length_skipn. lia. }
  { rewrite length_skipn. lia. }
  { apply sorted_skipn. exact Hsorted. }
  rewrite Hrun. f_equal. f_equal. rewrite nth_skipn_add in *.
  replace (k + (mn - 1))%nat with (N - 1)%nat by lia. f_equal.
  rewrite Nat.add_0_r in *.
  assert (HS : forall q, (q < N)%nat -> nth q S 0 = nth (nth q idx 0%nat) P 0).
  { intros q Hq. unfold S.
    rewrite (nth_indep _ 0 (nth 0%nat P 0)) by (rewrite length_map; lia).
    apply (map_nth (fun i => nth i P 0)). }
  assert (HSI : forall q, (q < N)%nat -> nth q SI None = nth (nth q idx 0%nat) I None).
  { intros q Hq. unfold SI.
    rewrite (nth_indep _ None (nth 0%nat I None)) by (rewrite length_map; lia).
    apply (map_nth (fun i => nth i I None)). }
  apply Z.le_antisymm.
  - (* the end found is the base or an end of the current speaker *)
    destruct Hwhich as [->|(j & Hj & Hjcur & <-)]; [apply fold_max_ge_base|].
    apply fold_max_ge_elem. rewrite ?nth_skipn_add. rewrite nth_skipn_add in Hjcur.
    rewrite HSI in Hjcur by lia. rewrite HS by lia.
    unfold I in Hjcur. rewrite Hlen in Hjcur. apply pad_speaker_ids_nth in Hjcur.
    destruct Hjcur as [Hi Hid].
    apply current_speaker_ends_In; [exact Hlen|].
    exists (nth (k + j) idx 0%nat). split; [lia|]. split; [|exact Hid].
    unfold P. rewrite pad_speaker_end_nth by lia. reflexivity.
  - (* no end of the current speaker, and not the base, exceeds it *)
    apply fold_max_le; [exact Hlow|].
    intros x Hx. apply current_speaker_ends_In in Hx; [|exact Hlen].
    destruct Hx as (i & Hi & Hend & Hid).
    assert (HiN : (i < N)%nat) by (unfold N; lia).
    assert (Hin : In i idx).
    { apply (Permutation_in _ (Permutation_sym Hperm)). apply in_seq. lia. }
    destruct (In_nth _ _ 0%nat Hin) as (q & Hq & Hqi). rewrite Hidx_len in Hq.
    assert (HSq : nth q S 0 = x).
    { rewrite HS by exact Hq. rewrite Hqi. unfold P.
      rewrite pad_speaker_end_nth by exact Hi. exact Hend. }
    destruct (Nat.lt_ge_cases q k) as [Hfront|Htail].
    + rewrite <- HSq. etransitivity; [|exact Hlow].
      apply sorted_nth_mono; [exact Hsorted|lia].
    + rewrite <- HSq. replace q with (k + (q - k))%nat by lia.
      rewrite <- nth_skipn_add. apply Hcur; [lia|].
      rewrite nth_skipn_add. replace (k + (q - k))%nat with q by lia.
      rewrite HSI by exact Hq. rewrite Hqi. unfold I. rewrite Hlen.
      apply pad_speaker_ids_nth. split; [lia|exact Hid].
Qed.

(** ** The sorted padded ends *)

Lemma sorted_ends_length (np_argsort : list Z -> list nat) (speaker_end : list Z) (m : Z) :
  is_argsort (pad_speaker_end speaker_end m) (np_argsort (pad_speaker_end speaker_end m)) ->
  length (sorted_ends np_argsort speaker_end m)
  = Nat.max (length speaker_end) (Z.to_nat m).
Proof.
  intros H. destruct (sorted_ends_spec np_argsort speaker_end m H) as [_ Hp].
  rewrite (Permutation_length Hp). apply pad_speaker_end_length.
Qed.

Lemma sorted_ends_nth_In (np_argsort : list Z -> list nat) (speaker_end : list Z)
    (m : Z) (q : nat) :
  is_argsort (pad_speaker_end speaker_end m) (np_argsort (pad_speaker_end speaker_end m)) ->
  (q < length (sorted_ends np_argsort speaker_end m))%nat ->
  In (nth q (sorted_ends np_argsort speaker_end m) 0) (pad_speaker_end speaker_end m).
Proof.
  intros H Hq. destruct (sorted_ends_spec np_argsort speaker_end m H) as [_ Hp].
  apply (Permutation_in _ Hp). apply nth_In. exact Hq.
Qed.

(** Every padded end lies between the first and the last sorted end. *)
Lemma sorted_ends_bounds (np_argsort : list Z -> list nat) (speaker_end : list Z)
    (m : Z) (x : Z) :
  is_argsort (pad_speaker_end speaker_end m) (np_argsort (pad_speaker_end speaker_end m)) ->
  In x (pad_speaker_end speaker_end m) ->
  nth 0 (sorted_ends np_argsort speaker_end m) 0 <= x
  <= nth (length (sorted_ends np_argsort speaker_end m) - 1)
         (sorted_ends np_argsort speaker_end m) 0.
Proof.
  intros H Hx. destruct (sorted_ends_spec np_argsort speaker_end m H) as [Hs Hp].
  apply (Permutation_in _ (Permutation_sym Hp)) in Hx.
  destruct (In_nth _ _ 0 Hx) as (q & Hq & <-).
  split; apply sorted_nth_mono; try exact Hs; lia.
Qed.

Lemma pad_speaker_end_incl (speaker_end : list Z) (m1 m2 : Z) :
  m1 <= m2 -> incl (pad_speaker_end speaker_end m1) (pad_speaker_end speaker_end m2).
Proof.
  intros Hm x Hx. unfold pad_speaker_end in *.
  apply in_app_or in Hx. apply in_or_app. destruct Hx as [Hx|Hx]; [left; exact Hx|].
  right. set (a := Z.to_nat _) in Hx. set (b := Z.to_nat _).
  assert (Hab : (a <= b)%nat) by (unfold a, b; lia).
  pose proof (repeat_spec _ _ _ Hx) as ->.
  destruct b as [|b]; [|left; reflexivity].
  replace a with 0%nat in Hx by lia. destruct Hx.
Qed.

Lemma pad_speaker_end_short (speaker_end : list Z) (m : Z) :
  m <= Z.of_nat (length speaker_end) ->
  pad_speaker_end speaker_end m = speaker_end ++ [].
Proof.
  intros H. unfold pad_speaker_end. f_equal.
  replace (Z.to_nat (Z.max (m - Z.of_nat (length speaker_end)) 0)) with 0%nat by lia.
  reflexivity.
Qed.

(** ** Sorting by insertion meets the promise of np.argsort *)

Lemma insert_index_perm (before : Z -> Z -> bool) (a : list Z) (i : nat)
    (sorted : list nat) :
  Permutation (insert_index before a i sorted) (i :: sorted).
Proof.
  induction sorted as [|j rest IH]; cbn; [apply Permutation_refl|].
  destruct (before (nth i a 0) (nth j a 0)); [apply Permutation_refl|].
  eapply Permutation_trans; [apply perm_skip; exact IH|apply perm_swap].
Qed.

Lemma insert_index_sorted (before : Z -> Z -> bool) (a : list Z) (i : nat)
    (sorted : list nat) :
  (forall x y, before x y = true -> x <= y) ->
  (forall x y, before x y = false -> y <= x) ->
  Sorted Z.le (map (fun k => nth k a 0) sorted) ->
  Sorted Z.le (map (fun k => nth k a 0) (insert_index before a i sorted)).
Proof.
  intros Htrue Hfalse.
  induction sorted as [|j rest IH]; cbn; intros Hs.
  - constructor; constructor.
  - destruct (before (nth i a 0) (nth j a 0)) eqn:E; cbn.
    + constructor; [exact Hs|]. constructor. apply Htrue. exact E.
    + apply Sorted_inv in Hs. destruct Hs as [Hs Hhd].
      constructor; [apply IH; exact Hs|].
      destruct rest as [|j' rest]; cbn.
      * constructor. apply Hfalse. exact E.
      * destruct (before (nth i a 0) (nth j' a 0)); cbn; constructor.
        -- apply Hfalse. exact E.
        -- inversion Hhd; assumption.
Qed.

Lemma argsort_by_is_argsort (before : Z -> Z -> bool) (a : list Z) :
  (forall x y, before x y = true -> x <= y) ->
  (forall x y, before x y = false -> y <= x) ->
  is_argsort a (argsort_by before a).
Proof.
  intros Htrue Hfalse. unfold is_argsort, argsort_by.
  generalize (seq 0 (length a)) as indices.
  induction indices as [|i indices [IHp IHs]]; cbn.
  - split; constructor.
  - split.
    + eapply Permutation_trans; [apply insert_index_perm|]. apply perm_skip. exact IHp.
    + apply insert_index_sorted; assumption.
Qed.

Lemma argsort_stable_is_argsort (a : list Z) : is_argsort a (argsort_stable a).
Proof.
  apply argsort_by_is_argsort; intros x y H.
  - apply Z.leb_le. exact H.
  - apply Z.leb_gt in H. lia.
Qed.

Lemma argsort_reversing_is_argsort (a : list Z) : is_argsort a (argsort_reversing a).
Proof.
  apply argsort_by_is_argsort; intros x y H.
  - apply Z.ltb_lt in H. lia.
  - apply Z.ltb_ge. exact H.
Qed.

(** ** Non-negativity, monotonicity, independence of the order of ties *)

Lemma current_speaker_ends_padded (speaker_end : list Z) (speaker_ids : list string)
    (m : Z) (cur : string) (x : Z) :
  length speaker_end = length speaker_ids ->
  In x (current_speaker_ends speaker_end speaker_ids cur) ->
  In x (pad_speaker_end speaker_end m).
Proof.
  intros Hlen Hx. apply current_speaker_ends_In in Hx; [|exact Hlen].
  destruct Hx as (i & Hi & <- & _). unfold pad_speaker_end.
  apply in_or_app. left. apply nth_In. exact Hi.
Qed.

(** ** Wrap-around *)

Lemma int64_exact (z : Z) : - 2 ^ 63 <= z < 2 ^ 63 -> int64 z = z.
Proof.
  intros H. unfold int64. rewrite Z.mod_small; lia.
Qed.

Lemma int64_le (z : Z) : 0 <= z -> int64 z <= z.
Proof.
  intros H. unfold int64.
  pose proof (Z.mod_le (z + 2 ^ 63) (2 ^ 64) ltac:(lia) ltac:(lia)). lia.
Qed.

Lemma int64_range (z : Z) : - 2 ^ 63 <= int64 z < 2 ^ 63.
Proof.
  unfold int64. pose proof (Z.mod_pos_bound (z + 2 ^ 63) (2 ^ 64) ltac:(lia)). lia.
Qed.

Lemma pad_speaker_end_In (speaker_end : list Z) (m x : Z) :
  In x (pad_speaker_end speaker_end m) -> In x (0 :: speaker_end).
Proof.
  unfold pad_speaker_end. intros H. apply in_app_or in H. destruct H as [H|H].
  - right. exact H.
  - apply repeat_spec in H. left. symmetry. exact H.
Qed.

(** The exact difference of line 55 is not negative, and both of its terms
    are padded end times. *)
Lemma exact_overlap_spec (np_argsort : list Z -> list nat)
    (speaker_end : list Z) (speaker_ids : list string) (m : Z) (cur : string) :
  is_argsort (pad_speaker_end speaker_end m) (np_argsort (pad_speaker_end speaker_end m)) ->
  length speaker_end = length speaker_ids ->
  1 <= m ->
  let S := sorted_ends np_argsort speaker_end m in
  let last := nth (length S - 1) S 0 in
  let kth := fold_right Z.max (nth (length S - Z.to_nat m) S 0)
               (current_speaker_ends speaker_end speaker_ids cur) in
  kth <= last
  /\ In last (pad_speaker_end speaker_end m)
  /\ In kth (pad_speaker_end speaker_end m).
Proof.
  intros Hsort Hlen Hm S last kth.
  pose proof (sorted_ends_length np_argsort speaker_end m Hsort) as HlenS.
  destruct (sorted_ends_spec np_argsort speaker_end m Hsort) as [Hs _].
  fold S in HlenS, Hs.
  assert (Hcur : forall x, In x (current_speaker_ends speaker_end speaker_ids cur) ->
                           In x (pad_speaker_end speaker_end m)).
  { intros x Hx. exact (current_speaker_ends_padded speaker_end speaker_ids m cur x Hlen Hx). }
  split; [|split].
  - apply fold_max_le.
    + apply sorted_nth_mono; [exact Hs|lia].
    + intros x Hx. apply (sorted_ends_bounds np_argsort speaker_end m x Hsort (Hcur x Hx)).
  - apply (sorted_ends_nth_In np_argsort speaker_end m _ Hsort). fold S. lia.
  - unfold kth.
    assert (Hbase : In (nth (length S - Z.to_nat m) S 0) (pad_speaker_end speaker_end m)).
    { apply (sorted_ends_nth_In np_argsort speaker_end m _ Hsort). fold S. lia. }
    revert Hcur. generalize (current_speaker_ends speaker_end speaker_ids cur) as l.
    induction l as [|x l IH]; intros Hcur; cbn [fold_right]; [exact Hbase|].
    destruct (Z.max_spec x (fold_right Z.max (nth (length S - Z.to_nat m) S 0) l))
      as [[_ ->]|[_ ->]].
    + apply IH. intros y Hy. apply Hcur. right. exact Hy.
    + apply Hcur. left. reflexivity.
Qed.

(** Within an [int64_span] the difference is stored unchanged. *)
Lemma exact_overlap_fits (np_argsort : list Z -> list nat)
    (speaker_end : list Z) (speaker_ids : list string) (m : Z) (cur : string) :
  is_argsort (pad_speaker_end speaker_end m) (np_argsort (pad_speaker_end speaker_end m)) ->
  length speaker_end = length speaker_ids ->
  1 <= m ->
  int64_span speaker_end ->
  let S := sorted_ends np_argsort speaker_end m in
  get_allowed_max_overlap np_argsort speaker_end speaker_ids m cur
  = Ok (nth (length S - 1) S 0
        - fold_right Z.max (nth (length S - Z.to_nat m) S 0)
            (current_speaker_ends speaker_end speaker_ids cur)).
Proof.
  intros Hsort Hlen Hm Hspan S.
  rewrite (get_allowed_max_overlap_closed_form np_argsort _ _ m cur Hsort Hlen Hm).
  destruct (exact_overlap_spec np_argsort speaker_end speaker_ids m cur Hsort Hlen Hm)
    as (Hle & Hlast & Hkth).
  fold S in Hle, Hlast, Hkth |- *. f_equal. apply int64_exact.
  pose proof (Hspan _ _ (pad_speaker_end_In _ _ _ Hlast) (pad_speaker_end_In _ _ _ Hkth)).
  lia.
Qed.

(** C4, as amended.  Whatever sorting permutation [np.argsort] returns: for
    end-time and speaker-id sequences of equal length whose end times lie
    within an [int64_span], and a positive [max_concurrent_spk],
    [get_allowed_max_overlap] returns a non-negative integer, with the
    current speaker in the active tail or not; and on [speaker_end=[1]],
    [speaker_ids=['a']], [max_concurrent_spk=2], [current_speaker_id='a'] it
    returns 0. *)
Theorem get_allowed_max_overlap_nonneg (np_argsort : list Z -> list nat) :
  (forall a, is_argsort a (np_argsort a)) ->
  (forall (speaker_end : list Z) (speaker_ids : list string) (m : Z) (cur : string),
      length speaker_end = length speaker_ids ->
      1 <= m ->
      int64_span speaker_end ->
      exists overlap,
        get_allowed_max_overlap np_argsort speaker_end speaker_ids m cur = Ok overlap
        /\ 0 <= overlap)
  /\ get_allowed_max_overlap np_argsort [1] ["a"%string] 2 "a"%string = Ok 0.
Proof.
  intros Hcontract. split.
  - intros speaker_end speaker_ids m cur Hlen Hm Hspan.
    pose proof (Hcontract (pad_speaker_end speaker_end m)) as Hsort.
    rewrite (exact_overlap_fits np_argsort _ _ m cur Hsort Hlen Hm Hspan).
    eexists. split; [reflexivity|].
    destruct (exact_overlap_spec np_argsort speaker_end speaker_ids m cur Hsort Hlen Hm)
      as (Hle & _). lia.
  - pose proof (Hcontract (pad_speaker_end [1] 2)) as Hsort.
    rewrite (get_allowed_max_overlap_closed_form np_argsort [1] ["a"%string] 2 "a"
               Hsort eq_refl ltac:(lia)).
    destruct (sorted_ends_spec np_argsort [1] 2 Hsort) as [Hs Hp].
    assert (HS : sorted_ends np_argsort [1] 2 = [0; 1]).
    { apply sorted_permutation_unique; [exact Hs|repeat constructor; lia|].
      eapply Permutation_trans; [exact Hp|]. apply perm_swap. }
    rewrite HS. reflexivity.
Qed.

Lemma get_allowed_max_overlap_nonneg_witness :
  exists overlap,
    get_allowed_max_overlap argsort_stable [10; 30; 25] ["a"; "b"; "a"]%string 2
      "a"%string = Ok overlap
    /\ 0 <= overlap.
Proof.
  apply (proj1 (get_allowed_max_overlap_nonneg argsort_stable
                  argsort_stable_is_argsort)
           [10; 30; 25] ["a"; "b"; "a"]%string 2 "a"%string).
  - reflexivity.
  - lia.
  - intros e e' He He'. cbn in He, He'. lia.
Defined.

(** C4 as stated fails.  The end times [2^62] and [-2^62] are [np.int64]
    values; their difference [2^63] is not, and the subtraction of line 55
    wraps around: the function returns [-2^63]. *)
Lemma get_allowed_max_overlap_wraps_negative :
  is_argsort (pad_speaker_end [2 ^ 62; - 2 ^ 62] 2)
    (argsort_stable (pad_speaker_end [2 ^ 62; - 2 ^ 62] 2))
  /\ argsort_stable (pad_speaker_end [2 ^ 62; - 2 ^ 62] 2) = [1%nat; 0%nat]
  /\ get_allowed_max_overlap argsort_stable [2 ^ 62; - 2 ^ 62] ["a"; "b"]%string 2
       "c"%string
     = Ok (- 2 ^ 63)
  /\ ~ 0 <= - 2 ^ 63.
Proof.
  split; [apply argsort_stable_is_argsort|]. split; [reflexivity|].
  split; [vm_compute; reflexivity|lia].
Qed.

(** C5, as amended.  Whatever sorting permutation [np.argsort] returns: for
    end-time and speaker-id sequences of equal length whose end times lie
    within an [int64_span], a current speaker and positive bounds
    [m1 <= m2], [get_allowed_max_overlap] returns a value for each bound, and
    the one for [m2] is at least the one for [m1]. *)
Theorem get_allowed_max_overlap_monotone (np_argsort : list Z -> list nat)
    (speaker_end : list Z) (speaker_ids : list string) (cur : string) (m1 m2 : Z) :
  (forall a, is_argsort a (np_argsort a)) ->
  length speaker_end = length speaker_ids ->
  int64_span speaker_end ->
  1 <= m1 -> m1 <= m2 ->
  exists overlap1 overlap2,
    get_allowed_max_overlap np_argsort speaker_end speaker_ids m1 cur = Ok overlap1
    /\ get_allowed_max_overlap np_argsort speaker_end speaker_ids m2 cur = Ok overlap2
    /\ overlap1 <= overlap2.
Proof.
  intros Hcontract Hlen Hspan Hm1 Hm12.
  pose proof (Hcontract (pad_speaker_end speaker_end m1)) as Hsort1.
  pose proof (Hcontract (pad_speaker_end speaker_end m2)) as Hsort2.
  rewrite (exact_overlap_fits np_argsort _ _ m1 cur Hsort1 Hlen Hm1 Hspan).
  rewrite (exact_overlap_fits np_argsort _ _ m2 cur Hsort2 Hlen ltac:(lia) Hspan).
  eexists _, _. split; [reflexivity|]. split; [reflexivity|].
  pose proof (sorted_ends_length np_argsort speaker_end m1 Hsort1) as Hlen1.
  pose proof (sorted_ends_length np_argsort speaker_end m2 Hsort2) as Hlen2.
  destruct (sorted_ends_spec np_argsort speaker_end m2 Hsort2) as [Hs2 _].
  set (S1 := sorted_ends np_argsort speaker_end m1) in *.
  set (S2 := sorted_ends np_argsort speaker_end m2) in *.
  (* the largest end does not decrease *)
  assert (Hmax : nth (length S1 - 1) S1 0 <= nth (length S2 - 1) S2 0).
  { apply (sorted_ends_bounds np_argsort speaker_end m2 _ Hsort2).
    apply (pad_speaker_end_incl speaker_end m1 m2 Hm12).
    apply (sorted_ends_nth_In np_argsort speaker_end m1 _ Hsort1). fold S1. lia. }
  (* the end at the bound does not increase *)
  assert (Hbase : nth (length S2 - Z.to_nat m2) S2 0
                  <= nth (length S1 - Z.to_nat m1) S1 0).
  { destruct (Z.le_gt_cases m2 (Z.of_nat (length speaker_end))) as [Hshort|Hlong].
    - assert (E : S1 = S2).
      { unfold S1, S2, sorted_ends.
        rewrite (pad_speaker_end_short speaker_end m1) by lia.
        rewrite (pad_speaker_end_short speaker_end m2) by lia. reflexivity. }
      rewrite E in *. apply sorted_nth_mono; [exact Hs2|lia].
    - replace (length S2 - Z.to_nat m2)%nat with 0%nat by lia.
      apply (sorted_ends_bounds np_argsort speaker_end m2 _ Hsort2).
      apply (pad_speaker_end_incl speaker_end m1 m2 Hm12).
      apply (sorted_ends_nth_In np_argsort speaker_end m1 _ Hsort1). fold S1. lia. }
  pose proof (fold_max_mono _ _ (current_speaker_ends speaker_end speaker_ids cur) Hbase).
  lia.
Qed.

Lemma get_allowed_max_overlap_monotone_witness :
  exists overlap1 overlap2,
    get_allowed_max_overlap argsort_stable [10; 7; 3] ["a"; "b"; "c"]%string 2 "z"%string
      = Ok overlap1
    /\ get_allowed_max_overlap argsort_stable [10; 7; 3] ["a"; "b"; "c"]%string 3 "z"%string
       = Ok overlap2
    /\ overlap1 <= overlap2.
Proof.
  apply (get_allowed_max_overlap_monotone argsort_stable [10; 7; 3]
           ["a"; "b"; "c"]%string "z"%string 2 3).
  - exact argsort_stable_is_argsort.
  - reflexivity.
  - intros e e' He He'. cbn in He, He'. lia.
  - lia.
  - lia.
Defined.

(** C5 as stated fails.  With the end times [2^62] and [-2^62] the bound
    1 gives overlap 0 and the larger bound 2 gives the wrapped difference
    [-2^63]: raising [max_concurrent_spk] lowered the result. *)
Lemma get_allowed_max_overlap_wraps_below :
  get_allowed_max_overlap argsort_stable [2 ^ 62; - 2 ^ 62] ["a"; "b"]%string 1
    "c"%string
  = Ok 0
  /\ get_allowed_max_overlap argsort_stable [2 ^ 62; - 2 ^ 62] ["a"; "b"]%string 2
       "c"%string
     = Ok (- 2 ^ 63)
  /\ ~ 0 <= - 2 ^ 63.
Proof.
  split; [vm_compute; reflexivity|]. split; [vm_compute; reflexivity|lia].
Qed.

(** ** The active tail *)



(** The active tail is read off the last [m] positions that [np_argsort]
    lists. *)
Lemma active_tail_positions (np_argsort : list Z -> list nat) (speaker_end : list Z)
    (speaker_ids : list string) (m : Z) :
  is_argsort (pad_speaker_end speaker_end m) (np_argsort (pad_speaker_end speaker_end m)) ->
  length speaker_end = length speaker_ids ->
  1 <= m ->
  let ends := pad_speaker_end speaker_end m in
  let ids := pad_speaker_ids speaker_ids m (length speaker_end) in
  let k := (length ends - Z.to_nat m)%nat in
  active_tail np_argsort speaker_end speaker_ids m
  = Ok (map (fun i => nth i ends 0) (skipn k (np_argsort ends)),
        map (fun i => nth i ids None) (skipn k (np_argsort ends)))
  /\ length (np_argsort ends) = length ends
  /\ (Z.to_nat m <= length ends)%nat.
Proof.
  intros [Hperm _] Hlen Hm ends ids k.
  pose proof (pad_speaker_end_length speaker_end m) as HlenP.
  pose proof (pad_speaker_ids_length speaker_ids m (length speaker_end) (eq_sym Hlen))
    as HlenI.
  fold ends in HlenP, Hperm. fold ids in HlenI.
  assert (Hidx_len : length (np_argsort ends) = length ends)
    by (rewrite (Permutation_length Hperm); apply length_seq).
  assert (Hidx_in : forall i, In i (np_argsort ends) -> (i < length ends)%nat).
  { intros i Hi. apply (Permutation_in _ Hperm) in Hi. apply in_seq in Hi. lia. }
  split; [|split; [exact Hidx_len|lia]].
  unfold active_tail. fold ends ids.
  replace (- m) with (- Z.of_nat (Z.to_nat m)) by lia.
  rewrite slice_from_end by lia. rewrite Hidx_len. fold k.
  rewrite (take_in_range ends _ 0)
    by (intros i Hi; apply Hidx_in; eapply In_skipn; exact Hi).
  rewrite (take_in_range ids _ None)
    by (intros i Hi; rewrite HlenI, <- HlenP; apply Hidx_in; eapply In_skipn; exact Hi).
  reflexivity.
Qed.




End OverlapProperties.

(* ===================================================================== *)
(** * What the allowed overlap guarantees *)
(* ===================================================================== *)

Module OverlapGuarantees.

Import OverlapSampler.
Local Open Scope Z_scope.

(** ** Largest elements and counting *)

Lemma fold_left_max_spec (l : list Z) :
  forall x,
    In (fold_left Z.max l x) (x :: l)
    /\ forall y, In y (x :: l) -> y <= fold_left Z.max l x.
Proof.
  induction l as [|z l IH]; intros x; cbn [fold_left].
  - split; [left; reflexivity|]. intros y [<-|[]]. lia.
  - destruct (IH (Z.max x z)) as [Hin Hle]. split.
    + destruct Hin as [Hin|Hin]; [|right; right; exact Hin].
      rewrite <- Hin.
      destruct (Z.max_spec x z) as [[_ E]|[_ E]]; rewrite E.
      * right; left; reflexivity.
      * left; reflexivity.
    + intros y [<-|[<-|Hy]].
      * etransitivity; [apply Z.le_max_l|apply Hle; left; reflexivity].
      * etransitivity; [apply Z.le_max_r|apply Hle; left; reflexivity].
      * apply Hle. right. exact Hy.
Qed.

Lemma np_max_spec (l : list Z) (M : Z) :
  np_max l = Ok M -> In M l /\ forall y, In y l -> y <= M.
Proof.
  destruct l as [|x l]; cbn; [discriminate|]. intros [= <-]. apply fold_left_max_spec.
Qed.

Lemma np_max_returns (l : list Z) : l <> [] -> exists M, np_max l = Ok M.
Proof. destruct l; [congruence|]. intros _. cbn. eauto. Qed.

Lemma filter_length_perm {A : Type} (f : A -> bool) (l l' : list A) :
  Permutation l l' -> length (filter f l) = length (filter f l').
Proof.
  induction 1 as [|x l l' _ IH|x y l|l l' l'' _ IH1 _ IH2]; cbn.
  - reflexivity.
  - destruct (f x); cbn; lia.
  - destruct (f x), (f y); reflexivity.
  - lia.
Qed.

Lemma filter_length_impl {A : Type} (p q : A -> bool) (l : list A) :
  (forall x, In x l -> p x = true -> q x = true) ->
  (length (filter p l) <= length (filter q l))%nat.
Proof.
  induction l as [|x l IH]; intros H; cbn; [lia|].
  assert (IH' : (length (filter p l) <= length (filter q l))%nat)
    by (apply IH; intros y Hy; apply H; right; exact Hy).
  destruct (p x) eqn:Ep.
  - rewrite (H x (or_introl eq_refl) Ep). cbn. lia.
  - destruct (q x); cbn; lia.
Qed.

Lemma filter_length_le {A : Type} (f : A -> bool) (l : list A) :
  (length (filter f l) <= length l)%nat.
Proof. induction l as [|x l IH]; cbn; [lia|]. destruct (f x); cbn; lia. Qed.

Lemma filter_none {A : Type} (f : A -> bool) (l : list A) :
  (forall x, In x l -> f x = false) -> filter f l = [].
Proof.
  induction l as [|x l IH]; intros H; cbn; [reflexivity|].
  rewrite (H x (or_introl eq_refl)). apply IH. intros y Hy. apply H. right. exact Hy.
Qed.

(** In a sorted list, at most the elements behind position [k] exceed the
    element at position [k]. *)
Lemma sorted_count_above (l : list Z) (k : nat) :
  Sorted Z.le l -> (k < length l)%nat ->
  (length (filter (fun e => (nth k l 0 <? e)%Z) l) <= length l - S k)%nat.
Proof.
  intros Hs Hk. set (above := fun e => (nth k l 0 <? e)%Z).
  replace (filter above l) with (filter above (firstn (S k) l ++ skipn (S k) l))
    by (rewrite firstn_skipn; reflexivity).
  rewrite filter_app, length_app. unfold above at 1.
  rewrite filter_none.
  - pose proof (filter_length_le above (skipn (S k) l)) as H.
    rewrite length_skipn in H. cbn [length]. lia.
  - intros x Hx. destruct (In_nth _ _ 0 Hx) as (j & Hj & <-).
    rewrite length_firstn in Hj. rewrite OnsetProperties.nth_firstn_lt by lia.
    apply Z.ltb_ge. apply OverlapProperties.sorted_nth_mono; [exact Hs|lia].
Qed.

(** ** The earliest allowed start *)

(** [get_allowed_max_overlap] returns the latest padded end minus the
    earliest allowed start, as an [np.int64]: the start is the larger of the
    [m]-th largest padded end and the ends of the current speaker. *)
Lemma earliest_start (np_argsort : list Z -> list nat) (speaker_end : list Z)
    (speaker_ids : list string) (m : Z) (cur : string) (latest : Z) :
  is_argsort (pad_speaker_end speaker_end m) (np_argsort (pad_speaker_end speaker_end m)) ->
  length speaker_end = length speaker_ids ->
  1 <= m ->
  np_max (pad_speaker_end speaker_end m) = Ok latest ->
  get_allowed_max_overlap np_argsort speaker_end speaker_ids m cur
  = Ok (int64
          (latest
           - fold_right Z.max
               (nth (length (sorted_ends np_argsort speaker_end m) - Z.to_nat m)
                    (sorted_ends np_argsort speaker_end m) 0)
               (current_speaker_ends speaker_end speaker_ids cur))).
Proof.
  intros Hsort Hlen Hm Hmax.
  rewrite (OverlapProperties.get_allowed_max_overlap_closed_form
             np_argsort _ _ m cur Hsort Hlen Hm).
  f_equal. f_equal. f_equal.
  destruct (np_max_spec _ _ Hmax) as [Hin Hle].
  pose proof (OverlapProperties.sorted_ends_length np_argsort speaker_end m Hsort) as HlenS.
  apply Z.le_antisymm.
  - apply Hle. apply OverlapProperties.sorted_ends_nth_In; [exact Hsort|lia].
  - apply (OverlapProperties.sorted_ends_bounds np_argsort speaker_end m latest Hsort Hin).
Qed.

Lemma current_speaker_ends_nth_error (speaker_end : list Z) (speaker_ids : list string)
    (cur : string) (i : nat) (e : Z) :
  length speaker_end = length speaker_ids ->
  nth_error speaker_end i = Some e ->
  nth_error speaker_ids i = Some cur ->
  In e (current_speaker_ends speaker_end speaker_ids cur).
Proof.
  intros Hlen He Hid.
  apply OverlapProperties.current_speaker_ends_In; [exact Hlen|].
  exists i. split; [apply nth_error_Some; congruence|].
  split; apply nth_error_nth; assumption.
Qed.

Lemma current_speaker_ends_absent (speaker_end : list Z) (speaker_ids : list string)
    (cur : string) :
  length speaker_end = length speaker_ids ->
  ~ In cur speaker_ids ->
  current_speaker_ends speaker_end speaker_ids cur = [].
Proof.
  intros Hlen Hnot.
  destruct (current_speaker_ends speaker_end speaker_ids cur) as [|x l] eqn:E;
    [reflexivity|].
  exfalso. assert (Hx : In x (current_speaker_ends speaker_end speaker_ids cur))
    by (rewrite E; left; reflexivity).
  apply OverlapProperties.current_speaker_ends_In in Hx; [|exact Hlen].
  destruct Hx as (i & Hi & _ & Hid). apply Hnot. rewrite <- Hid.
  apply nth_In. lia.
Qed.

(** Fewer than [m] of the placed utterances end after the earliest allowed
    start. *)
Lemma count_after_earliest_start (np_argsort : list Z -> list nat)
    (speaker_end : list Z) (m : Z) (start : Z) :
  is_argsort (pad_speaker_end speaker_end m) (np_argsort (pad_speaker_end speaker_end m)) ->
  1 <= m ->
  nth (length (sorted_ends np_argsort speaker_end m) - Z.to_nat m)
      (sorted_ends np_argsort speaker_end m) 0 <= start ->
  Z.of_nat (length (filter (fun e => start <? e) speaker_end)) < m.
Proof.
  intros Hsort Hm Hstart.
  pose proof (OverlapProperties.sorted_ends_length np_argsort speaker_end m Hsort) as HlenS.
  destruct (OverlapProperties.sorted_ends_spec np_argsort speaker_end m Hsort) as [Hs Hp].
  set (S := sorted_ends np_argsort speaker_end m) in *.
  set (k := (length S - Z.to_nat m)%nat) in *.
  assert (H1 : (length (filter (fun e => (start <? e)%Z) speaker_end)
                <= length (filter (fun e => (nth k S 0 <? e)%Z) speaker_end))%nat).
  { apply filter_length_impl. intros x _ Hx. apply Z.ltb_lt in Hx. apply Z.ltb_lt. lia. }
  assert (H2 : (length (filter (fun e => (nth k S 0 <? e)%Z) speaker_end)
                <= length (filter (fun e => (nth k S 0 <? e)%Z)
                                  (pad_speaker_end speaker_end m)))%nat).
  { unfold pad_speaker_end. rewrite filter_app, length_app. lia. }
  rewrite <- (filter_length_perm _ _ _ Hp) in H2.
  pose proof (sorted_count_above S k Hs ltac:(unfold k; lia)) as H3.
  unfold k in *. clearbody S. lia.
Qed.

Lemma earliest_start_le_latest (np_argsort : list Z -> list nat) (speaker_end : list Z)
    (speaker_ids : list string) (m : Z) (cur : string) (latest : Z) :
  is_argsort (pad_speaker_end speaker_end m) (np_argsort (pad_speaker_end speaker_end m)) ->
  length speaker_end = length speaker_ids ->
  1 <= m ->
  np_max (pad_speaker_end speaker_end m) = Ok latest ->
  fold_right Z.max
    (nth (length (sorted_ends np_argsort speaker_end m) - Z.to_nat m)
         (sorted_ends np_argsort speaker_end m) 0)
    (current_speaker_ends speaker_end speaker_ids cur) <= latest.
Proof.
  intros Hsort Hlen Hm Hmax. destruct (np_max_spec _ _ Hmax) as [_ Hle].
  pose proof (OverlapProperties.sorted_ends_length np_argsort speaker_end m Hsort) as HlenS.
  apply OverlapProperties.fold_max_le.
  - apply Hle. apply OverlapProperties.sorted_ends_nth_In; [exact Hsort|lia].
  - intros x Hx. apply Hle.
    apply (OverlapProperties.current_speaker_ends_padded _ _ m cur x Hlen Hx).
Qed.

(** ** Guarantees of get_allowed_max_overlap *)

(** X1.  The allowed overlap never reaches into an utterance of the current
    speaker: with [latest] the largest padded end, every placed utterance of
    the current speaker ends at or before [latest - overlap]; when the current
    speaker has the utterance that ends last, no overlap is allowed. *)
Theorem allowed_overlap_spares_current_speaker (np_argsort : list Z -> list nat)
    (speaker_end : list Z) (speaker_ids : list string) (m : Z) (cur : string)
    (latest : Z) :
  (forall a, is_argsort a (np_argsort a)) ->
  length speaker_end = length speaker_ids ->
  1 <= m ->
  np_max (pad_speaker_end speaker_end m) = Ok latest ->
  exists overlap,
    get_allowed_max_overlap np_argsort speaker_end speaker_ids m cur = Ok overlap
    /\ (forall i e,
          nth_error speaker_end i = Some e -> nth_error speaker_ids i = Some cur ->
          e <= latest - overlap)
    /\ ((exists i, nth_error speaker_end i = Some latest
                   /\ nth_error speaker_ids i = Some cur) ->
        overlap = 0).
Proof.
  intros Hcontract Hlen Hm Hmax.
  pose proof (Hcontract (pad_speaker_end speaker_end m)) as Hsort.
  rewrite (earliest_start np_argsort _ _ m cur latest Hsort Hlen Hm Hmax).
  pose proof (earliest_start_le_latest np_argsort _ _ m cur latest Hsort Hlen Hm Hmax)
    as Hupper.
  eexists. split; [reflexivity|].
  assert (Hspare : forall i e,
             nth_error speaker_end i = Some e -> nth_error speaker_ids i = Some cur ->
             e <= fold_right Z.max
                    (nth (length (sorted_ends np_argsort speaker_end m) - Z.to_nat m)
                         (sorted_ends np_argsort speaker_end m) 0)
                    (current_speaker_ends speaker_end speaker_ids cur)).
  { intros i e He Hid. apply OverlapProperties.fold_max_ge_elem.
    exact (current_speaker_ends_nth_error _ _ cur i e Hlen He Hid). }
  set (start := fold_right Z.max
                  (nth (length (sorted_ends np_argsort speaker_end m) - Z.to_nat m)
                       (sorted_ends np_argsort speaker_end m) 0)
                  (current_speaker_ends speaker_end speaker_ids cur)) in *.
  pose proof (OverlapProperties.int64_le (latest - start) ltac:(lia)) as Hwrap.
  split.
  - intros i e He Hid. specialize (Hspare i e He Hid). lia.
  - intros (i & He & Hid). specialize (Hspare i latest He Hid).
    replace (latest - start) with 0 by lia. reflexivity.
Qed.

Lemma allowed_overlap_spares_current_speaker_witness :
  exists overlap,
    get_allowed_max_overlap argsort_stable [10; 30; 25] ["a"; "b"; "a"]%string 2
      "a"%string = Ok overlap
    /\ (forall i e,
          nth_error [10; 30; 25] i = Some e ->
          nth_error ["a"; "b"; "a"]%string i = Some "a"%string ->
          e <= 30 - overlap)
    /\ ((exists i, nth_error [10; 30; 25] i = Some 30
                   /\ nth_error ["a"; "b"; "a"]%string i = Some "a"%string) ->
        overlap = 0).
Proof.
  apply (allowed_overlap_spares_current_speaker argsort_stable [10; 30; 25]
           ["a"; "b"; "a"]%string 2 "a"%string 30).
  - exact OverlapProperties.argsort_stable_is_argsort.
  - reflexivity.
  - lia.
  - reflexivity.
Defined.

(** X2.  The docstring's guarantee of [_get_valid_overlap_region]: fewer than
    [max_concurrent_spk] of the placed utterances end after
    [latest - overlap], so an utterance that starts there or later is never
    active together with [max_concurrent_spk] or more of the placed ones at
    its start. *)
Theorem allowed_overlap_bounds_concurrency (np_argsort : list Z -> list nat)
    (speaker_end : list Z) (speaker_ids : list string) (m : Z) (cur : string)
    (latest : Z) :
  (forall a, is_argsort a (np_argsort a)) ->
  length speaker_end = length speaker_ids ->
  1 <= m ->
  np_max (pad_speaker_end speaker_end m) = Ok latest ->
  exists overlap,
    get_allowed_max_overlap np_argsort speaker_end speaker_ids m cur = Ok overlap
    /\ Z.of_nat (length (filter (fun e => latest - overlap <? e) speaker_end)) < m.
Proof.
  intros Hcontract Hlen Hm Hmax.
  pose proof (Hcontract (pad_speaker_end speaker_end m)) as Hsort.
  rewrite (earliest_start np_argsort _ _ m cur latest Hsort Hlen Hm Hmax).
  pose proof (earliest_start_le_latest np_argsort _ _ m cur latest Hsort Hlen Hm Hmax)
    as Hupper.
  eexists. split; [reflexivity|].
  apply (count_after_earliest_start np_argsort speaker_end m _ Hsort Hm).
  pose proof (OverlapProperties.fold_max_ge_base
                (nth (length (sorted_ends np_argsort speaker_end m) - Z.to_nat m)
                     (sorted_ends np_argsort speaker_end m) 0)
                (current_speaker_ends speaker_end speaker_ids cur)).
  set (start := fold_right Z.max
                  (nth (length (sorted_ends np_argsort speaker_end m) - Z.to_nat m)
                       (sorted_ends np_argsort speaker_end m) 0)
                  (current_speaker_ends speaker_end speaker_ids cur)) in *.
  pose proof (OverlapProperties.int64_le (latest - start) ltac:(lia)) as Hwrap.
  lia.
Qed.

Lemma allowed_overlap_bounds_concurrency_witness :
  exists overlap,
    get_allowed_max_overlap argsort_stable [10; 30; 25] ["a"; "b"; "a"]%string 2
      "c"%string = Ok overlap
    /\ Z.of_nat (length (filter (fun e => 30 - overlap <? e) [10; 30; 25])) < 2.
Proof.
  apply (allowed_overlap_bounds_concurrency argsort_stable [10; 30; 25]
           ["a"; "b"; "a"]%string 2 "c"%string 30).
  - exact OverlapProperties.argsort_stable_is_argsort.
  - reflexivity.
  - lia.
  - reflexivity.
Defined.

(** X3.  Discounting the current speaker's own utterances only reduces the
    allowed overlap: for end times within an [int64_span], a speaker who has
    placed utterances is never allowed more overlap than a speaker who has
    none. *)
Theorem self_exclusion_only_reduces (np_argsort : list Z -> list nat)
    (speaker_end : list Z) (speaker_ids : list string) (m : Z) (cur new : string) :
  (forall a, is_argsort a (np_argsort a)) ->
  length speaker_end = length speaker_ids ->
  int64_span speaker_end ->
  1 <= m ->
  ~ In new speaker_ids ->
  exists overlap_cur overlap_new,
    get_allowed_max_overlap np_argsort speaker_end speaker_ids m cur = Ok overlap_cur
    /\ get_allowed_max_overlap np_argsort speaker_end speaker_ids m new = Ok overlap_new
    /\ overlap_cur <= overlap_new.
Proof.
  intros Hcontract Hlen Hspan Hm Hnew.
  pose proof (Hcontract (pad_speaker_end speaker_end m)) as Hsort.
  rewrite (OverlapProperties.exact_overlap_fits
             np_argsort _ _ m cur Hsort Hlen Hm Hspan).
  rewrite (OverlapProperties.exact_overlap_fits
             np_argsort _ _ m new Hsort Hlen Hm Hspan).
  rewrite (current_speaker_ends_absent _ _ new Hlen Hnew).
  eexists _, _. split; [reflexivity|]. split; [reflexivity|]. cbn [fold_right].
  pose proof (OverlapProperties.fold_max_ge_base
                (nth (length (sorted_ends np_argsort speaker_end m) - Z.to_nat m)
                     (sorted_ends np_argsort speaker_end m) 0)
                (current_speaker_ends speaker_end speaker_ids cur)).
  lia.
Qed.

Lemma self_exclusion_only_reduces_witness :
  exists overlap_cur overlap_new,
    get_allowed_max_overlap argsort_stable [10; 30; 25] ["a"; "b"; "a"]%string 3
      "a"%string = Ok overlap_cur
    /\ get_allowed_max_overlap argsort_stable [10; 30; 25] ["a"; "b"; "a"]%string 3
         "c"%string = Ok overlap_new
    /\ overlap_cur <= overlap_new.
Proof.
  apply (self_exclusion_only_reduces argsort_stable [10; 30; 25]
           ["a"; "b"; "a"]%string 3 "a"%string "c"%string).
  - exact OverlapProperties.argsort_stable_is_argsort.
  - reflexivity.
  - intros e e' He He'. cbn in He, He'. lia.
  - lia.
  - simpl. intros [H|[H|[H|[]]]]; discriminate.
Defined.

(** X4.  With [max_concurrent_spk = 1] no overlap is allowed, whatever the
    placed utterances and the current speaker are. *)
Theorem single_speaker_allows_no_overlap (np_argsort : list Z -> list nat)
    (speaker_end : list Z) (speaker_ids : list string) (cur : string) :
  (forall a, is_argsort a (np_argsort a)) ->
  length speaker_end = length speaker_ids ->
  get_allowed_max_overlap np_argsort speaker_end speaker_ids 1 cur = Ok 0.
Proof.
  intros Hcontract Hlen.
  pose proof (Hcontract (pad_speaker_end speaker_end 1)) as Hsort.
  rewrite (OverlapProperties.get_allowed_max_overlap_closed_form
             np_argsort _ _ 1 cur Hsort Hlen ltac:(lia)).
  f_equal. change (Z.to_nat 1) with 1%nat.
  set (last_end := nth (length (sorted_ends np_argsort speaker_end 1) - 1)
                       (sorted_ends np_argsort speaker_end 1) 0).
  assert (E : fold_right Z.max last_end (current_speaker_ends speaker_end speaker_ids cur)
              = last_end).
  { apply Z.le_antisymm; [|apply OverlapProperties.fold_max_ge_base].
    apply OverlapProperties.fold_max_le; [lia|]. intros x Hx.
    apply (OverlapProperties.sorted_ends_bounds np_argsort speaker_end 1 x Hsort).
    apply (OverlapProperties.current_speaker_ends_padded _ _ 1 cur x Hlen Hx). }
  rewrite E, Z.sub_diag. reflexivity.
Qed.

Lemma single_speaker_allows_no_overlap_witness :
  get_allowed_max_overlap argsort_stable [10; 30; 25] ["a"; "b"; "a"]%string 1
    "c"%string = Ok 0.
Proof.
  apply (single_speaker_allows_no_overlap argsort_stable [10; 30; 25]
           ["a"; "b"; "a"]%string "c"%string).
  - exact OverlapProperties.argsort_stable_is_argsort.
  - reflexivity.
Defined.

(** ** Ties *)

(** X27.  The order in which [np.argsort] lists tied end times does not show
    in the result: for sequences of equal length and a positive bound, two
    sorting permutations give active tails with the same end times, and
    [get_allowed_max_overlap] returns the same for both. *)
Theorem allowed_overlap_independent_of_tie_order
    (argsort1 argsort2 : list Z -> list nat)
    (speaker_end : list Z) (speaker_ids : list string) (m : Z) (cur : string) :
  (forall a, is_argsort a (argsort1 a)) ->
  (forall a, is_argsort a (argsort2 a)) ->
  length speaker_end = length speaker_ids ->
  1 <= m ->
  (exists tail_end tail_ids1 tail_ids2,
      active_tail argsort1 speaker_end speaker_ids m = Ok (tail_end, tail_ids1)
      /\ active_tail argsort2 speaker_end speaker_ids m = Ok (tail_end, tail_ids2))
  /\ get_allowed_max_overlap argsort1 speaker_end speaker_ids m cur
     = get_allowed_max_overlap argsort2 speaker_end speaker_ids m cur.
Proof.
  intros H1 H2 Hlen Hm.
  pose proof (H1 (pad_speaker_end speaker_end m)) as Ha1.
  pose proof (H2 (pad_speaker_end speaker_end m)) as Ha2.
  assert (Hsame : sorted_ends argsort1 speaker_end m = sorted_ends argsort2 speaker_end m).
  { destruct (OverlapProperties.sorted_ends_spec argsort1 speaker_end m Ha1) as [Hs1 Hp1].
    destruct (OverlapProperties.sorted_ends_spec argsort2 speaker_end m Ha2) as [Hs2 Hp2].
    apply OverlapProperties.sorted_permutation_unique; [exact Hs1|exact Hs2|].
    eapply Permutation_trans; [exact Hp1|apply Permutation_sym; exact Hp2]. }
  split.
  - destruct (OverlapProperties.active_tail_positions argsort1 speaker_end speaker_ids m
                Ha1 Hlen Hm) as (Ht1 & _ & _).
    destruct (OverlapProperties.active_tail_positions argsort2 speaker_end speaker_ids m
                Ha2 Hlen Hm) as (Ht2 & _ & _).
    eexists _, _, _. split; [exact Ht1|].
    rewrite Ht2. do 2 f_equal.
    rewrite <- !skipn_map. f_equal. symmetry. exact Hsame.
  - rewrite (OverlapProperties.get_allowed_max_overlap_closed_form argsort1 speaker_end
               speaker_ids m cur Ha1 Hlen Hm).
    rewrite (OverlapProperties.get_allowed_max_overlap_closed_form argsort2 speaker_end
               speaker_ids m cur Ha2 Hlen Hm).
    rewrite Hsame. reflexivity.
Qed.

Lemma allowed_overlap_independent_of_tie_order_witness :
  (exists tail_end tail_ids1 tail_ids2,
      active_tail argsort_stable [5; 5; 3] ["a"; "b"; "c"]%string 2
      = Ok (tail_end, tail_ids1)
      /\ active_tail argsort_reversing [5; 5; 3] ["a"; "b"; "c"]%string 2
         = Ok (tail_end, tail_ids2))
  /\ get_allowed_max_overlap argsort_stable [5; 5; 3] ["a"; "b"; "c"]%string 2 "c"%string
     = get_allowed_max_overlap argsort_reversing [5; 5; 3] ["a"; "b"; "c"]%string 2
         "c"%string.
Proof.
  apply (allowed_overlap_independent_of_tie_order argsort_stable argsort_reversing
           [5; 5; 3] ["a"; "b"; "c"]%string 2 "c"%string).
  - exact OverlapProperties.argsort_stable_is_argsort.
  - exact OverlapProperties.argsort_reversing_is_argsort.
  - reflexivity.
  - lia.
Defined.

End OverlapGuarantees.

(* ===================================================================== *)
(** * What sample_offset guarantees in every branch *)
(* ===================================================================== *)

Module SamplerGuarantees.

Import OverlapSampler.
Local Open Scope Z_scope.

(** ** The generator *)

Lemma integers_advances (low high v : Z) (g g' : Rng.Generator) :
  Rng.integers low high g = Ok (v, g') ->
  Rng.raw g' = Rng.raw g /\ Rng.cursor g' = S (Rng.cursor g).
Proof.
  unfold Rng.integers. destruct (low <? high); [|discriminate].
  cbn. intros [= _ <-]. split; reflexivity.
Qed.

Lemma integers_raises (low high : Z) (g : Rng.Generator) (e : exception) :
  Rng.integers low high g = Raise e -> e = ValueError /\ high <= low.
Proof.
  unfold Rng.integers. destruct (low <? high) eqn:E; cbn; [discriminate|].
  intros [= <-]. apply Z.ltb_ge in E. split; [reflexivity|exact E].
Qed.

(** ** One candidate shift *)

(** A candidate is a silence of the silence range or the negation of an
    overlap of the overlap range, and costs two draws. *)
Lemma sample_shift_candidate (self : UniformOverlapSampler) (g g' : Rng.Generator)
    (shift : Z) :
  _sample_shift self g = Ok (shift, g') ->
  (minimum_silence self <= shift < maximum_silence self
   \/ - maximum_overlap self < shift <= - hard_minimum_overlap self)
  /\ Rng.raw g' = Rng.raw g
  /\ Rng.cursor g' = S (S (Rng.cursor g)).
Proof.
  unfold _sample_shift, sbind, Rng.uniform01, Rng.next.
  set (g1 := {| Rng.raw := Rng.raw g; Rng.cursor := S (Rng.cursor g) |}).
  destruct (Qc_leb _ (p_silence self)).
  - intros H. pose proof (SamplerProperties.sample_silence_range self _ _ _ H) as Hr.
    apply integers_advances in H. destruct H as [Hraw Hcur].
    split; [left; exact Hr|]. split; [exact Hraw|exact Hcur].
  - unfold _sample_overlap.
    destruct (Rng.integers (hard_minimum_overlap self) (maximum_overlap self) g1)
      as [[o g2]|] eqn:E; [|discriminate].
    unfold sret. intros [= <- <-].
    pose proof (SamplerProperties.integers_range _ _ _ _ _ E) as Hr.
    apply integers_advances in E. destruct E as [Hraw Hcur].
    split; [right; lia|]. split; [exact Hraw|exact Hcur].
Qed.

Lemma sample_shift_candidate_raises (self : UniformOverlapSampler) (g : Rng.Generator)
    (e : exception) :
  _sample_shift self g = Raise e -> e = ValueError.
Proof.
  unfold _sample_shift, sbind. destruct (Rng.uniform01 g) as [u g1].
  destruct (Qc_leb u (p_silence self)).
  - intros H. apply integers_raises in H. tauto.
  - unfold _sample_overlap.
    destruct (Rng.integers (hard_minimum_overlap self) (maximum_overlap self) g1)
      as [[o g2]|e'] eqn:E; [discriminate|].
    intros [= <-]. apply integers_raises in E. tauto.
Qed.

(** ** The loop *)

Lemma rejection_loop_spec (self : UniformOverlapSampler) (maximum_overlap : Z)
    (attempts : nat) :
  forall (g g' : Rng.Generator) (accepted : option Z),
    rejection_loop self maximum_overlap attempts g = Ok (accepted, g') ->
    Rng.raw g' = Rng.raw g
    /\ (Rng.cursor g <= Rng.cursor g' <= Rng.cursor g + 2 * attempts)%nat
    /\ match accepted with
       | Some shift =>
           shift > - maximum_overlap + margin self
           /\ (minimum_silence self <= shift < maximum_silence self
               \/ - OverlapSampler.maximum_overlap self < shift
                  <= - hard_minimum_overlap self)
           /\ (Rng.cursor g + 2 <= Rng.cursor g')%nat
       | None => Rng.cursor g' = (Rng.cursor g + 2 * attempts)%nat
       end.
Proof.
  induction attempts as [|n IH]; intros g g' accepted; cbn [rejection_loop].
  - unfold sret. intros [= <- <-]. repeat split; lia.
  - unfold sbind at 1.
    destruct (_sample_shift self g) as [[c g1]|] eqn:Ec; [|discriminate].
    apply sample_shift_candidate in Ec. destruct Ec as (Hrange & Hraw & Hcur).
    destruct (c >? - maximum_overlap + margin self) eqn:E.
    + unfold sret. intros [= <- <-]. apply Z.gtb_lt in E.
      split; [exact Hraw|]. split; [lia|]. split; [lia|]. split; [exact Hrange|lia].
    + intros H. apply IH in H. destruct H as (Hraw' & Hcur' & Hacc).
      split; [congruence|]. split; [lia|].
      destruct accepted as [c'|]; [|lia].
      destruct Hacc as (Hgt & Hrange' & Hcur''). split; [exact Hgt|].
      split; [exact Hrange'|lia].
Qed.

Lemma rejection_loop_raises (self : UniformOverlapSampler) (maximum_overlap : Z)
    (attempts : nat) :
  forall (g : Rng.Generator) (e : exception),
    rejection_loop self maximum_overlap attempts g = Raise e -> e = ValueError.
Proof.
  induction attempts as [|n IH]; intros g e; cbn [rejection_loop].
  - unfold sret. discriminate.
  - unfold sbind at 1.
    destruct (_sample_shift self g) as [[c g1]|e'] eqn:Ec.
    + destruct (c >? - maximum_overlap + margin self); [unfold sret; discriminate|].
      apply IH.
    + intros [= <-]. exact (sample_shift_candidate_raises self g e' Ec).
Qed.

(** ** The four ways [sample_shift] returns *)

Lemma sample_shift_outcome (self : UniformOverlapSampler) (maximum_overlap : Z)
    (g g' : Rng.Generator) (shift : Z) (warned : bool) :
  sample_shift self maximum_overlap g = Ok ((shift, warned), g') ->
  Rng.raw g' = Rng.raw g /\ shift_outcome self maximum_overlap g shift warned g'.
Proof.
  unfold sample_shift.
  destruct (maximum_overlap <=? hard_minimum_overlap self) eqn:Ehard.
  - apply Z.leb_le in Ehard. unfold sbind, shift_no_overlap, sbind, sret.
    destruct (_sample_silence self g) as [[silence g1]|] eqn:Es; [|discriminate].
    intros [= <- <- <-].
    pose proof (SamplerProperties.sample_silence_range self _ _ _ Es) as Hr.
    apply integers_advances in Es. destruct Es as [Hraw Hcur].
    split; [exact Hraw|]. apply silence_only; try assumption; try reflexivity.
    exists silence. split; [exact Hr|reflexivity].
  - apply Z.leb_gt in Ehard.
    destruct (maximum_overlap <=? soft_minimum_overlap self) eqn:Esoft.
    + apply Z.leb_le in Esoft. unfold sret. intros [= <- <- <-].
      split; [reflexivity|]. apply largest_overlap; try assumption; reflexivity.
    + apply Z.leb_gt in Esoft. unfold sbind at 1.
      destruct (rejection_loop self maximum_overlap 100 g) as [[accepted g1]|] eqn:El;
        [|discriminate].
      apply rejection_loop_spec in El. destruct El as (Hraw & Hcur & Hacc).
      destruct accepted as [c|].
      * unfold sret. intros [= <- <- <-]. split; [exact Hraw|].
        destruct Hacc as (Hgt & Hrange & Hcur2).
        apply accepted_candidate; try assumption; try reflexivity. lia.
      * unfold sbind, shift_fallback, sret.
        destruct (_sample_silence self g1) as [[silence g2]|] eqn:Es; [|discriminate].
        intros [= <- <- <-].
        pose proof (SamplerProperties.sample_silence_range self _ _ _ Es) as Hr.
        apply integers_advances in Es. destruct Es as [Hraw2 Hcur2].
        split; [congruence|].
        apply silence_after_100; try assumption; try reflexivity. lia.
Qed.

Lemma sample_offset_inv (self : UniformOverlapSampler) (examples : Examples)
    (maximum_overlap : Z) (g g' : Rng.Generator) (offset : Z) (warned : bool) :
  sample_offset self examples maximum_overlap g = Ok ((offset, warned), g') ->
  exists latest shift,
    latest_speaker_end examples = Ok latest
    /\ sample_shift self maximum_overlap g = Ok ((shift, warned), g')
    /\ offset = int64 (latest + shift).
Proof.
  unfold sample_offset, sbind, slift, sret.
  destruct (sample_shift self maximum_overlap g) as [[[shift w] g1]|]; [|discriminate].
  destruct (latest_speaker_end examples) as [latest|]; [|discriminate].
  cbn. intros [= <- <- <-]. exists latest, shift. repeat split.
Qed.

(** In every branch the shift keeps to the allowed overlap. *)
Lemma sample_shift_lower_bound (self : UniformOverlapSampler) (maximum_overlap : Z)
    (g g' : Rng.Generator) (shift : Z) (warned : bool) :
  __post_init__ self = Ok tt ->
  0 <= maximum_overlap ->
  sample_shift self maximum_overlap g = Ok ((shift, warned), g') ->
  - maximum_overlap + margin self <= shift.
Proof.
  intros Hinit Hov H. apply SamplerProperties.post_init_inv in Hinit.
  apply sample_shift_outcome in H. destruct H as [_ H].
  destruct H as [_ _ (silence & Hs & ->) _| _ _ _ -> _|_ _ _ Hgt _ _|_ _ _ Hs _]; lia.
Qed.

(** No shift reaches [maximum_silence], and none exceeds it and the
    negated [hard_minimum_overlap]. *)
Lemma sample_shift_upper_bound (self : UniformOverlapSampler) (maximum_overlap : Z)
    (g g' : Rng.Generator) (shift : Z) (warned : bool) :
  __post_init__ self = Ok tt ->
  0 <= maximum_overlap ->
  sample_shift self maximum_overlap g = Ok ((shift, warned), g') ->
  shift < maximum_silence self \/ shift <= - hard_minimum_overlap self.
Proof.
  intros Hinit Hov H. apply SamplerProperties.post_init_inv in Hinit.
  apply sample_shift_outcome in H. destruct H as [_ H].
  destruct H as [_ _ (silence & Hs & ->) _| _ _ _ -> _|_ _ _ _ Hr _|_ _ _ Hs _]; lia.
Qed.

Lemma sample_shift_returns (self : UniformOverlapSampler) (maximum_overlap : Z)
    (g : Rng.Generator) :
  __post_init__ self = Ok tt ->
  maximum_overlap <= hard_minimum_overlap self
  \/ maximum_overlap <= soft_minimum_overlap self
  \/ hard_minimum_overlap self < OverlapSampler.maximum_overlap self ->
  exists shift warned g', sample_shift self maximum_overlap g = Ok ((shift, warned), g').
Proof.
  intros Hinit Hcase. unfold sample_shift.
  destruct (maximum_overlap <=? hard_minimum_overlap self) eqn:Ehard.
  - destruct (SamplerProperties.shift_no_overlap_spec self g Hinit)
      as (shift & g1 & Hs & _).
    unfold sbind, sret. rewrite Hs. eauto.
  - apply Z.leb_gt in Ehard.
    destruct (maximum_overlap <=? soft_minimum_overlap self) eqn:Esoft.
    + unfold sret. eauto.
    + apply Z.leb_gt in Esoft. destruct Hcase as [H|[H|Hrange]]; try lia.
      unfold sbind, sret.
      destruct (SamplerProperties.rejection_loop_returns self maximum_overlap 100
                  Hinit Hrange g) as (r & g1 & ->).
      destruct r as [shift|]; [eauto|].
      unfold shift_fallback.
      destruct (SamplerProperties.sample_silence_returns self g1 Hinit) as (v & g2 & ->).
      eauto.
Qed.

(** X5.  For a sampler that passed [__post_init__], every allowed overlap
    [maximum_overlap >= 0] and a latest end from which neither
    [maximum_silence] nor [-hard_minimum_overlap] leads beyond the largest
    [np.int64], in each of the three branches: every offset that
    [sample_offset] returns is at least
    [latest end - maximum_overlap + margin]; and it does return whenever the
    branch taken draws no overlap or the overlap range is not empty. *)
Theorem sample_offset_keeps_allowed_overlap (self : UniformOverlapSampler)
    (examples : Examples) (latest maximum_overlap : Z) (g : Rng.Generator) :
  __post_init__ self = Ok tt ->
  latest_speaker_end examples = Ok latest ->
  0 <= maximum_overlap ->
  latest + maximum_silence self <= 2 ^ 63 ->
  latest - hard_minimum_overlap self < 2 ^ 63 ->
  (forall offset warned g',
      sample_offset self examples maximum_overlap g = Ok ((offset, warned), g') ->
      latest - maximum_overlap + margin self <= offset)
  /\ (maximum_overlap <= hard_minimum_overlap self
      \/ maximum_overlap <= soft_minimum_overlap self
      \/ hard_minimum_overlap self < OverlapSampler.maximum_overlap self ->
      exists offset warned g',
        sample_offset self examples maximum_overlap g = Ok ((offset, warned), g')).
Proof.
  intros Hinit Hlatest Hov Hsilence Hoverlap. split.
  - intros offset warned g' H. apply sample_offset_inv in H.
    destruct H as (latest' & shift & Hl & Hs & ->).
    assert (latest' = latest) by congruence. subst latest'.
    pose proof (sample_shift_lower_bound self maximum_overlap g g' shift warned
                  Hinit Hov Hs) as Hlower.
    pose proof (sample_shift_upper_bound self maximum_overlap g g' shift warned
                  Hinit Hov Hs) as Hupper.
    destruct (Z.le_gt_cases (- 2 ^ 63) (latest + shift)) as [Hfit|Hbelow].
    + rewrite OverlapProperties.int64_exact by lia. lia.
    + pose proof (OverlapProperties.int64_range (latest + shift)). lia.
  - intros Hcase.
    destruct (sample_shift_returns self maximum_overlap g Hinit Hcase)
      as (shift & warned & g' & Hs).
    rewrite (SamplerProperties.sample_offset_unfold self examples latest
               maximum_overlap g Hlatest), Hs. eauto.
Qed.

Lemma sample_offset_keeps_allowed_overlap_witness :
  (forall offset warned g',
      sample_offset meeting_sampler two_turns 3 stubborn_generator
        = Ok ((offset, warned), g') ->
      30 - 3 + margin meeting_sampler <= offset)
  /\ (3 <= hard_minimum_overlap meeting_sampler
      \/ 3 <= soft_minimum_overlap meeting_sampler
      \/ hard_minimum_overlap meeting_sampler < maximum_overlap meeting_sampler ->
      exists offset warned g',
        sample_offset meeting_sampler two_turns 3 stubborn_generator
          = Ok ((offset, warned), g')).
Proof.
  apply (sample_offset_keeps_allowed_overlap meeting_sampler two_turns 30 3
           stubborn_generator).
  - reflexivity.
  - reflexivity.
  - lia.
  - simpl. lia.
  - simpl. lia.
Defined.

(** X6.  For a sampler that passed [__post_init__] with non-negative
    [hard_minimum_overlap] and [margin], every allowed overlap
    [maximum_overlap >= 0], and a latest end from which the configured
    maximum overlap and maximum silence do not lead out of the [np.int64]
    range: the offset returned lies in
    [[latest end - self.maximum_overlap, latest end + maximum_silence)], so the
    configured maximum overlap and maximum silence are never exceeded; and
    when the warning is issued the offset is a silence of at least
    [minimum_silence]. *)
Theorem sample_offset_within_configured_range (self : UniformOverlapSampler)
    (examples : Examples) (latest maximum_overlap : Z) (g g' : Rng.Generator)
    (offset : Z) (warned : bool) :
  __post_init__ self = Ok tt ->
  0 <= hard_minimum_overlap self ->
  0 <= margin self ->
  0 <= maximum_overlap ->
  latest_speaker_end examples = Ok latest ->
  - 2 ^ 63 <= latest - OverlapSampler.maximum_overlap self ->
  latest + maximum_silence self <= 2 ^ 63 ->
  sample_offset self examples maximum_overlap g = Ok ((offset, warned), g') ->
  latest - OverlapSampler.maximum_overlap self <= offset
  < latest + maximum_silence self
  /\ (warned = true -> latest + minimum_silence self <= offset).
Proof.
  intros Hinit Hhard Hmargin Hov Hlatest Hlow Hhigh H.
  apply SamplerProperties.post_init_inv in Hinit.
  apply sample_offset_inv in H. destruct H as (latest' & shift & Hl & Hs & ->).
  assert (latest' = latest) by congruence. subst latest'.
  apply sample_shift_outcome in Hs. destruct Hs as [_ Hs].
  assert (Hfit : latest - OverlapSampler.maximum_overlap self <= latest + shift
                 < latest + maximum_silence self).
  { destruct Hs as [Hh Hw (silence & Hs & ->) _|Hh Hso Hw -> _|Hh Hso Hw _ Hr _
                   |Hh Hso _ Hs _]; lia. }
  rewrite OverlapProperties.int64_exact by lia.
  destruct Hs as [Hh Hw (silence & Hs & ->) _|Hh Hso Hw -> _|Hh Hso Hw _ Hr _
                 |Hh Hso _ Hs _].
  - split; [lia|]. rewrite Hw. discriminate.
  - split; [lia|]. rewrite Hw. discriminate.
  - split; [lia|]. rewrite Hw. discriminate.
  - split; [lia|]. intros _. lia.
Qed.

Lemma sample_offset_within_configured_range_witness :
  30 - maximum_overlap meeting_sampler <= 32 < 30 + maximum_silence meeting_sampler
  /\ (true = true -> 30 + minimum_silence meeting_sampler <= 32).
Proof.
  apply (sample_offset_within_configured_range meeting_sampler two_turns 30 50
           stubborn_generator
           (Rng.mkGenerator (Rng.raw stubborn_generator) 201) 32 true).
  - reflexivity.
  - simpl. lia.
  - simpl. lia.
  - lia.
  - reflexivity.
  - simpl. lia.
  - simpl. lia.
  - vm_compute. reflexivity.
Defined.

(** X7.  A call of [sample_offset] that returns reads at most 201 draws of the
    generator and leaves its stream unchanged; it issues the warning exactly
    when it read 201 draws (two per rejected attempt and one for the
    fallback); and in the branch [hard_minimum_overlap < maximum_overlap <=
    soft_minimum_overlap] it reads none. *)
Theorem sample_offset_draws (self : UniformOverlapSampler) (examples : Examples)
    (maximum_overlap : Z) (g g' : Rng.Generator) (offset : Z) (warned : bool) :
  sample_offset self examples maximum_overlap g = Ok ((offset, warned), g') ->
  Rng.raw g' = Rng.raw g
  /\ (Rng.cursor g <= Rng.cursor g' <= Rng.cursor g + 201)%nat
  /\ (warned = true <-> Rng.cursor g' = (Rng.cursor g + 201)%nat)
  /\ (hard_minimum_overlap self < maximum_overlap ->
      maximum_overlap <= soft_minimum_overlap self -> g' = g).
Proof.
  intros H. apply sample_offset_inv in H. destruct H as (latest & shift & _ & Hs & _).
  apply sample_shift_outcome in Hs. destruct Hs as [Hraw Hs].
  split; [exact Hraw|].
  destruct Hs as [Hh Hw _ Hc| _ _ Hw _ ->|Hh Hso Hw _ _ Hc|Hh Hso Hw _ Hc].
  - split; [lia|]. split; [rewrite Hw; split; [discriminate|lia]|]. intros; lia.
  - split; [lia|]. split; [rewrite Hw; split; [discriminate|lia]|]. reflexivity.
  - split; [lia|]. split; [rewrite Hw; split; [discriminate|lia]|]. intros; lia.
  - split; [lia|]. split; [rewrite Hw; split; [intros; exact Hc|reflexivity]|].
    intros; lia.
Qed.

Lemma sample_offset_draws_witness :
  Rng.raw (Rng.mkGenerator (Rng.raw stubborn_generator) 201) = Rng.raw stubborn_generator
  /\ (Rng.cursor stubborn_generator
      <= Rng.cursor (Rng.mkGenerator (Rng.raw stubborn_generator) 201)
      <= Rng.cursor stubborn_generator + 201)%nat
  /\ (true = true
      <-> Rng.cursor (Rng.mkGenerator (Rng.raw stubborn_generator) 201)
          = (Rng.cursor stubborn_generator + 201)%nat)
  /\ (hard_minimum_overlap meeting_sampler < 50 ->
      50 <= soft_minimum_overlap meeting_sampler ->
      Rng.mkGenerator (Rng.raw stubborn_generator) 201 = stubborn_generator).
Proof.
  apply (sample_offset_draws meeting_sampler two_turns 50 stubborn_generator
           (Rng.mkGenerator (Rng.raw stubborn_generator) 201) (30 + 2) true).
  vm_compute. reflexivity.
Defined.

(** X8.  [__post_init__] accepts [hard_minimum_overlap = maximum_overlap],
    but then the overlap range [[hard_minimum_overlap, maximum_overlap)] is
    empty: whenever the rejection sampling is entered and the first uniform
    draw exceeds [p_silence], [sample_offset] raises [ValueError]. *)
Theorem sample_offset_empty_overlap_range (self : UniformOverlapSampler)
    (examples : Examples) (maximum_overlap : Z) (g : Rng.Generator) :
  __post_init__ self = Ok tt ->
  hard_minimum_overlap self = OverlapSampler.maximum_overlap self ->
  hard_minimum_overlap self < maximum_overlap ->
  soft_minimum_overlap self < maximum_overlap ->
  Qc_leb (fst (Rng.uniform01 g)) (p_silence self) = false ->
  sample_offset self examples maximum_overlap g = Raise ValueError.
Proof.
  intros _ Hempty Hhard Hsoft Hu.
  unfold sample_offset, sample_shift.
  replace (maximum_overlap <=? hard_minimum_overlap self) with false
    by (symmetry; apply Z.leb_gt; exact Hhard).
  replace (maximum_overlap <=? soft_minimum_overlap self) with false
    by (symmetry; apply Z.leb_gt; exact Hsoft).
  change 100%nat with (S 99). cbn [rejection_loop].
  unfold sbind at 1 2 3. unfold _sample_shift at 1. unfold sbind at 1.
  destruct (Rng.uniform01 g) as [u g1]. cbn [fst] in Hu. rewrite Hu.
  unfold sbind at 1. unfold _sample_overlap, Rng.integers.
  replace (hard_minimum_overlap self <? OverlapSampler.maximum_overlap self) with false
    by (symmetry; apply Z.ltb_ge; lia).
  reflexivity.
Qed.

Lemma sample_offset_empty_overlap_range_witness :
  sample_offset empty_range_sampler two_turns 50 stubborn_generator = Raise ValueError.
Proof.
  apply (sample_offset_empty_overlap_range empty_range_sampler two_turns 50
           stubborn_generator).
  - reflexivity.
  - reflexivity.
  - simpl. lia.
  - simpl. lia.
  - vm_compute. reflexivity.
Defined.

End SamplerGuarantees.

(* ===================================================================== *)
(** * What OverlapSampler.__call__ guarantees *)
(* ===================================================================== *)

Module CallGuarantees.

Import OverlapSampler.
Local Open Scope Z_scope.

Lemma sample_shift_raises (self : UniformOverlapSampler) (maximum_overlap : Z)
    (g : Rng.Generator) (e : exception) :
  sample_shift self maximum_overlap g = Raise e -> e = ValueError.
Proof.
  unfold sample_shift.
  destruct (maximum_overlap <=? hard_minimum_overlap self).
  - unfold sbind, shift_no_overlap, sbind, sret.
    destruct (_sample_silence self g) as [[silence g1]|e'] eqn:Es; [discriminate|].
    intros [= <-]. apply SamplerGuarantees.integers_raises in Es. tauto.
  - destruct (maximum_overlap <=? soft_minimum_overlap self); [unfold sret; discriminate|].
    unfold sbind at 1.
    destruct (rejection_loop self maximum_overlap 100 g) as [[accepted g1]|e'] eqn:El.
    + destruct accepted as [c|]; [unfold sret; discriminate|].
      unfold sbind, shift_fallback, sret.
      destruct (_sample_silence self g1) as [[silence g2]|e''] eqn:Es; [discriminate|].
      intros [= <-]. apply SamplerGuarantees.integers_raises in Es. tauto.
    + intros [= <-]. exact (SamplerGuarantees.rejection_loop_raises _ _ _ _ _ El).
Qed.

(** Padding with zeros does not change the latest end of non-negative ends. *)
Lemma np_max_padded (speaker_end : list Z) (m latest : Z) :
  np_max speaker_end = Ok latest ->
  Forall (fun e => 0 <= e) speaker_end ->
  np_max (pad_speaker_end speaker_end m) = Ok latest.
Proof.
  intros Hmax Hnonneg.
  destruct (OverlapGuarantees.np_max_spec _ _ Hmax) as [Hin Hle].
  rewrite Forall_forall in Hnonneg.
  assert (Hne : pad_speaker_end speaker_end m <> []).
  { unfold pad_speaker_end. destruct speaker_end; [destruct Hin|discriminate]. }
  destruct (OverlapGuarantees.np_max_returns _ Hne) as (M & HM).
  rewrite HM. f_equal.
  destruct (OverlapGuarantees.np_max_spec _ _ HM) as [HinM HleM].
  apply Z.le_antisymm.
  - unfold pad_speaker_end in HinM. apply in_app_or in HinM.
    destruct HinM as [H|H]; [apply Hle; exact H|].
    apply repeat_spec in H. subst M. apply Hnonneg. exact Hin.
  - apply HleM. unfold pad_speaker_end. apply in_or_app. left. exact Hin.
Qed.

Lemma np_add_range (a b ends : list Z) :
  np_add a b = Ok ends -> Forall (fun e => - 2 ^ 63 <= e < 2 ^ 63) ends.
Proof.
  unfold np_add. intros H.
  assert (Hmap : forall (A : Type) (f : A -> Z) (l : list A),
             Forall (fun e => - 2 ^ 63 <= e < 2 ^ 63) (map (fun x => int64 (f x)) l)).
  { intros A f l. apply Forall_forall. intros e He. apply in_map_iff in He.
    destruct He as (x & <- & _). apply OverlapProperties.int64_range. }
  destruct (length a =? length b)%nat.
  - injection H as <-. apply (Hmap _ (fun p => fst p + snd p)).
  - destruct a as [|x [|x' a]].
    + destruct b as [|y [|y' b]]; try discriminate.
      injection H as <-. constructor.
    + injection H as <-. apply (Hmap _ (fun y => x + y)).
    + destruct b as [|y [|y' b]]; try discriminate.
      injection H as <-. exact (Hmap Z (fun x0 => x0 + y) (x :: x' :: a)).
Qed.

(** X9.  [sample_offset] cannot place an utterance after an empty history:
    when [examples] holds no offset, the call raises [ValueError], for every
    sampler, every allowed overlap and every generator. *)
Theorem sample_offset_raises_on_empty_history (self : UniformOverlapSampler)
    (examples : Examples) (maximum_overlap : Z) (g : Rng.Generator) :
  offset_original_source examples = [] ->
  sample_offset self examples maximum_overlap g = Raise ValueError.
Proof.
  intros Hempty.
  assert (Hlatest : latest_speaker_end examples = Raise ValueError).
  { unfold latest_speaker_end, np_add. rewrite Hempty.
    destruct (num_samples_observation examples) as [|y [|y' l]]; reflexivity. }
  unfold sample_offset, sbind, slift. rewrite Hlatest.
  destruct (sample_shift self maximum_overlap g) as [[sw g1]|e] eqn:Es.
  - reflexivity.
  - f_equal. exact (sample_shift_raises _ _ _ _ Es).
Qed.

Lemma sample_offset_raises_on_empty_history_witness :
  sample_offset meeting_sampler empty_history 0 stubborn_generator = Raise ValueError.
Proof.
  apply (sample_offset_raises_on_empty_history meeting_sampler empty_history 0
           stubborn_generator).
  reflexivity.
Defined.

(** X10.  The guarantee of a whole call.  For a sampler that passed
    [__post_init__] with a positive [max_concurrent_spk] and a non-negative
    [margin], and a history that [collate_fn] returns with one speaker id for
    each placed utterance and with ends [offset + num_samples] that are not
    negative and from which neither [maximum_silence] nor
    [-hard_minimum_overlap] leads beyond the largest [np.int64]: every offset
    that [__call__] returns lies at least [margin] after the end of every
    utterance of the current speaker, and fewer than [max_concurrent_spk]
    placed utterances end after [offset - margin]; and with a non-empty
    history and overlap range [__call__] does return. *)
Theorem call_respects_concurrency (np_argsort : list Z -> list nat)
    (uncollated : Type) (collate_fn : uncollated -> result Examples)
    (self : UniformOverlapSampler) (uncollated_examples : uncollated)
    (examples : Examples) (speaker_end : list Z) (cur : string) (g : Rng.Generator) :
  (forall a, is_argsort a (np_argsort a)) ->
  __post_init__ self = Ok tt ->
  1 <= max_concurrent_spk self ->
  0 <= margin self ->
  collate_fn uncollated_examples = Ok examples ->
  np_add (offset_original_source examples) (num_samples_observation examples)
    = Ok speaker_end ->
  length speaker_end = length (speaker_id examples) ->
  Forall (fun e => 0 <= e
                   /\ e + maximum_silence self <= 2 ^ 63
                   /\ e - hard_minimum_overlap self < 2 ^ 63) speaker_end ->
  (forall offset warned g',
      __call__ np_argsort collate_fn self uncollated_examples cur g
      = Ok ((offset, warned), g') ->
      (forall i e,
          nth_error speaker_end i = Some e ->
          nth_error (speaker_id examples) i = Some cur ->
          e + margin self <= offset)
      /\ Z.of_nat (length (filter (fun e => offset - margin self <? e) speaker_end))
         < max_concurrent_spk self)
  /\ (speaker_end <> [] ->
      hard_minimum_overlap self < maximum_overlap self ->
      exists offset warned g',
        __call__ np_argsort collate_fn self uncollated_examples cur g
        = Ok ((offset, warned), g')).
Proof.
  intros Hcontract Hinit Hm Hmargin Hcollate Hends Hlen Hbounds.
  set (m := max_concurrent_spk self) in *.
  pose proof (Hcontract (pad_speaker_end speaker_end m)) as Hsort.
  assert (Hnonneg : Forall (fun e => 0 <= e) speaker_end).
  { eapply Forall_impl; [|exact Hbounds]. cbn. intros e He. lia. }
  pose proof (np_add_range _ _ _ Hends) as Hrange.
  rewrite Forall_forall in Hbounds, Hrange.
  set (start := fold_right Z.max
                  (nth (length (sorted_ends np_argsort speaker_end m) - Z.to_nat m)
                       (sorted_ends np_argsort speaker_end m) 0)
                  (current_speaker_ends speaker_end (speaker_id examples) cur)).
  assert (Hlatest : forall latest, np_max speaker_end = Ok latest ->
            latest_speaker_end examples = Ok latest
            /\ get_allowed_max_overlap np_argsort speaker_end (speaker_id examples) m cur
               = Ok (latest - start)
            /\ 0 <= start <= latest
            /\ latest + maximum_silence self <= 2 ^ 63
            /\ latest - hard_minimum_overlap self < 2 ^ 63).
  { intros latest Hmax.
    pose proof (np_max_padded speaker_end m latest Hmax Hnonneg) as Hpad.
    destruct (OverlapGuarantees.np_max_spec _ _ Hmax) as [Hin _].
    pose proof (OverlapGuarantees.earliest_start_le_latest np_argsort _ _ m cur latest
                  Hsort Hlen Hm Hpad) as Hupper.
    fold start in Hupper.
    assert (Hlower : 0 <= start).
    { destruct (OverlapProperties.exact_overlap_spec np_argsort speaker_end
                  (speaker_id examples) m cur Hsort Hlen Hm) as (_ & _ & Hkth).
      fold start in Hkth. apply OverlapProperties.pad_speaker_end_In in Hkth.
      destruct Hkth as [<-|Hkth]; [lia|].
      rewrite Forall_forall in Hnonneg. apply Hnonneg. exact Hkth. }
    split; [unfold latest_speaker_end; rewrite Hends; exact Hmax|]. split.
    - rewrite (OverlapGuarantees.earliest_start np_argsort _ _ m cur latest
                 Hsort Hlen Hm Hpad).
      fold start. f_equal. apply OverlapProperties.int64_exact.
      pose proof (Hrange latest Hin). lia.
    - pose proof (Hbounds latest Hin). lia. }
  split.
  - intros offset warned g' H.
    unfold __call__, _get_valid_overlap_region, sbind, slift in H.
    rewrite Hcollate, Hends in H. cbn [Py.bind] in H. fold m in H.
    destruct (get_allowed_max_overlap np_argsort speaker_end (speaker_id examples) m cur)
      as [overlap|] eqn:Eov; [|discriminate].
    apply SamplerGuarantees.sample_offset_inv in H.
    destruct H as (latest & shift & Hl & Hs & ->).
    unfold latest_speaker_end in Hl. rewrite Hends in Hl. cbn [Py.bind] in Hl.
    destruct (Hlatest latest Hl) as (_ & Hov & Hstart & Hsil & Hovl).
    assert (Eo : overlap = latest - start) by congruence. subst overlap.
    assert (Hnn : 0 <= latest - start) by lia.
    pose proof (SamplerGuarantees.sample_shift_lower_bound self (latest - start) g g'
                  shift warned Hinit Hnn Hs) as Hshift.
    pose proof (SamplerGuarantees.sample_shift_upper_bound self (latest - start) g g'
                  shift warned Hinit Hnn Hs) as Hshift'.
    rewrite OverlapProperties.int64_exact by lia.
    split.
    + intros i e He Hid.
      pose proof (OverlapGuarantees.current_speaker_ends_nth_error
                    _ _ cur i e Hlen He Hid) as Hin.
      pose proof (OverlapProperties.fold_max_ge_elem
                    (nth (length (sorted_ends np_argsort speaker_end m) - Z.to_nat m)
                         (sorted_ends np_argsort speaker_end m) 0) _ e Hin) as H.
      fold start in H. lia.
    + apply (OverlapGuarantees.count_after_earliest_start np_argsort speaker_end m _
               Hsort Hm).
      pose proof (OverlapProperties.fold_max_ge_base
                    (nth (length (sorted_ends np_argsort speaker_end m) - Z.to_nat m)
                         (sorted_ends np_argsort speaker_end m) 0)
                    (current_speaker_ends speaker_end (speaker_id examples) cur)) as H.
      fold start in H. lia.
  - intros Hne Hoverlap_range.
    destruct (OverlapGuarantees.np_max_returns speaker_end Hne) as (latest & Hmax).
    destruct (Hlatest latest Hmax) as (Hl & Hov & _).
    unfold __call__, _get_valid_overlap_region, sbind, slift.
    rewrite Hcollate, Hends. cbn [Py.bind]. fold m. rewrite Hov.
    destruct (SamplerGuarantees.sample_shift_returns self (latest - start) g Hinit
                (or_intror (or_intror Hoverlap_range))) as (shift & warned & g' & Hs).
    rewrite (SamplerProperties.sample_offset_unfold self examples latest _ g Hl), Hs.
    eauto.
Qed.

Lemma call_respects_concurrency_witness :
  (forall offset warned g',
      __call__ argsort_stable (fun examples : Examples => Ok examples) meeting_sampler
        three_turns "a"%string stubborn_generator
      = Ok ((offset, warned), g') ->
      (forall i e,
          nth_error [10; 30; 25] i = Some e ->
          nth_error (speaker_id three_turns) i = Some "a"%string ->
          e + margin meeting_sampler <= offset)
      /\ Z.of_nat (length (filter (fun e => offset - margin meeting_sampler <? e)
                                  [10; 30; 25]))
         < max_concurrent_spk meeting_sampler)
  /\ ([10; 30; 25] <> [] ->
      hard_minimum_overlap meeting_sampler < maximum_overlap meeting_sampler ->
      exists offset warned g',
        __call__ argsort_stable (fun examples : Examples => Ok examples) meeting_sampler
          three_turns "a"%string stubborn_generator
        = Ok ((offset, warned), g')).
Proof.
  apply (call_respects_concurrency argsort_stable Examples
           (fun examples : Examples => Ok examples) meeting_sampler three_turns
           three_turns [10; 30; 25] "a"%string stubborn_generator).
  - exact OverlapProperties.argsort_stable_is_argsort.
  - reflexivity.
  - simpl. lia.
  - simpl. lia.
  - reflexivity.
  - reflexivity.
  - reflexivity.
  - repeat constructor; simpl; lia.
Defined.

End CallGuarantees.

(* ===================================================================== *)
(** * More on the onset detection *)
(* ===================================================================== *)

Module OnsetGuarantees.

Import Reverberant.

Lemma for_each_ok {A B : Type} (f : A -> result B) (l : list A) :
  (forall x, In x l -> exists y, f x = Ok y) ->
  exists ys, for_each f l = Ok ys /\ Forall2 (fun x y => f x = Ok y) l ys.
Proof.
  induction l as [|x l IH]; intros H; cbn.
  - exists []. split; [reflexivity|constructor].
  - destruct (H x (or_introl eq_refl)) as (y & Hy).
    destruct IH as (ys & Hys & Hall); [intros z Hz; apply H; right; exact Hz|].
    exists (y :: ys). rewrite Hy. cbn. rewrite Hys. cbn.
    split; [reflexivity|constructor; assumption].
Qed.

Lemma fold_left_min_spec (l : list nat) :
  forall x,
    In (fold_left Nat.min l x) (x :: l)
    /\ forall y, In y (x :: l) -> (fold_left Nat.min l x <= y)%nat.
Proof.
  induction l as [|z l IH]; intros x; cbn [fold_left].
  - split; [left; reflexivity|]. intros y [<-|[]]. lia.
  - destruct (IH (Nat.min x z)) as [Hin Hle]. split.
    + destruct Hin as [Hin|Hin]; [|right; right; exact Hin].
      rewrite <- Hin.
      destruct (Nat.min_spec x z) as [[_ E]|[_ E]]; rewrite E.
      * left; reflexivity.
      * right; left; reflexivity.
    + intros y [<-|[<-|Hy]].
      * etransitivity; [apply Hle; left; reflexivity|apply Nat.le_min_l].
      * etransitivity; [apply Hle; left; reflexivity|apply Nat.le_min_r].
      * apply Hle. right. exact Hy.
Qed.

(** X11.  With a channel dimension of fewer than 20 channels, each of which
    has a non-zero sample, [get_rir_start_sample] returns the smallest of the
    onsets that it finds for the channels one by one. *)
Theorem get_rir_start_sample_earliest_channel (level_ratio : Qc)
    (rows : list (list Qc)) :
  (level_ratio < 1)%Qc ->
  rows <> [] ->
  (length rows < 20)%nat ->
  (forall row, In row rows -> exists x, In x row /\ x <> 0%Qc) ->
  exists starts onset,
    Forall2 (fun row st => get_rir_start_sample level_ratio (Arr1 row) = Ok st)
            rows starts
    /\ get_rir_start_sample level_ratio (Arr2 rows) = Ok onset
    /\ In onset starts
    /\ Forall (fun st => (onset <= st)%nat) starts.
Proof.
  intros Hlevel Hne Hlen Hnz.
  pose proof (proj2 (OnsetProperties.Qc_ltb_true level_ratio 1%Qc) Hlevel) as Hb.
  assert (Hrow : forall row, In row rows ->
            exists st, (assert_ (Qc_ltb level_ratio 1%Qc) ;;;
                        rir_start_sample_1d level_ratio row)%py = Ok st).
  { intros row Hin. rewrite Hb. cbn.
    assert (Hrow_ne : row <> []).
    { destruct (Hnz row Hin) as (x & Hx & _). intros E. rewrite E in Hx. destruct Hx. }
    destruct (OnsetProperties.rir_start_sample_1d_spec level_ratio row Hrow_ne)
      as (_ & onset & _ & Hrun & _).
    exists onset. exact Hrun. }
  destruct (for_each_ok _ rows Hrow) as (starts & Hstarts & Hall).
  assert (Hstarts_ne : starts <> []).
  { intros E. subst starts. inversion Hall. subst. congruence. }
  destruct starts as [|st0 starts]; [congruence|].
  destruct (fold_left_min_spec starts st0) as [Hin Hle].
  exists (st0 :: starts), (fold_left Nat.min starts st0).
  split; [|split; [|split]].
  - exact Hall.
  - unfold get_rir_start_sample. rewrite Hb at 1. cbn [assert_ Py.bind].
    replace (length rows <? 20)%nat with true by (symmetry; apply Nat.ltb_lt; exact Hlen).
    cbn [assert_ Py.bind]. rewrite Hstarts. reflexivity.
  - exact Hin.
  - apply Forall_forall. exact Hle.
Qed.

Lemma get_rir_start_sample_earliest_channel_witness :
  exists starts onset,
    Forall2 (fun row st => get_rir_start_sample float_1e_1 (Arr1 row) = Ok st)
            [docstring_rir; [0%Qc; 1%Qc]] starts
    /\ get_rir_start_sample float_1e_1 (Arr2 [docstring_rir; [0%Qc; 1%Qc]]) = Ok onset
    /\ In onset starts
    /\ Forall (fun st => (onset <= st)%nat) starts.
Proof.
  apply (get_rir_start_sample_earliest_channel float_1e_1
           [docstring_rir; [0%Qc; 1%Qc]]).
  - reflexivity.
  - discriminate.
  - simpl. lia.
  - intros row [<-|[<-|[]]]; exists 1%Qc; (split; [simpl; tauto|discriminate]).
Defined.

Lemma Qcabs_zero : Qcabs 0%Qc = 0%Qc.
Proof. apply Qcabs_pos. apply Qcle_refl. Qed.

Lemma argmax_from_no_larger (l : list Qc) (best : Qc) (best_index next_index : nat) :
  (forall y, In y l -> Qc_gtb y best = false) ->
  argmax_from best best_index next_index l = best_index.
Proof.
  revert next_index. induction l as [|y l IH]; intros next_index H; cbn; [reflexivity|].
  rewrite (H y (or_introl eq_refl)). apply IH. intros z Hz. apply H. right. exact Hz.
Qed.

(** X12.  Edge cases of [get_rir_start_sample]: a [level_ratio] of 1 or more
    fails the assertion for every array; with [level_ratio < 1] an array
    without samples or without channels raises [ValueError]; and a non-empty
    impulse response that is zero throughout yields onset 0. *)
Theorem get_rir_start_sample_edge_cases :
  (forall level_ratio h,
      (1 <= level_ratio)%Qc ->
      get_rir_start_sample level_ratio h = Raise AssertionError)
  /\ (forall level_ratio,
        (level_ratio < 1)%Qc ->
        get_rir_start_sample level_ratio (Arr1 []) = Raise ValueError
        /\ get_rir_start_sample level_ratio (Arr2 []) = Raise ValueError)
  /\ (forall level_ratio n,
        (level_ratio < 1)%Qc ->
        get_rir_start_sample level_ratio (Arr1 (repeat 0%Qc (S n))) = Ok 0%nat).
Proof.
  split; [|split].
  - intros level_ratio h Hlevel. unfold get_rir_start_sample.
    replace (Qc_ltb level_ratio 1%Qc) with false; [reflexivity|].
    symmetry. apply OnsetProperties.Qc_gtb_false. exact Hlevel.
  - intros level_ratio Hlevel. apply OnsetProperties.Qc_ltb_true in Hlevel.
    unfold get_rir_start_sample. rewrite Hlevel. split; reflexivity.
  - intros level_ratio n Hlevel. apply OnsetProperties.Qc_ltb_true in Hlevel.
    unfold get_rir_start_sample, rir_start_sample_1d. rewrite Hlevel.
    cbn [assert_ Py.bind repeat map np_argmax]. rewrite Qcabs_zero.
    rewrite argmax_from_no_larger.
    + cbn [getitem]. cbn. rewrite OnsetProperties.float_mul_0_r. reflexivity.
    + intros y Hy. apply in_map_iff in Hy. destruct Hy as (x & <- & Hx).
      apply repeat_spec in Hx. subst x. rewrite Qcabs_zero. reflexivity.
Qed.

Lemma get_rir_start_sample_edge_cases_witness :
  get_rir_start_sample 1%Qc (Arr1 docstring_rir) = Raise AssertionError.
Proof.
  apply (proj1 get_rir_start_sample_edge_cases 1%Qc (Arr1 docstring_rir)).
  apply Qcle_refl.
Defined.




End OnsetGuarantees.

(* ===================================================================== *)
(** * More on the convolution *)
(* ===================================================================== *)

Module ConvolutionGuarantees.

Import Reverberant.

Lemma padd_length (a b : list Qc) :
  length (padd a b) = Nat.max (length a) (length b).
Proof.
  revert b. induction a as [|x a IH]; intros [|y b]; cbn; try reflexivity.
  rewrite IH. reflexivity.
Qed.

Lemma convolve_rec_length (s h : list Qc) :
  s <> [] -> h <> [] ->
  length (convolve_rec s h) = (length s + length h - 1)%nat.
Proof.
  intros Hs Hh. induction s as [|x s IH]; [congruence|].
  cbn [convolve_rec]. rewrite padd_length, length_map. cbn [length].
  destruct s as [|y s].
  - cbn. destruct h; [congruence|]. cbn. lia.
  - rewrite IH by discriminate. cbn [length]. lia.
Qed.

Lemma fftconvolve_length (s h : list Qc) :
  s <> [] -> h <> [] ->
  length (fftconvolve s h) = (length s + length h - 1)%nat.
Proof.
  intros Hs Hh. unfold fftconvolve.
  destruct s as [|x s]; [congruence|]. destruct h as [|y h]; [congruence|].
  apply convolve_rec_length; discriminate.
Qed.

(** X14.  The length of a convolved signal.  Whenever [_convolve] returns
    for a non-empty source and an impulse response of positive length, the
    result has [len(s) + rir_length - 1] samples (per channel, when the
    impulse response has channels). *)
Theorem convolve_length (s : list Qc) (h_k c : ndarray) :
  s <> [] ->
  (0 < last_dim h_k)%Z ->
  _convolve s h_k = Ok c ->
  last_dim c = (Z.of_nat (length s) + last_dim h_k - 1)%Z
  /\ match h_k, c with
     | Arr2 rows, Arr2 out =>
         Forall2 (fun row x => length x = (length s + length row - 1)%nat
                               \/ row = []) rows out
     | Arr1 _, Arr1 _ => True
     | _, _ => False
     end.
Proof.
  intros Hs Hpos H. destruct h_k as [h|rows]; unfold _convolve in H.
  - injection H as <-. unfold last_dim in *. split; [|exact I].
    destruct h as [|y h]; [cbn in Hpos; lia|].
    rewrite fftconvolve_length by (exact Hs || discriminate).
    cbn [length]. lia.
  - destruct s as [|x s]; [congruence|].
    destruct rows as [|row rows]; [discriminate|].
    destruct row as [|y row]; [discriminate|].
    assert (Hc : c = Arr2 (map (fftconvolve (x :: s)) ((y :: row) :: rows)))
      by congruence.
    clear H. subst c. unfold last_dim. split.
    + change (hd [] (map (fftconvolve (x :: s)) ((y :: row) :: rows)))
        with (fftconvolve (x :: s) (y :: row)).
      change (hd [] ((y :: row) :: rows)) with (y :: row).
      rewrite fftconvolve_length by discriminate. cbn [length]. lia.
    + generalize ((y :: row) :: rows) as all_rows.
      induction all_rows as [|r all_rows IH]; cbn [map]; constructor; [|exact IH].
      destruct r as [|z r]; [right; reflexivity|left].
      apply fftconvolve_length; discriminate.
Qed.

Lemma convolve_length_witness :
  last_dim (Arr1 (fftconvolve [q 1 1; q 2 1; q 3 1] docstring_rir))
  = (Z.of_nat (length [q 1 1; q 2 1; q 3 1]) + last_dim (Arr1 docstring_rir) - 1)%Z
  /\ True.
Proof.
  apply (convolve_length [q 1 1; q 2 1; q 3 1] (Arr1 docstring_rir)
           (Arr1 (fftconvolve [q 1 1; q 2 1; q 3 1] docstring_rir))).
  - discriminate.
  - reflexivity.
  - reflexivity.
Defined.

(** ** A pure delay *)







End ConvolutionGuarantees.

(* ===================================================================== *)
(** * What a successful run of the scenario function records *)
(* ===================================================================== *)

Module ScenarioGuarantees.

Import Reverberant.
Import SynthesisProperties.

Lemma last_dim_scale_array (x : ndarray) (c : Qc) :
  last_dim (scale_array x c) = last_dim x.
Proof.
  destruct x as [v|rows]; cbn.
  - rewrite length_map. reflexivity.
  - destruct rows as [|row rows]; cbn; [reflexivity|]. rewrite length_map. reflexivity.
Qed.

Lemma apply_scale_nth_error (scale : list Qc) (x : list ndarray) (k : nat) (y : ndarray) :
  nth_error (apply_scale scale x) k = Some y ->
  exists x_k c, nth_error x k = Some x_k /\ y = scale_array x_k c.
Proof.
  unfold apply_scale. revert scale k.
  induction x as [|a x IH]; intros scale k H.
  - destruct k; discriminate.
  - destruct scale as [|c scale]; [destruct k; discriminate|].
    destruct k as [|k]; cbn in H.
    + injection H as <-. exists a, c. split; reflexivity.
    + exact (IH scale k H).
Qed.

(** X16.  A run that returns has found one entry per speaker everywhere:
    the sources, the RIRs it convolved, the source lengths and the offsets it
    stored all have as many entries as [speaker_id]. *)
Theorem scenario_counts_agree (sparse dense : Type)
    (pad_sparse : list ndarray -> list Z -> list Z -> result (list sparse))
    (get_scale : list Qc -> list ndarray -> result (list Qc))
    (sum_padded : list sparse -> list Z -> result dense)
    (default_rng : Rng.Generator) (example : Example)
    (normalize_sources add_speech_reverberation_early
     add_speech_reverberation_tail compensate_time_of_flight : bool)
    (early_rir_samples : Z) (details : bool) (channel_slice : channel_slice_arg)
    (out : Output sparse dense) :
  reverberant_scenario_map_fn pad_sparse get_scale sum_padded default_rng example
    normalize_sources add_speech_reverberation_early add_speech_reverberation_tail
    compensate_time_of_flight early_rir_samples details channel_slice = Ok out ->
  let K := length (speaker_id example) in
  original_source example <> []
  /\ length (original_source example) = K
  /\ length (rirs_rows (out_rir out)) = K
  /\ length (num_samples_original_source example) = K
  /\ length (offset_original_reverberated out) = K
  /\ (length (original_reverberated out) <= K)%nat.
Proof.
  intros H K. unfold reverberant_scenario_map_fn in H. cbv beta iota zeta in H.
  bind_inv H rir_start_sample Hstart.
  bind_inv H u Hnonempty.
  bind_inv H h Hslice.
  bind_inv H speech_source_ Hsource.
  bind_inv H reverberated Hfull.
  bind_inv H scale Hscale.
  bind_inv H speech_image_ Himage.
  bind_inv H early Hearly.
  bind_inv H tail Htail.
  bind_inv H u' Hdtype.
  bind_inv H clean_mix Hmix.
  injection H as <-. cbn [out_rir offset_original_reverberated original_reverberated].
  destruct (get_convolved_signals_inv _ _ _ _ _ _ Hfull)
    as (Hs & Hx & Hnum & _ & Hoff & HK).
  assert (Hlen : forall l : list (list Qc),
             length (if normalize_sources then map mean_normalize l else l) = length l).
  { intros l. destruct normalize_sources; [apply length_map|reflexivity]. }
  rewrite Hlen in Hs, Hx. fold K in HK.
  split; [|split; [lia|split; [lia|split; [lia|split; [lia|]]]]].
  - intros E. rewrite E in Hdtype.
    destruct normalize_sources; discriminate.
  - unfold apply_scale. rewrite length_map, length_combine. lia.
Qed.

Lemma scenario_counts_agree_witness :
  exists out,
    reverberant_scenario_map_fn keep_unpadded scale_by_two keep_images
      OverlapSampler.counting_generator two_speaker_example
      true true true true 1%Z false CsNone = Ok out
    /\ original_source two_speaker_example <> []
    /\ length (original_source two_speaker_example) = 2%nat
    /\ length (rirs_rows (out_rir out)) = 2%nat
    /\ length (num_samples_original_source two_speaker_example) = 2%nat
    /\ length (offset_original_reverberated out) = 2%nat
    /\ (length (original_reverberated out) <= 2)%nat.
Proof.
  eexists. split.
  - vm_compute. reflexivity.
  - apply (scenario_counts_agree _ _ keep_unpadded scale_by_two keep_images
             OverlapSampler.counting_generator two_speaker_example
             true true true true 1%Z false CsNone).
    vm_compute. reflexivity.
Defined.

(** X17.  The lengths a returning run records for the reverberated signals:
    entry [k] of [num_samples_original_reverberated] is the length of source
    [k] plus the length of the RIRs used, minus one. *)
Theorem scenario_records_convolved_lengths (sparse dense : Type)
    (pad_sparse : list ndarray -> list Z -> list Z -> result (list sparse))
    (get_scale : list Qc -> list ndarray -> result (list Qc))
    (sum_padded : list sparse -> list Z -> result dense)
    (default_rng : Rng.Generator) (example : Example)
    (normalize_sources add_speech_reverberation_early
     add_speech_reverberation_tail compensate_time_of_flight : bool)
    (early_rir_samples : Z) (details : bool) (channel_slice : channel_slice_arg)
    (out : Output sparse dense) :
  reverberant_scenario_map_fn pad_sparse get_scale sum_padded default_rng example
    normalize_sources add_speech_reverberation_early add_speech_reverberation_tail
    compensate_time_of_flight early_rir_samples details channel_slice = Ok out ->
  length (num_samples_original_reverberated out) = length (original_reverberated out)
  /\ forall k n,
       nth_error (num_samples_original_reverberated out) k = Some n ->
       exists x_k T_k,
         nth_error (original_reverberated out) k = Some x_k
         /\ nth_error (num_samples_original_source example) k = Some T_k
         /\ last_dim x_k = n
         /\ n = (T_k + shape_m1 (out_rir out) - 1)%Z.
Proof.
  intros H. unfold reverberant_scenario_map_fn in H. cbv beta iota zeta in H.
  bind_inv H rir_start_sample Hstart.
  bind_inv H u Hnonempty.
  bind_inv H h Hslice.
  bind_inv H speech_source_ Hsource.
  bind_inv H reverberated Hfull.
  bind_inv H scale Hscale.
  bind_inv H speech_image_ Himage.
  bind_inv H early Hearly.
  bind_inv H tail Htail.
  bind_inv H u' Hdtype.
  bind_inv H clean_mix Hmix.
  injection H as <-.
  cbn [out_rir num_samples_original_reverberated original_reverberated].
  split; [apply length_map|].
  intros k n Hk.
  destruct (get_convolved_signals_inv _ _ _ _ _ _ Hfull)
    as (_ & _ & _ & Hall & _ & _).
  destruct (nth_error (apply_scale scale reverberated) k) as [y|] eqn:Ey.
  2:{ rewrite nth_error_map, Ey in Hk. discriminate. }
  rewrite nth_error_map, Ey in Hk. injection Hk as <-.
  destruct (apply_scale_nth_error _ _ _ _ Ey) as (x_k & c & Hx & ->).
  destruct (nth_error (num_samples_original_source example) k) as [T_k|] eqn:ET.
  2:{ apply nth_error_None in ET. apply Forall2_length in Hall.
      assert (k < length reverberated)%nat
        by (apply nth_error_Some; rewrite Hx; discriminate).
      lia. }
  exists (scale_array x_k c), T_k. split; [reflexivity|]. split; [reflexivity|].
  split; [reflexivity|]. rewrite last_dim_scale_array.
  clear - Hall Hx ET. revert k Hx ET.
  induction Hall as [|a b l l' Hab _ IH]; intros [|k] Hx ET; try discriminate.
  - cbn in Hx, ET. injection Hx as <-. injection ET as <-. exact Hab.
  - exact (IH k Hx ET).
Qed.

Lemma scenario_records_convolved_lengths_witness :
  exists out,
    reverberant_scenario_map_fn keep_unpadded scale_by_two keep_images
      OverlapSampler.counting_generator two_speaker_example
      true true true true 1%Z false CsNone = Ok out
    /\ length (num_samples_original_reverberated out) = length (original_reverberated out)
    /\ forall k n,
         nth_error (num_samples_original_reverberated out) k = Some n ->
         exists x_k T_k,
           nth_error (original_reverberated out) k = Some x_k
           /\ nth_error (num_samples_original_source two_speaker_example) k = Some T_k
           /\ last_dim x_k = n
           /\ n = (T_k + shape_m1 (out_rir out) - 1)%Z.
Proof.
  eexists. split.
  - vm_compute. reflexivity.
  - apply (scenario_records_convolved_lengths _ _ keep_unpadded scale_by_two keep_images
             OverlapSampler.counting_generator two_speaker_example
             true true true true 1%Z false CsNone).
    vm_compute. reflexivity.
Defined.

(** X18.  The offsets a returning run stores.  With
    [compensate_time_of_flight] entry [k] is the source offset of speaker
    [k] minus the start sample of that speaker's RIR as it is in the example,
    before any channel is selected; without it the source offsets are stored
    unchanged. *)
Theorem scenario_offsets (sparse dense : Type)
    (pad_sparse : list ndarray -> list Z -> list Z -> result (list sparse))
    (get_scale : list Qc -> list ndarray -> result (list Qc))
    (sum_padded : list sparse -> list Z -> result dense)
    (default_rng : Rng.Generator) (example : Example)
    (normalize_sources add_speech_reverberation_early
     add_speech_reverberation_tail compensate_time_of_flight : bool)
    (early_rir_samples : Z) (details : bool) (channel_slice : channel_slice_arg)
    (out : Output sparse dense) :
  reverberant_scenario_map_fn pad_sparse get_scale sum_padded default_rng example
    normalize_sources add_speech_reverberation_early add_speech_reverberation_tail
    compensate_time_of_flight early_rir_samples details channel_slice = Ok out ->
  if compensate_time_of_flight then
    forall k o,
      nth_error (offset_original_reverberated out) k = Some o ->
      exists offset_ h_k rir_start_sample_,
        nth_error (offset_original_source example) k = Some offset_
        /\ nth_error (rirs_rows (rir example)) k = Some h_k
        /\ get_rir_start_sample float_1e_1 h_k = Ok rir_start_sample_
        /\ o = (offset_ - Z.of_nat rir_start_sample_)%Z
  else offset_original_reverberated out = offset_original_source example.
Proof.
  intros H. unfold reverberant_scenario_map_fn in H. cbv beta iota zeta in H.
  bind_inv H rir_start_sample Hstart.
  bind_inv H u Hnonempty.
  bind_inv H h Hslice.
  bind_inv H speech_source_ Hsource.
  bind_inv H reverberated Hfull.
  bind_inv H scale Hscale.
  bind_inv H speech_image_ Himage.
  bind_inv H early Hearly.
  bind_inv H tail Htail.
  bind_inv H u' Hdtype.
  bind_inv H clean_mix Hmix.
  injection H as <-. cbn [offset_original_reverberated].
  destruct compensate_time_of_flight; [|reflexivity].
  intros k o Hk.
  apply for_each_Forall2 in Hstart.
  clear - Hstart Hk. revert k Hk.
  generalize (offset_original_source example) as offsets.
  induction Hstart as [|h_k st rows starts Hst _ IH]; intros offsets k Hk.
  - rewrite combine_nil in Hk. destruct k; discriminate.
  - destruct offsets as [|offset_ offsets]; [destruct k; discriminate|].
    destruct k as [|k]; cbn in Hk.
    + injection Hk as <-. exists offset_, h_k, st. cbn. auto.
    + exact (IH offsets k Hk).
Qed.

Lemma scenario_offsets_witness :
  exists out,
    reverberant_scenario_map_fn keep_unpadded scale_by_two keep_images
      OverlapSampler.counting_generator two_speaker_example
      true true true true 1%Z false (CsInt 1) = Ok out
    /\ forall k o,
         nth_error (offset_original_reverberated out) k = Some o ->
         exists offset_ h_k rir_start_sample_,
           nth_error (offset_original_source two_speaker_example) k = Some offset_
           /\ nth_error (rirs_rows (rir two_speaker_example)) k = Some h_k
           /\ get_rir_start_sample float_1e_1 h_k = Ok rir_start_sample_
           /\ o = (offset_ - Z.of_nat rir_start_sample_)%Z.
Proof.
  eexists. split.
  - vm_compute. reflexivity.
  - apply (scenario_offsets _ _ keep_unpadded scale_by_two keep_images
             OverlapSampler.counting_generator two_speaker_example
             true true true true 1%Z false (CsInt 1)).
    vm_compute. reflexivity.
Defined.

(** X19.  With both decompositions and [details] on, a returning run stores
    an early and a tail RIR that add up, sample by sample, to the RIR it
    stored; without [details] it stores neither. *)
Theorem scenario_rir_parts (sparse dense : Type)
    (pad_sparse : list ndarray -> list Z -> list Z -> result (list sparse))
    (get_scale : list Qc -> list ndarray -> result (list Qc))
    (sum_padded : list sparse -> list Z -> result dense)
    (default_rng : Rng.Generator) (example : Example)
    (normalize_sources compensate_time_of_flight : bool) (early_rir_samples : Z)
    (details : bool) (channel_slice : channel_slice_arg) (out : Output sparse dense) :
  reverberant_scenario_map_fn pad_sparse get_scale sum_padded default_rng example
    normalize_sources true true compensate_time_of_flight early_rir_samples
    details channel_slice = Ok out ->
  if details then
    exists h_early h_tail,
      rir_early out = Some h_early
      /\ rir_tail out = Some h_tail
      /\ Forall3 array_sum (rirs_rows h_early) (rirs_rows h_tail)
           (rirs_rows (out_rir out))
  else rir_early out = None /\ rir_tail out = None.
Proof.
  intros H. unfold reverberant_scenario_map_fn in H. cbv beta iota zeta in H.
  bind_inv H rir_start_sample Hstart.
  bind_inv H u Hnonempty.
  bind_inv H h Hslice.
  bind_inv H speech_source_ Hsource.
  bind_inv H reverberated Hfull.
  bind_inv H scale Hscale.
  bind_inv H speech_image_ Himage.
  bind_inv H early Hearly.
  bind_inv H tail Htail.
  bind_inv H u' Hdtype.
  bind_inv H clean_mix Hmix.
  injection H as <-. cbn [rir_early rir_tail out_rir].
  bind_inv Hearly h_early Hmask_early. bind_inv Hearly x_early Hconv_early.
  bind_inv Hearly padded_early Hpad_early. injection Hearly as <-.
  bind_inv Htail h_tail Hmask_tail. bind_inv Htail x_tail Hconv_tail.
  bind_inv Htail padded_tail Hpad_tail. injection Htail as <-.
  cbn [fst snd]. destruct details; [|split; reflexivity].
  exists h_early, h_tail. split; [reflexivity|]. split; [reflexivity|].
  exact (mask_rirs_sum h h_early h_tail _ Hmask_early Hmask_tail).
Qed.

Lemma scenario_rir_parts_witness :
  exists out,
    reverberant_scenario_map_fn keep_unpadded scale_by_two keep_images
      OverlapSampler.counting_generator two_speaker_example
      true true true true 1%Z true CsNone = Ok out
    /\ exists h_early h_tail,
         rir_early out = Some h_early
         /\ rir_tail out = Some h_tail
         /\ Forall3 array_sum (rirs_rows h_early) (rirs_rows h_tail)
              (rirs_rows (out_rir out)).
Proof.
  eexists. split.
  - vm_compute. reflexivity.
  - apply (scenario_rir_parts _ _ keep_unpadded scale_by_two keep_images
             OverlapSampler.counting_generator two_speaker_example
             true true 1%Z true CsNone).
    vm_compute. reflexivity.
Defined.

End ScenarioGuarantees.

(* ===================================================================== *)
(** * What a channel selection selects *)
(* ===================================================================== *)

Module ChannelGuarantees.

Import Reverberant.

Lemma firstn_min_length {A : Type} (n : nat) (l : list A) :
  firstn (Nat.min n (length l)) l = firstn n l.
Proof.
  destruct (Nat.le_gt_cases n (length l)) as [Hle|Hgt].
  - rewrite Nat.min_l by exact Hle. reflexivity.
  - rewrite Nat.min_r by lia. rewrite firstn_all, firstn_all2 by lia. reflexivity.
Qed.

Lemma firstn_one_skipn {A : Type} (i : nat) (l : list A) (c : A) :
  nth_error l i = Some c -> firstn 1 (skipn i l) = [c].
Proof.
  revert l. induction i as [|i IH]; intros [|x l] H; try discriminate.
  - injection H as <-. reflexivity.
  - exact (IH l H).
Qed.

(** The slice [slice(i, i + 1)] selects the element that the index [i]
    selects, for every index in range but [-1]. *)
Lemma apply_slice_one {A : Type} (l : list A) (i : Z) :
  (- Z.of_nat (length l) <= i < Z.of_nat (length l))%Z ->
  i <> (-1)%Z ->
  exists c, getitem l i = Ok c
            /\ apply_slice l {| start := Some i; stop := Some (i + 1)%Z |} = [c].
Proof.
  intros Hrange Hlast. unfold getitem, apply_slice, slice_bound. cbn [start stop].
  destruct (i <? 0)%Z eqn:Eneg.
  - apply Z.ltb_lt in Eneg.
    assert (E1 : (i + 1 <? 0)%Z = true) by (apply Z.ltb_lt; lia). rewrite E1.
    assert (E2 : ((0 <=? Z.of_nat (length l) + i) && (Z.of_nat (length l) + i <? Z.of_nat (length l)))%bool%Z = true).
    { apply andb_true_intro. split; [apply Z.leb_le|apply Z.ltb_lt]; lia. }
    rewrite E2.
    destruct (nth_error l (Z.to_nat (Z.of_nat (length l) + i))) as [c|] eqn:Ec.
    2:{ apply nth_error_None in Ec. lia. }
    exists c. split; [reflexivity|].
    replace (Z.to_nat (Z.of_nat (length l) + (i + 1))
             - Z.to_nat (Z.of_nat (length l) + i))%nat with 1%nat by lia.
    exact (firstn_one_skipn _ l c Ec).
  - apply Z.ltb_ge in Eneg.
    assert (E1 : (i + 1 <? 0)%Z = false) by (apply Z.ltb_ge; lia). rewrite E1.
    assert (E2 : ((0 <=? i) && (i <? Z.of_nat (length l)))%bool%Z = true).
    { apply andb_true_intro. split; [apply Z.leb_le|apply Z.ltb_lt]; lia. }
    rewrite E2.
    destruct (nth_error l (Z.to_nat i)) as [c|] eqn:Ec.
    2:{ apply nth_error_None in Ec. lia. }
    exists c. split; [reflexivity|].
    replace (Nat.min (Z.to_nat (i + 1)) (length l)
             - Nat.min (Z.to_nat i) (length l))%nat with 1%nat by lia.
    replace (Nat.min (Z.to_nat i) (length l)) with (Z.to_nat i) by lia.
    exact (firstn_one_skipn _ l c Ec).
Qed.

Lemma getitem_nonneg {A : Type} (l : list A) (i : Z) (c : A) :
  (0 <= i)%Z -> getitem l i = Ok c -> nth_error l (Z.to_nat i) = Some c.
Proof.
  intros Hi Hget. unfold getitem in Hget.
  assert (E : (i <? 0)%Z = false) by (apply Z.ltb_ge; lia).
  rewrite E in Hget.
  destruct ((0 <=? i) && (i <? Z.of_nat (length l)))%bool%Z; [|discriminate].
  destruct (nth_error l (Z.to_nat i)); [|discriminate].
  injection Hget as <-. reflexivity.
Qed.

(** X20.  What the returned slice selects when no index is asked for: an
    [int] [n >= 0] selects the first [n] channels, a negative [n] all but
    the last [-n]; [None] and ['all'] select every channel; any other string
    but ['one_random'] raises [ValueError]. *)
Theorem get_channel_slice_selects {A : Type} (default_rng : Rng.Generator)
    (total_num_channels : option Z) (rng : option Rng.Generator)
    (channels : list A) :
  (forall n,
      exists sl,
        get_channel_slice default_rng (CsInt n) total_num_channels rng false
        = Ok (SelSlice sl)
        /\ apply_slice channels sl
           = if (0 <=? n)%Z then firstn (Z.to_nat n) channels
             else firstn (length channels - Z.to_nat (- n)) channels)
  /\ (forall squeeze,
        exists sl,
          get_channel_slice default_rng CsNone total_num_channels rng squeeze
          = Ok (SelSlice sl)
          /\ get_channel_slice default_rng (CsStr "all") total_num_channels rng squeeze
             = Ok (SelSlice sl)
          /\ apply_slice channels sl = channels)
  /\ (forall name squeeze,
        name <> "all"%string -> name <> "one_random"%string ->
        get_channel_slice default_rng (CsStr name) total_num_channels rng squeeze
        = Raise ValueError).
Proof.
  split; [|split].
  - intros n. eexists. split; [reflexivity|].
    unfold apply_slice, slice_bound. cbn [start stop].
    rewrite Nat.sub_0_r. cbn [skipn].
    destruct (0 <=? n)%Z eqn:E.
    + apply Z.leb_le in E.
      assert (E' : (n <? 0)%Z = false) by (apply Z.ltb_ge; lia). rewrite E'.
      apply firstn_min_length.
    + apply Z.leb_gt in E.
      assert (E' : (n <? 0)%Z = true) by (apply Z.ltb_lt; lia). rewrite E'.
      f_equal. lia.
  - intros squeeze. eexists. split; [reflexivity|]. split; [reflexivity|].
    unfold apply_slice. cbn [start stop skipn]. rewrite Nat.sub_0_r.
    apply firstn_all.
  - intros name squeeze Hall Hone. cbn.
    apply String.eqb_neq in Hall, Hone. rewrite Hall, Hone. reflexivity.
Qed.

Lemma get_channel_slice_selects_witness :
  get_channel_slice OverlapSampler.counting_generator (CsStr "first") (Some 4%Z)
    None false
  = Raise ValueError.
Proof.
  apply (proj2 (proj2 (get_channel_slice_selects (A := nat)
                         OverlapSampler.counting_generator (Some 4%Z) None [])));
    discriminate.
Defined.

(** X21.  ['one_random'] on a non-empty list of channels whose number is
    passed as [total_num_channels]: the returned slice selects exactly one
    channel, the one at the drawn position.  With a channel count that is not
    positive the call raises [ValueError]. *)
Theorem get_channel_slice_one_random_selects {A : Type}
    (default_rng : Rng.Generator) (rng : option Rng.Generator)
    (channels : list A) :
  (channels <> [] ->
   exists channel c,
     (0 <= channel < Z.of_nat (length channels))%Z
     /\ get_channel_slice default_rng (CsStr "one_random")
          (Some (Z.of_nat (length channels))) rng false
        = Ok (SelSlice {| start := Some channel; stop := Some (channel + 1)%Z |})
     /\ nth_error channels (Z.to_nat channel) = Some c
     /\ apply_slice channels {| start := Some channel; stop := Some (channel + 1)%Z |}
        = [c])
  /\ (forall total squeeze,
        (total <= 0)%Z ->
        get_channel_slice default_rng (CsStr "one_random") (Some total) rng squeeze
        = Raise ValueError).
Proof.
  split.
  - intros Hne.
    set (g := match rng with None => default_rng | Some g => g end).
    assert (Hpos : (0 < Z.of_nat (length channels))%Z)
      by (destruct channels; [congruence|cbn; lia]).
    destruct (SamplerProperties.integers_returns 0 _ g Hpos) as (channel & g' & Hdraw).
    pose proof (SamplerProperties.integers_range 0 _ channel g g' Hdraw) as Hrange.
    destruct (apply_slice_one channels channel) as (c & Hget & Hsel); [lia|lia|].
    exists channel, c. split; [exact Hrange|]. split; [|split; [|exact Hsel]].
    + cbn. fold g. rewrite Hdraw. reflexivity.
    + apply getitem_nonneg; [lia|exact Hget].
  - intros total squeeze Htotal. cbn. unfold Rng.integers.
    assert (E : (0 <? total)%Z = false) by (apply Z.ltb_ge; lia).
    rewrite E. reflexivity.
Qed.

Lemma get_channel_slice_one_random_selects_witness :
  exists channel c,
    (0 <= channel < Z.of_nat (length ["left"; "right"]%string))%Z
    /\ get_channel_slice OverlapSampler.counting_generator (CsStr "one_random")
         (Some (Z.of_nat (length ["left"; "right"]%string))) None false
       = Ok (SelSlice {| start := Some channel; stop := Some (channel + 1)%Z |})
    /\ nth_error ["left"; "right"]%string (Z.to_nat channel) = Some c
    /\ apply_slice ["left"; "right"]%string
         {| start := Some channel; stop := Some (channel + 1)%Z |}
       = [c].
Proof.
  apply (proj1 (get_channel_slice_one_random_selects
                  OverlapSampler.counting_generator None ["left"; "right"]%string)).
  discriminate.
Defined.



(** ** slice_channel *)

Lemma getitem_0 {A : Type} (x : A) (l : list A) : getitem (x :: l) 0 = Ok x.
Proof.
  unfold getitem. cbn [Z.ltb Z.compare length].
  assert (E : ((0 <=? 0) && (0 <? Z.of_nat (S (length l))))%bool%Z = true).
  { apply andb_true_intro. split; [reflexivity|apply Z.ltb_lt; lia]. }
  rewrite E. reflexivity.
Qed.

Lemma for_each_map {A B : Type} (f : A -> result B) (g : A -> B) (l : list A) :
  (forall x, In x l -> f x = Ok (g x)) -> for_each f l = Ok (map g l).
Proof.
  induction l as [|x l IH]; intros H; cbn; [reflexivity|].
  rewrite (H x (or_introl eq_refl)). cbn.
  rewrite IH by (intros y Hy; apply H; right; exact Hy). reflexivity.
Qed.

Lemma for_each_length {A B : Type} (f : A -> result B) (l : list A) :
  forall ys, for_each f l = Ok ys -> length ys = length l.
Proof.
  induction l as [|x l IH]; intros ys H; cbn in H.
  - injection H as <-. reflexivity.
  - destruct (f x) as [y|e]; cbn in H; [|discriminate].
    destruct (for_each f l) as [ys'|e]; cbn in H; [|discriminate].
    injection H as <-. cbn. rewrite (IH ys' eq_refl). reflexivity.
Qed.

Lemma get_channel_slice_no_index (default_rng : Rng.Generator)
    (channel_slice : channel_slice_arg) (total_num_channels : option Z)
    (rng : option Rng.Generator) (sel : selection) :
  get_channel_slice default_rng channel_slice total_num_channels rng false = Ok sel ->
  exists sl, sel = SelSlice sl.
Proof.
  destruct channel_slice as [s|n| |name]; cbn.
  - intros [= <-]. eauto.
  - intros [= <-]. eauto.
  - intros [= <-]. eauto.
  - destruct (String.eqb name "all"); [intros [= <-]; eauto|].
    destruct (String.eqb name "one_random"); [|discriminate].
    destruct total_num_channels as [total|]; [|discriminate].
    destruct (Rng.integers 0 total _) as [[channel g']|e]; cbn; [|discriminate].
    intros [= <-]. eauto.
Qed.

(** X23.  [slice_channel] does not use the generator of
    [np.random.default_rng()]: what it returns is fixed by the example, the
    arguments and [get_rng_example]. *)
Theorem slice_channel_ignores_default_rng
    (get_rng_example : Example -> string -> Rng.Generator)
    (default_rng default_rng' : Rng.Generator) (example : Example)
    (channel_slice : channel_slice_arg) (squeeze : bool) :
  slice_channel get_rng_example default_rng example channel_slice squeeze
  = slice_channel get_rng_example default_rng' example channel_slice squeeze.
Proof.
  unfold slice_channel.
  destruct (first_shape_0 (rir example)) as [total|e]; [|reflexivity].
  cbn [Py.bind].
  assert (E : forall rng,
             rng = match channel_slice with
                   | CsStr name =>
                       if String.eqb name "one_random"
                       then Some (get_rng_example example "slice_channel"%string)
                       else None
                   | _ => None
                   end ->
             get_channel_slice default_rng channel_slice (Some total) rng squeeze
             = get_channel_slice default_rng' channel_slice (Some total) rng squeeze).
  { intros rng ->. destruct channel_slice as [s|n| |name]; try reflexivity.
    cbn. destruct (String.eqb name "one_random"); reflexivity. }
  rewrite (E _ eq_refl). reflexivity.
Qed.

(** X24.  ['one_random'] selects one channel for the whole example.  When
    every speaker's RIR has the [D > 0] channels of the first one,
    [slice_channel] returns, and there is one position [channel < D] such that
    every speaker keeps exactly its channel at that position: as a list of one
    channel, or with [squeeze] as the channel itself. *)
Theorem slice_channel_one_random_same_channel
    (get_rng_example : Example -> string -> Rng.Generator)
    (default_rng : Rng.Generator) (example : Example)
    (h_0 : list (list Qc)) (hs : list (list (list Qc))) (squeeze : bool) :
  rir example = Rirs3 (h_0 :: hs) ->
  h_0 <> [] ->
  Forall (fun h_k => length h_k = length h_0) hs ->
  exists channel example',
    (channel < length h_0)%nat
    /\ slice_channel get_rng_example default_rng example (CsStr "one_random") squeeze
       = Ok example'
    /\ rir example'
       = (if squeeze then Rirs2 (map (fun h_k => nth channel h_k []) (h_0 :: hs))
          else Rirs3 (map (fun h_k => [nth channel h_k []]) (h_0 :: hs)))
    /\ speaker_id example' = speaker_id example
    /\ original_source example' = original_source example.
Proof.
  intros Hrir Hne Hall.
  set (g := get_rng_example example "slice_channel"%string).
  assert (Hpos : (0 < Z.of_nat (length h_0))%Z)
    by (destruct h_0; [congruence|cbn; lia]).
  destruct (SamplerProperties.integers_returns 0 _ g Hpos) as (channel & g' & Hdraw).
  pose proof (SamplerProperties.integers_range 0 _ channel g g' Hdraw) as Hrange.
  assert (Hsel : forall h_k, In h_k (h_0 :: hs) ->
             getitem h_k channel = Ok (nth (Z.to_nat channel) h_k [])
             /\ apply_slice h_k {| start := Some channel; stop := Some (channel + 1)%Z |}
                = [nth (Z.to_nat channel) h_k []]).
  { intros h_k Hin.
    assert (Hlen : length h_k = length h_0).
    { destruct Hin as [<-|Hin]; [reflexivity|].
      rewrite Forall_forall in Hall. exact (Hall h_k Hin). }
    destruct (apply_slice_one h_k channel) as (c & Hget & Hsl); [lia|lia|].
    pose proof (getitem_nonneg h_k channel c (proj1 Hrange) Hget) as Hnth.
    rewrite (nth_error_nth _ _ [] Hnth). split; [exact Hget|exact Hsl]. }
  exists (Z.to_nat channel). unfold slice_channel. rewrite Hrir.
  cbn [first_shape_0]. rewrite getitem_0. cbn [Py.bind get_channel_slice].
  replace (String.eqb "one_random" "all") with false by reflexivity.
  replace (String.eqb "one_random" "one_random") with true by reflexivity.
  fold g. rewrite Hdraw. cbn [Py.bind fst].
  destruct squeeze; cbn [Py.bind index_channel].
  - rewrite (for_each_map _ (fun h_k => nth (Z.to_nat channel) h_k []))
      by (intros h_k Hin; apply Hsel; exact Hin).
    cbn [Py.bind]. eexists. split; [lia|]. split; [reflexivity|].
    cbn [rir speaker_id original_source]. auto.
  - eexists. split; [lia|]. split; [reflexivity|].
    cbn [rir speaker_id original_source]. split; [|auto].
    f_equal. apply map_ext_in. intros h_k Hin. apply Hsel. exact Hin.
Qed.

Lemma slice_channel_one_random_same_channel_witness :
  exists channel example',
    (channel < 2)%nat
    /\ slice_channel (fun _ _ => OverlapSampler.counting_generator)
         OverlapSampler.stubborn_generator two_speaker_example
         (CsStr "one_random") true
       = Ok example'
    /\ rir example'
       = Rirs2 (map (fun h_k => nth channel h_k [])
                  [ [ [q 0 1; q 1 1; q 1 2]; [q 0 1; q 0 1; q 1 1] ];
                    [ [q 1 1; q 0 1; q 1 2]; [q 1 2; q 1 1; q 0 1] ] ])
    /\ speaker_id example' = speaker_id two_speaker_example
    /\ original_source example' = original_source two_speaker_example.
Proof.
  apply (slice_channel_one_random_same_channel (fun _ _ => OverlapSampler.counting_generator)
           OverlapSampler.stubborn_generator two_speaker_example
           [ [q 0 1; q 1 1; q 1 2]; [q 0 1; q 0 1; q 1 1] ]
           [ [ [q 1 1; q 0 1; q 1 2]; [q 1 2; q 1 1; q 0 1] ] ] true).
  - reflexivity.
  - discriminate.
  - repeat constructor.
Defined.

(** X25.  [slice_channel] returns only for RIRs with a channel axis and at
    least one speaker.  It then keeps every speaker, and without [squeeze] it
    keeps the channel axis. *)
Theorem slice_channel_returns_only_with_channel_axis
    (get_rng_example : Example -> string -> Rng.Generator)
    (default_rng : Rng.Generator) (example example' : Example)
    (channel_slice : channel_slice_arg) (squeeze : bool) :
  slice_channel get_rng_example default_rng example channel_slice squeeze
  = Ok example' ->
  (exists h_0 hs, rir example = Rirs3 (h_0 :: hs))
  /\ length (rirs_rows (rir example')) = length (rirs_rows (rir example))
  /\ (squeeze = false -> exists hs', rir example' = Rirs3 hs').
Proof.
  unfold slice_channel. intros H.
  destruct (first_shape_0 (rir example)) as [total|e] eqn:Etotal; [|discriminate].
  cbn [Py.bind] in H.
  destruct (get_channel_slice default_rng channel_slice (Some total) _ squeeze)
    as [sel|e] eqn:Esel; [|discriminate].
  cbn [Py.bind] in H.
  destruct (rir example) as [rows|hs] eqn:Erir; [discriminate|].
  destruct hs as [|h_0 hs]; [discriminate|].
  split; [eauto|].
  destruct sel as [sl|i]; cbn [index_channel Py.bind] in H.
  - injection H as <-. cbn [rir rirs_rows]. split.
    + cbn [map length]. rewrite !length_map. reflexivity.
    + eauto.
  - destruct (for_each (fun r => getitem r i) (h_0 :: hs)) as [rows|e] eqn:Erows;
      [|discriminate].
    cbn [Py.bind] in H. injection H as <-. cbn [rir rirs_rows]. split.
    + rewrite !length_map. exact (for_each_length _ (h_0 :: hs) _ Erows).
    + intros ->. destruct (get_channel_slice_no_index _ _ _ _ _ Esel) as (sl & Hsl).
      discriminate.
Qed.

Lemma slice_channel_returns_only_with_channel_axis_witness :
  exists example',
    slice_channel (fun _ _ => OverlapSampler.counting_generator)
      OverlapSampler.counting_generator two_speaker_example (CsInt 1) false
    = Ok example'
    /\ (exists h_0 hs, rir two_speaker_example = Rirs3 (h_0 :: hs))
    /\ length (rirs_rows (rir example')) = length (rirs_rows (rir two_speaker_example))
    /\ (false = false -> exists hs', rir example' = Rirs3 hs').
Proof.
  eexists. split.
  - vm_compute. reflexivity.
  - apply (slice_channel_returns_only_with_channel_axis
             (fun _ _ => OverlapSampler.counting_generator)
             OverlapSampler.counting_generator two_speaker_example _ (CsInt 1) false).
    vm_compute. reflexivity.
Defined.

End ChannelGuarantees.

(* ===================================================================== *)
(** * Mean normalisation of the sources *)
(* ===================================================================== *)

Module NormalizeGuarantees.

Import Reverberant.

Lemma count_succ (n : nat) :
  Q2Qc (inject_Z (Z.of_nat (S n))) = (Q2Qc (inject_Z (Z.of_nat n)) + 1)%Qc.
Proof.
  apply Qc_is_canon. cbn [this Qcplus Q2Qc].
  rewrite !Qred_correct. rewrite Nat2Z.inj_succ.
  unfold Qeq, Qplus, inject_Z. cbn. lia.
Qed.

Lemma count_nonzero (n : nat) :
  n <> 0%nat -> Q2Qc (inject_Z (Z.of_nat n)) <> 0%Qc.
Proof.
  intros Hn H. apply (f_equal this) in H.
  change (Qred (inject_Z (Z.of_nat n)) = Qred 0) in H.
  apply Qred_eq_iff in H. unfold Qeq, inject_Z in H. cbn in H. lia.
Qed.

Lemma sum_shifted (m : Qc) (l : list Qc) :
  fold_right Qcplus 0%Qc (map (fun a => a - m)%Qc l)
  = (fold_right Qcplus 0%Qc l - Q2Qc (inject_Z (Z.of_nat (length l))) * m)%Qc.
Proof.
  induction l as [|a l IH].
  - cbn [map fold_right length].
    change (Q2Qc (inject_Z (Z.of_nat 0))) with 0%Qc. ring.
  - cbn [map fold_right length]. rewrite IH, count_succ. ring.
Qed.

(** X26.  A normalised source has mean zero: in exact arithmetic the
    samples of [s_ - np.mean(s_)] add up to zero for every non-empty source,
    and normalising once more changes nothing. *)
Theorem mean_normalize_zero_mean (s_ : list Qc) :
  s_ <> [] ->
  length (mean_normalize s_) = length s_
  /\ fold_right Qcplus 0%Qc (mean_normalize s_) = 0%Qc
  /\ mean_normalize (mean_normalize s_) = mean_normalize s_.
Proof.
  intros Hne.
  assert (Hn : Q2Qc (inject_Z (Z.of_nat (length s_))) <> 0%Qc)
    by (apply count_nonzero; destruct s_; [congruence|discriminate]).
  assert (Hzero : fold_right Qcplus 0%Qc (mean_normalize s_) = 0%Qc).
  { unfold mean_normalize. rewrite sum_shifted. field. exact Hn. }
  split; [apply length_map|]. split; [exact Hzero|].
  unfold mean_normalize at 1. rewrite Hzero.
  rewrite <- (map_id (mean_normalize s_)) at 2. apply map_ext.
  intros a. unfold Qcdiv. ring.
Qed.

Lemma mean_normalize_zero_mean_witness :
  length (mean_normalize [q 1 1; q 2 1; q 6 1]) = length [q 1 1; q 2 1; q 6 1]
  /\ fold_right Qcplus 0%Qc (mean_normalize [q 1 1; q 2 1; q 6 1]) = 0%Qc
  /\ mean_normalize (mean_normalize [q 1 1; q 2 1; q 6 1])
     = mean_normalize [q 1 1; q 2 1; q 6 1].
Proof.
  apply (mean_normalize_zero_mean [q 1 1; q 2 1; q 6 1]). discriminate.
Defined.

End NormalizeGuarantees.
